(** * Globes: projection bounds, orientation strings, the interpolated field
      and the gesture classifier of [src/models/globes.js].

    The development embeds the functions of [globes.js] as Rocq functions
    and proves the properties the specification states about them.

    Numbers.  A JavaScript number is modelled as an exact rational extended
    with [+Infinity], [-Infinity] and [NaN].  Rounding error of double
    arithmetic and the sign of zero are outside the model; every result of
    an arithmetic operation is kept in lowest terms, so that two results
    are equal as numbers exactly when they are equal as terms.  A numeric
    literal too large for a double reads as an infinity, as in the code.

    Strings.  A string is a sequence of code units below 256.

    Angles.  A d3 projection keeps each rotation angle modulo 360, and
    [rotate()] reads back the remainder (up to the rounding of d3's
    conversion to radians and back).

    Objects.  Arrays that the code mutates or compares by identity (the wind
    vectors and the two sentinel vectors) live in a store and are named by
    their location. *)

From Stdlib Require Import ZArith QArith Qround Qabs Qfield Lia Lqa.
From Stdlib Require Import Ascii String DecimalString DecimalN.
From stdpp Require Import gmap strings list.

Local Open Scope Z_scope.

(** ** JavaScript numbers *)

Module JS.

Inductive number : Type :=
| Fin (q : Q)
| PInf
| NInf
| NaN.

Definition of_Z (z : Z) : number := Fin (inject_Z z).

(** Relational comparison: [None] when an operand is [NaN], in which case
    every one of [<], [<=], [>], [>=], [===] is false. *)
Definition compare (a b : number) : option comparison :=
  match a, b with
  | NaN, _ | _, NaN => None
  | Fin p, Fin q => Some (Qcompare p q)
  | PInf, PInf | NInf, NInf => Some Eq
  | NInf, _ | _, PInf => Some Lt
  | PInf, _ | _, NInf => Some Gt
  end.

Definition lt (a b : number) : bool :=
  match compare a b with Some Lt => true | _ => false end.
Definition le (a b : number) : bool :=
  match compare a b with Some Lt | Some Eq => true | _ => false end.
Definition gt (a b : number) : bool := lt b a.
Definition ge (a b : number) : bool := le b a.

(** [a === b] on numbers; [a != b] on numbers is its negation. *)
Definition strict_eq (a b : number) : bool :=
  match compare a b with Some Eq => true | _ => false end.
Definition loose_ne (a b : number) : bool := negb (strict_eq a b).

(** underscore's [isFinite] on a number. *)
Definition isFinite (a : number) : bool :=
  match a with Fin _ => true | _ => false end.

Definition neg (a : number) : number :=
  match a with
  | Fin q => Fin (Qred (- q))
  | PInf => NInf
  | NInf => PInf
  | NaN => NaN
  end.

Definition add (a b : number) : number :=
  match a, b with
  | NaN, _ | _, NaN => NaN
  | Fin p, Fin q => Fin (Qred (p + q))
  | PInf, NInf | NInf, PInf => NaN
  | PInf, _ | _, PInf => PInf
  | NInf, _ | _, NInf => NInf
  end.

Definition sub (a b : number) : number := add a (neg b).

Definition sign_of (a : number) : comparison :=
  match a with
  | Fin q => Qcompare q 0
  | PInf => Gt
  | NInf => Lt
  | NaN => Eq
  end.

Definition mul (a b : number) : number :=
  match a, b with
  | NaN, _ | _, NaN => NaN
  | Fin p, Fin q => Fin (Qred (p * q))
  | _, _ =>
      match sign_of a, sign_of b with
      | Eq, _ | _, Eq => NaN
      | Gt, Gt | Lt, Lt => PInf
      | _, _ => NInf
      end
  end.

Definition div (a b : number) : number :=
  match a, b with
  | NaN, _ | _, NaN => NaN
  | Fin p, Fin q =>
      match Qcompare q 0, Qcompare p 0 with
      | Eq, Eq => NaN
      | Eq, Gt => PInf
      | Eq, Lt => NInf
      | _, _ => Fin (Qred (p / q))
      end
  | Fin _, _ => Fin 0
  | _, Fin q =>
      match sign_of a, Qcompare q 0 with
      | Gt, Lt | Lt, Gt | Lt, Eq => NInf
      | _, _ => PInf
      end
  | _, _ => NaN
  end.

(** [Math.floor], [Math.ceil], [Math.round] (halves go up), [Math.max] and
    [Math.min] of two arguments. *)
Definition floor (a : number) : number :=
  match a with Fin q => of_Z (Qfloor q) | _ => a end.
Definition ceil (a : number) : number :=
  match a with Fin q => of_Z (Qceiling q) | _ => a end.
Definition round (a : number) : number :=
  match a with Fin q => of_Z (Qfloor (q + (1 # 2))) | _ => a end.

Definition abs (a : number) : number :=
  match a with
  | Fin q => Fin (Qred (Qabs q))
  | NInf => PInf
  | _ => a
  end.

Definition max (a b : number) : number :=
  match compare a b with
  | None => NaN
  | Some Lt => b
  | Some _ => a
  end.
Definition min (a b : number) : number :=
  match compare a b with
  | None => NaN
  | Some Gt => b
  | Some _ => a
  end.

(** The integer part of a rational, towards zero. *)
Definition truncate (q : Q) : Z := if Qle_bool 0 q then Qfloor q else Qceiling q.

(** The remainder [a % b]: it has the sign of the dividend; it is [NaN]
    for an infinite dividend or a zero divisor, and the dividend itself for
    an infinite divisor. *)
Definition rem (a b : number) : number :=
  match a, b with
  | Fin p, Fin q =>
      if Qeq_bool q 0 then NaN
      else Fin (Qred (p - q * inject_Z (truncate (p / q))))
  | Fin p, (PInf | NInf) => Fin p
  | _, _ => NaN
  end.

(** The Number value of a mathematical value: magnitudes from
    [2^1024 - 2^970] on round to an infinity. *)
Definition overflow_bound : Q := inject_Z (2 ^ 1024 - 2 ^ 970).
Definition of_real (q : Q) : number :=
  if Qle_bool overflow_bound (Qabs q) then (if Qle_bool 0 q then PInf else NInf)
  else Fin q.

End JS.

Abbreviation number := JS.number.
Abbreviation Fin := JS.Fin.
Abbreviation PInf := JS.PInf.
Abbreviation NInf := JS.NInf.
Abbreviation NaN := JS.NaN.

(** ** Strings: splitting, joining, number formatting and parsing *)

Module JSString.

Local Open Scope string_scope.

(** [String.prototype.split] with a one-character separator: the result
    is never empty. *)
Fixpoint split (sep : ascii) (s : string) : list string :=
  match s with
  | EmptyString => [EmptyString]
  | String c r =>
      if Ascii.eqb c sep then EmptyString :: split sep r
      else match split sep r with
           | h :: t => String c h :: t
           | [] => [String c EmptyString]
           end
  end.

(** [Array.prototype.join] on an array of strings. *)
Fixpoint join (sep : string) (parts : list string) : string :=
  match parts with
  | [] => EmptyString
  | [a] => a
  | a :: r => a +:+ sep +:+ join sep r
  end.

Fixpoint string_forall (P : ascii -> bool) (s : string) : bool :=
  match s with
  | EmptyString => true
  | String c r => P c && string_forall P r
  end.

(** The decimal digits of a natural number, most significant first. *)
Definition digits_of_N (n : N) : string := NilZero.string_of_uint (N.to_uint n).

(** A fraction below 100 as exactly two digits. *)
Definition two_digits (n : N) : string :=
  String (ascii_of_N (48 + n / 10)) (String (ascii_of_N (48 + n mod 10)) EmptyString).

Definition is_integer (q : Q) : bool := Qeq_bool q (inject_Z (Qfloor q)).

Definition ten_pow_21 : Q := inject_Z (10 ^ 21).

Section Formatting.

(** The engine's shortest round-trip decimal form of a double.  It is used
    for non-integers and for magnitudes from 10^21 on, and cannot be
    derived in an exact-rational model. *)
Variable shortest_decimal : Q -> string.

(** [Number::toString], as [Array.prototype.join] applies it to a number
    element. *)
Definition toString (a : number) : string :=
  match a with
  | NaN => "NaN"
  | PInf => "Infinity"
  | NInf => "-Infinity"
  | Fin q =>
      if is_integer q && negb (Qle_bool ten_pow_21 (Qabs q)) then
        (if Qle_bool 0 q then "" else "-") +:+ digits_of_N (Z.to_N (Z.abs (Qfloor q)))
      else shortest_decimal q
  end.

(** [Number.prototype.toFixed(2)]: the integer [n] nearest to [100 x] (the
    larger one on a tie) for [x] the magnitude, printed with two
    fraction digits after the sign. *)
Definition toFixed2 (a : number) : string :=
  match a with
  | NaN => "NaN"
  | PInf => "Infinity"
  | NInf => "-Infinity"
  | Fin q =>
      let s := if Qle_bool 0 q then "" else "-" in
      let x := Qabs q in
      if Qle_bool ten_pow_21 x then s +:+ shortest_decimal x
      else
        let n := Z.to_N (Qfloor (x * 100 + (1 # 2))) in
        s +:+ digits_of_N (n / 100) +:+ "." +:+ two_digits (n mod 100)
  end.

End Formatting.

(** *** [StringToNumber]: the unary [+] applied to a string *)

(** [StrWhiteSpaceChar] among the code units below 256: TAB, LF, VT, FF,
    CR, SP and NBSP. *)
Definition is_whitespace (c : ascii) : bool :=
  let n := N_of_ascii c in
  ((9 <=? n) && (n <=? 13) || (n =? 32) || (n =? 160))%N.

Fixpoint trim_start (s : string) : string :=
  match s with
  | String c r => if is_whitespace c then trim_start r else s
  | EmptyString => EmptyString
  end.

Fixpoint trim_end (s : string) : string :=
  match s with
  | EmptyString => EmptyString
  | String c r =>
      match trim_end r with
      | EmptyString => if is_whitespace c then EmptyString else String c EmptyString
      | r' => String c r'
      end
  end.

Definition trim (s : string) : string := trim_end (trim_start s).

Definition digit_cons (c : ascii) : option (Decimal.uint -> Decimal.uint) :=
  match c with
  | "0" => Some Decimal.D0 | "1" => Some Decimal.D1 | "2" => Some Decimal.D2
  | "3" => Some Decimal.D3 | "4" => Some Decimal.D4 | "5" => Some Decimal.D5
  | "6" => Some Decimal.D6 | "7" => Some Decimal.D7 | "8" => Some Decimal.D8
  | "9" => Some Decimal.D9
  | _ => None
  end%char.

(** The longest prefix of decimal digits, and what follows it. *)
Fixpoint scan_digits (s : string) : Decimal.uint * string :=
  match s with
  | String c r =>
      match digit_cons c with
      | Some d => let (u, rest) := scan_digits r in (d u, rest)
      | None => (Decimal.Nil, s)
      end
  | EmptyString => (Decimal.Nil, EmptyString)
  end.

Definition has_digits (u : Decimal.uint) : bool :=
  match u with Decimal.Nil => false | _ => true end.

(** An optional sign: [true] for a leading minus. *)
Definition scan_sign (s : string) : bool * string :=
  match s with
  | String "-" r => (true, r)
  | String "+" r => (false, r)
  | _ => (false, s)
  end.

(** [ExponentPart], when present; [None] for a malformed one. *)
Definition scan_exponent (s : string) : option (Z * string) :=
  match s with
  | String c r =>
      if Ascii.eqb c "e" || Ascii.eqb c "E" then
        let (negative, r1) := scan_sign r in
        let (u, rest) := scan_digits r1 in
        if has_digits u then
          let e := Z.of_N (N.of_uint u) in
          Some (if negative then - e else e, rest)
        else None
      else Some (0, s)
  | EmptyString => Some (0, s)
  end.

(** [StrUnsignedDecimalLiteral] other than [Infinity]: the mathematical
    value of [int.frac e exp]. *)
Definition decimal_value (int frac : Decimal.uint) (e : Z) : Q :=
  Qred ((inject_Z (Z.of_N (N.of_uint int))
         + inject_Z (Z.of_N (N.of_uint frac)) / inject_Z (10 ^ Z.of_nat (Decimal.nb_digits frac)))
        * Qpower (inject_Z 10) e).

Definition parse_unsigned_decimal (s : string) : option Q :=
  let (int, r1) := scan_digits s in
  let '(frac, r2, ok) :=
    match r1 with
    | String "." r =>
        let (frac, r2) := scan_digits r in
        (frac, r2, has_digits int || has_digits frac)
    | _ => (Decimal.Nil, r1, has_digits int)
    end in
  if ok then
    match scan_exponent r2 with
    | Some (e, EmptyString) => Some (decimal_value int frac e)
    | _ => None
    end
  else None.

Definition parse_decimal (s : string) : number :=
  let (negative, r) := scan_sign s in
  if String.eqb r "Infinity" then (if negative then NInf else PInf)
  else match parse_unsigned_decimal r with
       | Some q => JS.of_real (if negative then Qred (- q) else q)
       | None => NaN
       end.

(** Digits of the non-decimal integer literals [0x..], [0o..], [0b..]. *)
Definition digit_value (c : ascii) : option N :=
  let n := N_of_ascii c in
  if ((48 <=? n) && (n <=? 57))%N then Some (n - 48)%N
  else if ((97 <=? n) && (n <=? 102))%N then Some (n - 87)%N
  else if ((65 <=? n) && (n <=? 70))%N then Some (n - 55)%N
  else None.

Fixpoint radix_value (base acc : N) (s : string) : option N :=
  match s with
  | EmptyString => Some acc
  | String c r =>
      match digit_value c with
      | Some d => if (d <? base)%N then radix_value base (acc * base + d)%N r else None
      | None => None
      end
  end.

Definition parse_radix (base : N) (digits : string) : number :=
  match digits with
  | EmptyString => NaN
  | _ => match radix_value base 0 digits with
         | Some n => JS.of_real (inject_Z (Z.of_N n))
         | None => NaN
         end
  end.

(** [StringToNumber]: white space is trimmed, the empty string is 0,
    anything that is not a numeric literal is [NaN], and a literal too
    large for a double is an infinity. *)
Definition toNumber (s : string) : number :=
  match trim s with
  | EmptyString => JS.of_Z 0
  | String "0" (String c r) as t =>
      if Ascii.eqb c "x" || Ascii.eqb c "X" then parse_radix 16 r
      else if Ascii.eqb c "o" || Ascii.eqb c "O" then parse_radix 8 r
      else if Ascii.eqb c "b" || Ascii.eqb c "B" then parse_radix 2 r
      else parse_decimal t
  | t => parse_decimal t
  end.

(** The unary [+] on an array element that may be absent: [+undefined] is
    [NaN]. *)
Definition unary_plus (part : option string) : number :=
  match part with
  | Some s => toNumber s
  | None => NaN
  end.

End JSString.

(** Character classes used to describe formatted numbers. *)
Definition is_digit (c : ascii) : bool :=
  match JSString.digit_cons c with Some _ => true | None => false end.
Definition is_decimal_char (c : ascii) : bool :=
  is_digit c || Ascii.eqb c "." || Ascii.eqb c "-".
Definition starts_with_digit (s : string) : bool :=
  match s with String c _ => is_digit c | EmptyString => false end.

(** The value that [toFixed(2)] prints for a finite number: the nearest
    multiple of 1/100, a tie going away from zero. *)
Definition round2 (q : Q) : Q :=
  let n := Z.to_N (Qfloor (Qabs q * 100 + (1 # 2))) in
  let m := Qred (inject_Z (Z.of_N n) / 100) in
  if Qle_bool 0 q then m else Qred (- m).

(** ** Views and clamped bounds *)

(** The view: [{width:, height:}] in whole pixels. *)
Module View.
Record t : Type := mk { width : Z; height : Z }.
End View.

Module Bounds.
Record t : Type := mk {
  x : number; y : number; xMax : number; yMax : number;
  width : number; height : number }.
End Bounds.

(** A projected bounding box [[[x0, y0], [x1, y1]]]. *)
Definition Box : Type := (number * number) * (number * number).

(** [ensureNumber]: only what is neither finite nor an infinity (that is,
    [NaN]) is replaced by the fallback. *)
Definition ensureNumber (num fallback : number) : number :=
  if JS.isFinite num || JS.strict_eq num PInf || JS.strict_eq num NInf
  then num else fallback.

Definition clampedBounds (bounds : Box) (view : View.t) : Bounds.t :=
  let upperLeft := fst bounds in
  let lowerRight := snd bounds in
  let x := JS.max (JS.floor (ensureNumber (fst upperLeft) (JS.of_Z 0))) (JS.of_Z 0) in
  let y := JS.max (JS.floor (ensureNumber (snd upperLeft) (JS.of_Z 0))) (JS.of_Z 0) in
  let xMax :=
    JS.min (JS.ceil (ensureNumber (fst lowerRight) (JS.of_Z (View.width view))))
           (JS.of_Z (View.width view - 1)) in
  let yMax :=
    JS.min (JS.ceil (ensureNumber (snd lowerRight) (JS.of_Z (View.height view))))
           (JS.of_Z (View.height view - 1)) in
  Bounds.mk x y xMax yMax
    (JS.add (JS.sub xMax x) (JS.of_Z 1))
    (JS.add (JS.sub yMax y) (JS.of_Z 1)).


(** The Bounds invariant as the specification words it: both extents are
    [xMax - x + 1], non-negative and no larger than the view. *)
Definition bounds_invariant (view : View.t) (r : Bounds.t) : Prop :=
  Bounds.width r = JS.add (JS.sub (Bounds.xMax r) (Bounds.x r)) (JS.of_Z 1) /\
  Bounds.height r = JS.add (JS.sub (Bounds.yMax r) (Bounds.y r)) (JS.of_Z 1) /\
  JS.le (JS.of_Z 0) (Bounds.width r) = true /\
  JS.le (JS.of_Z 0) (Bounds.height r) = true /\
  JS.le (Bounds.width r) (JS.of_Z (View.width view)) = true /\
  JS.le (Bounds.height r) (JS.of_Z (View.height view)) = true.

(** One axis of a box meets the view: after [ensureNumber], the interval
    [lo, hi] is not empty and meets [0, extent]. *)
Definition axis_meets (lo hi : number) (extent : Z) : Prop :=
  let lo' := ensureNumber lo (JS.of_Z 0) in
  let hi' := ensureNumber hi (JS.of_Z extent) in
  JS.le lo' hi' = true /\ JS.le lo' (JS.of_Z extent) = true /\
  JS.le (JS.of_Z 0) hi' = true /\ 0 <= extent.

Definition box_meets_view (box : Box) (view : View.t) : Prop :=
  axis_meets (fst (fst box)) (fst (snd box)) (View.width view) /\
  axis_meets (snd (fst box)) (snd (snd box)) (View.height view).

(** A view of 100 by 100 pixels. *)
Definition small_view : View.t := View.mk 100 100.

(** ** d3 projections *)

(** A d3 projection is an external, mutable object.  The model keeps the
    parameters the globe code reads and writes, each as the degrees or
    pixels last given to its setter; the rotation angles are kept modulo
    360, as d3 keeps them. *)
Module D3.

Inductive Raw : Type :=
| geoMollweide | geoAzimuthalEquidistant | geoConicEquidistant
| geoEquirectangular | geoOrthographic | geoStereographic
| geoPolyhedralWaterman | geoWinkel3.

Record Projection : Type := mk {
  raw : Raw;
  angles : number * number * number;
  scale : number;
  translate : number * number;
  precision : number;
  clipAngle : option number;
  clipExtent : option Box }.

(** [rotate(_)] keeps each angle as [_[i] % 360]. *)
Definition wrap (a : number) : number := JS.rem a (JS.of_Z 360).
Definition wrap3 (r : number * number * number) : number * number * number :=
  (wrap (fst (fst r)), wrap (snd (fst r)), wrap (snd r)).

(** [rotate()]: the angles kept.  An angle a projection holds is always
    such a remainder; the record does not enforce that, so the reading
    reduces once more, which changes nothing [rotate(_)] has stored. *)
Definition rotate (p : Projection) : number * number * number := wrap3 (angles p).

Definition with_rotate (r : number * number * number) (p : Projection) : Projection :=
  mk (raw p) (wrap3 r) (scale p) (translate p) (precision p) (clipAngle p)
     (clipExtent p).
(** [rotate([λ, φ])] with two angles resets the roll to 0. *)
Definition with_rotate2 (r : number * number) (p : Projection) : Projection :=
  with_rotate (fst r, snd r, JS.of_Z 0) p.
Definition with_scale (k : number) (p : Projection) : Projection :=
  mk (raw p) (angles p) k (translate p) (precision p) (clipAngle p) (clipExtent p).
Definition with_translate (t : number * number) (p : Projection) : Projection :=
  mk (raw p) (angles p) (scale p) t (precision p) (clipAngle p) (clipExtent p).
Definition with_precision (d : number) (p : Projection) : Projection :=
  mk (raw p) (angles p) (scale p) (translate p) d (clipAngle p) (clipExtent p).
Definition with_clipAngle (a : number) (p : Projection) : Projection :=
  mk (raw p) (angles p) (scale p) (translate p) (precision p) (Some a) (clipExtent p).
Definition with_clipExtent (e : Box) (p : Projection) : Projection :=
  mk (raw p) (angles p) (scale p) (translate p) (precision p) (clipAngle p) (Some e).

End D3.

(** ** Globes *)

(** The keys of the [globes] registry. *)
Inductive ProjectionName : Type :=
| atlantis | azimuthal_equidistant | conic_equidistant | equirectangular
| orthographic | stereographic | waterman | winkel3.

(** A globe: the methods of [standardGlobe] as overridden by the named
    variant, and the current projection. *)
Record Globe : Type := mkGlobe {
  variant : ProjectionName;
  projection : D3.Projection }.

(** Modelled from the spec: [utils.clamp] is not among the sources; the
    specification says the setter "clamps scale to scaleExtent()". *)
Definition clamp (x low high : number) : number := JS.max low (JS.min x high).

(** The result of [orientation]: the orientation string, or [this] after
    the mutation. *)
Inductive OrientationResult : Type :=
| Serialized (s : string)
| Mutated (g : Globe).

(** The session object returned by [manipulator]. *)
Record Manipulator : Type := mkManipulator {
  startMouse : number * number;
  sensitivity : number;
  rotation : number * number;
  original : number }.

Section Globes.

(** What d3 and the environment supply: a fresh projection of each kind,
    the bounds of the sphere outline under a projection, the local
    timezone offset in minutes, and [utils.floorMod]. *)
Variable geo : D3.Raw -> D3.Projection.
Variable pathBounds : D3.Projection -> Box.
Variable timezoneOffset : number.
Variable floorMod : number -> number -> number.
Variable shortest_decimal : Q -> string.

Definition currentPosition : number * number :=
  (floorMod (JS.div timezoneOffset (JS.of_Z 4)) (JS.of_Z 360), JS.of_Z 0).

Definition newProjection (name : ProjectionName) (view : View.t) : D3.Projection :=
  match name with
  | atlantis =>
      D3.with_precision (Fin (1 # 10))
        (D3.with_rotate (JS.of_Z 30, JS.of_Z (-45), JS.of_Z 90) (geo D3.geoMollweide))
  | azimuthal_equidistant =>
      D3.with_clipAngle (JS.sub (JS.of_Z 180) (Fin (1 # 1000)))
        (D3.with_rotate2 (JS.of_Z 0, JS.of_Z (-90))
           (D3.with_precision (Fin (1 # 10)) (geo D3.geoAzimuthalEquidistant)))
  | conic_equidistant =>
      D3.with_precision (Fin (1 # 10))
        (D3.with_rotate2 currentPosition (geo D3.geoConicEquidistant))
  | equirectangular =>
      D3.with_precision (Fin (1 # 10))
        (D3.with_rotate2 currentPosition (geo D3.geoEquirectangular))
  | orthographic =>
      D3.with_clipAngle (JS.of_Z 90)
        (D3.with_precision (Fin (1 # 10))
           (D3.with_rotate2 currentPosition (geo D3.geoOrthographic)))
  | stereographic =>
      D3.with_clipExtent
        ((JS.of_Z 0, JS.of_Z 0), (JS.of_Z (View.width view), JS.of_Z (View.height view)))
        (D3.with_clipAngle (JS.sub (JS.of_Z 180) (Fin (1 # 10000)))
           (D3.with_precision (JS.of_Z 1)
              (D3.with_rotate2 (JS.of_Z (-43), JS.of_Z (-20)) (geo D3.geoStereographic))))
  | waterman =>
      D3.with_precision (Fin (1 # 10))
        (D3.with_rotate2 (JS.of_Z 20, JS.of_Z 0) (geo D3.geoPolyhedralWaterman))
  | winkel3 =>
      D3.with_precision (Fin (1 # 10)) (geo D3.geoWinkel3)
  end.

Definition newGlobe (name : ProjectionName) (view : View.t) : Globe :=
  mkGlobe name (newProjection name view).

Definition bounds (g : Globe) (view : View.t) : Bounds.t :=
  clampedBounds (pathBounds (projection g)) view.

Definition fit (g : Globe) (view : View.t) : number :=
  let defaultProjection := newProjection (variant g) view in
  let bounds := pathBounds defaultProjection in
  let hScale := JS.div (JS.sub (fst (snd bounds)) (fst (fst bounds)))
                       (D3.scale defaultProjection) in
  let vScale := JS.div (JS.sub (snd (snd bounds)) (snd (fst bounds)))
                       (D3.scale defaultProjection) in
  JS.mul (JS.min (JS.div (JS.of_Z (View.width view)) hScale)
                 (JS.div (JS.of_Z (View.height view)) vScale))
         (Fin (9 # 10)).

Definition center (g : Globe) (view : View.t) : number * number :=
  match variant g with
  | conic_equidistant =>
      (JS.div (JS.of_Z (View.width view)) (JS.of_Z 2),
       JS.add (JS.div (JS.of_Z (View.height view)) (JS.of_Z 2))
              (JS.mul (JS.of_Z (View.height view)) (Fin (65 # 1000))))
  | _ =>
      (JS.div (JS.of_Z (View.width view)) (JS.of_Z 2),
       JS.div (JS.of_Z (View.height view)) (JS.of_Z 2))
  end.

Definition scaleExtent (g : Globe) : number * number := (JS.of_Z 25, JS.of_Z 3000).

(** [orientation(o, view)]: with [o] given ([utils.isValue(o)]), the
    setter; without, the getter. *)
Definition orientation (o : option string) (view : View.t) (g : Globe)
  : OrientationResult :=
  let projection := projection g in
  let rotate := D3.rotate projection in
  match o with
  | Some o =>
      let parts := JSString.split "," o in
      let lambda := JSString.unary_plus (parts !! 0%nat) in
      let phi := JSString.unary_plus (parts !! 1%nat) in
      let scale := JSString.unary_plus (parts !! 2%nat) in
      let extent := scaleExtent g in
      let projection :=
        D3.with_rotate
          (if JS.isFinite lambda && JS.isFinite phi
           then (JS.neg lambda, JS.neg phi, snd rotate)
           else D3.rotate (newProjection (variant g) view))
          projection in
      let projection :=
        D3.with_scale
          (if JS.isFinite scale
           then clamp scale (fst extent) (snd extent)
           else fit g view)
          projection in
      let projection := D3.with_translate (center g view) projection in
      Mutated (mkGlobe (variant g) projection)
  | None =>
      Serialized
        (JSString.join ","
           [JSString.toFixed2 shortest_decimal (JS.neg (fst (fst rotate)));
            JSString.toFixed2 shortest_decimal (JS.neg (snd (fst rotate)));
            JSString.toString shortest_decimal (JS.round (D3.scale projection))])
  end.

(** [manipulator(startMouse, startScale)]: the session object, and the
    globe with its precision raised tenfold. *)
Definition manipulator (startMouse : number * number) (startScale : number)
    (g : Globe) : Manipulator * Globe :=
  let projection := projection g in
  let sensitivity := JS.div (JS.of_Z 60) startScale in
  let rotation :=
    (JS.div (fst (fst (D3.rotate projection))) sensitivity,
     JS.div (JS.neg (snd (fst (D3.rotate projection)))) sensitivity) in
  let original := D3.precision projection in
  (mkManipulator startMouse sensitivity rotation original,
   mkGlobe (variant g)
     (D3.with_precision (JS.mul original (JS.of_Z 10)) projection)).

Definition move (m : Manipulator) (mouse : option (number * number))
    (scale : number) (g : Globe) : Globe :=
  let projection := projection g in
  let projection :=
    match mouse with
    | Some mouse =>
        let xd := JS.add (JS.sub (fst mouse) (fst (startMouse m))) (fst (rotation m)) in
        let yd := JS.add (JS.sub (snd mouse) (snd (startMouse m))) (snd (rotation m)) in
        D3.with_rotate
          (JS.mul xd (sensitivity m), JS.mul (JS.neg yd) (sensitivity m),
           snd (D3.rotate projection))
          projection
    | None => projection
    end in
  mkGlobe (variant g) (D3.with_scale scale projection).

Definition manipulator_end (m : Manipulator) (g : Globe) : Globe :=
  mkGlobe (variant g) (D3.with_precision (original m) (projection g)).

Definition locate (g : Globe) (coord : number * number)
  : option (number * number * number) :=
  match variant g with
  | orthographic =>
      Some (JS.neg (fst coord), JS.neg (snd coord), snd (D3.rotate (projection g)))
  | _ => None
  end.

(** What the specification calls a missing part of an orientation string:
    the part is absent, or it is empty or blank. *)
Definition part_missing (parts : list string) (i : nat) : Prop :=
  match parts !! i with
  | None => True
  | Some s => JSString.trim s = EmptyString
  end.

(** What it calls a non-numeric part: the part is there and is not a
    numeric literal (its [StringToNumber] is [NaN]). *)
Definition part_non_numeric (parts : list string) (i : nat) : Prop :=
  match parts !! i with
  | None => False
  | Some s => JSString.toNumber s = NaN
  end.

Definition part_unusable (parts : list string) (i : nat) : Prop :=
  part_missing parts i \/ part_non_numeric parts i.

(** The setter's permissiveness as the specification states it: a missing
    or non-numeric scale gives the fit-to-view scale, a missing or
    non-numeric angle gives the variant's default rotation, a finite scale
    is clamped into [scaleExtent()], and the translate is recentred. *)
Definition setter_permissive (o : string) (view : View.t) (g : Globe) : Prop :=
  let parts := JSString.split "," o in
  match orientation (Some o) view g with
  | Serialized _ => False
  | Mutated g' =>
      (part_unusable parts 2 -> D3.scale (projection g') = fit g view) /\
      (part_unusable parts 0 \/ part_unusable parts 1 ->
       D3.rotate (projection g') = D3.rotate (newProjection (variant g) view)) /\
      (forall q, JSString.unary_plus (parts !! 2%nat) = Fin q ->
         D3.scale (projection g')
         = clamp (Fin q) (fst (scaleExtent g)) (snd (scaleExtent g))) /\
      D3.translate (projection g') = center g view
  end.

(** Two angles agree to 0.01 degrees. *)
Definition angle_agrees (a a' : number) : Prop :=
  JS.le (JS.abs (JS.sub a' a)) (Fin (1 # 100)) = true.

(** The round trip [orientation(orientation(), view)] as the specification
    states it: the angles agree to 0.01 degrees and the scale is the prior
    one to the nearest integer. *)
Definition roundtrip_agrees (view : View.t) (g : Globe) : Prop :=
  match orientation None view g with
  | Serialized o =>
      match orientation (Some o) view g with
      | Mutated g' =>
          angle_agrees (fst (fst (D3.rotate (projection g))))
                       (fst (fst (D3.rotate (projection g')))) /\
          angle_agrees (snd (fst (D3.rotate (projection g))))
                       (snd (fst (D3.rotate (projection g')))) /\
          D3.scale (projection g') = JS.round (D3.scale (projection g))
      | Serialized _ => False
      end
  | Mutated _ => False
  end.

End Globes.

(** *** A concrete environment for examples *)

(** d3's fresh orthographic projection: no rotation, scale 249.5,
    translate [480, 250]; the same parameters stand in for the other
    kinds. *)
Definition sample_geo (r : D3.Raw) : D3.Projection :=
  D3.mk r (JS.of_Z 0, JS.of_Z 0, JS.of_Z 0) (Fin (499 # 2))
    (JS.of_Z 480, JS.of_Z 250) (Fin (7071 # 10000)) None None.

(** The outline of an orthographic sphere: the disc of radius [scale]
    about [translate]. *)
Definition disc_bounds (p : D3.Projection) : Box :=
  ((JS.sub (fst (D3.translate p)) (D3.scale p), JS.sub (snd (D3.translate p)) (D3.scale p)),
   (JS.add (fst (D3.translate p)) (D3.scale p), JS.add (snd (D3.translate p)) (D3.scale p))).

Definition sample_floorMod (a n : number) : number :=
  JS.sub a (JS.mul n (JS.floor (JS.div a n))).

Definition sample_timezoneOffset : number := JS.of_Z (-120).

Definition sample_shortest_decimal (q : Q) : string := "1e+21".

Definition sample_view : View.t := View.mk 1000 800.

Definition sample_globe : Globe :=
  newGlobe sample_geo sample_timezoneOffset sample_floorMod orthographic sample_view.

(** The sample globe after a zoom gesture has set its scale to 10. *)
Definition zoomed_out_globe : Globe :=
  let '(m, g) := manipulator (JS.of_Z 0, JS.of_Z 0) (JS.of_Z 1) sample_globe in
  manipulator_end m (move m None (JS.of_Z 10) g).

(** ** The registry and [buildGlobe] *)

Inductive JSError : Type :=
| TypeError (message : string).

(** How a call completes: normally with a value, or by throwing. *)
Inductive Completion (A : Type) : Type :=
| Normal (a : A)
| Throw (e : JSError).
Arguments Normal {A} a.
Arguments Throw {A} e.

(** A settled promise. *)
Inductive Promise : Type :=
| Fulfilled (g : Globe)
| Rejected (reason : string).

(** The values [buildGlobe] hands to the [Promise] constructor: a plain
    object, or a callable executor (given by the promise it settles). *)
Inductive Value : Type :=
| Object (g : Globe)
| Function (settles : Promise).

(** [new Promise(executor)]: a [TypeError] unless [executor] is callable. *)
Definition Promise_new (executor : Value) : Completion Promise :=
  match executor with
  | Function settles => Normal settles
  | Object _ => Throw (TypeError "Promise resolver is not a function")
  end.

Definition registry_key (name : ProjectionName) : string :=
  match name with
  | atlantis => "atlantis"
  | azimuthal_equidistant => "azimuthal_equidistant"
  | conic_equidistant => "conic_equidistant"
  | equirectangular => "equirectangular"
  | orthographic => "orthographic"
  | stereographic => "stereographic"
  | waterman => "waterman"
  | winkel3 => "winkel3"
  end.

Section Registry.

Variable geo : D3.Raw -> D3.Projection.
Variable timezoneOffset : number.
Variable floorMod : number -> number -> number.
(** The module-level [view]. *)
Variable view : View.t.

(** A builder, as [atlantis], [orthographic], ... : it makes a new globe. *)
Definition builder (name : ProjectionName) (view : View.t) : Globe :=
  newGlobe geo timezoneOffset floorMod name view.

Definition globes : gmap string (View.t -> Globe) :=
  list_to_map
    [(registry_key atlantis, builder atlantis);
     (registry_key azimuthal_equidistant, builder azimuthal_equidistant);
     (registry_key conic_equidistant, builder conic_equidistant);
     (registry_key equirectangular, builder equirectangular);
     (registry_key orthographic, builder orthographic);
     (registry_key stereographic, builder stereographic);
     (registry_key waterman, builder waterman);
     (registry_key winkel3, builder winkel3)].

(** [buildGlobe(projectionName)]: how the call completes, and the globes
    created on the way. *)
Definition buildGlobe (projectionName : string)
  : Completion Promise * list Globe :=
  match globes !! projectionName with
  | None => (Normal (Rejected ("Unknown projection: " +:+ projectionName)), [])
  | Some builder =>
      let g := builder view in
      (Promise_new (Object g), [g])
  end.

End Registry.

(** ** Wind vectors: arrays in a store *)

(** An element of a wind vector, or a scalar sample. *)
Inductive value : Type :=
| VNum (n : number)
| VNull
| VUndefined.

(** [ToNumber] on such a value, as the [*] operator applies it. *)
Definition ToNumber (v : value) : number :=
  match v with
  | VNum n => n
  | VNull => JS.of_Z 0
  | VUndefined => NaN
  end.

(** Modelled from the spec: [utils.isValue] is not among the sources; the
    specification maps a scalar to a colour "if a scalar is available",
    that is, when it is neither [null] nor [undefined]. *)
Definition isValue (v : value) : bool :=
  match v with VNum _ => true | _ => false end.

(** [a[i]] and [a[i] = v] on an array; a write past the end extends the
    array (the elements in between read as [undefined]). *)
Definition array_get (a : list value) (i : nat) : value :=
  default VUndefined (a !! i).
Definition array_set (a : list value) (i : nat) (v : value) : list value :=
  if (i <? length a)%nat then <[i := v]> a
  else a ++ replicate (i - length a) VUndefined ++ [v].

(** The store: arrays by location.  A location that holds nothing reads
    as an empty array. *)
Abbreviation loc := positive.
Abbreviation Heap := (gmap loc (list value)).

Definition deref (h : Heap) (l : loc) : list value := default [] (h !! l).

Definition alloc (arr : list value) (h : Heap) : loc * Heap :=
  let l := fresh (dom h) in (l, <[l := arr]> h).

(** The two singletons, [[NaN, NaN, null]] each, at distinct locations. *)
Definition NULL_WIND_VECTOR : loc := 1%positive.
Definition HOLE_VECTOR : loc := 2%positive.
Definition sentinel_vector : list value := [VNum NaN; VNum NaN; VNull].
Definition initial_heap : Heap :=
  <[HOLE_VECTOR := sentinel_vector]> (<[NULL_WIND_VECTOR := sentinel_vector]> ∅).

Definition TRANSPARENT_BLACK : Z * Z * Z * Z := (0, 0, 0, 0).
Definition OVERLAY_ALPHA : Z := 102.

(** The distortion array [[d0, d1, d2, d3]]. *)
Definition Distortion : Type := number * number * number * number.

(** The linear map a distortion array stands for: a unit step in longitude
    moves the screen point by [(d0, d1)], a unit step in latitude by
    [(d2, d3)]. *)
Definition through_map (d : Distortion) (g : number * number) : number * number :=
  let '(d0, d1, d2, d3) := d in
  (JS.add (JS.mul d0 (fst g)) (JS.mul d2 (snd g)),
   JS.add (JS.mul d1 (fst g)) (JS.mul d3 (snd g))).

Section Distort.

(** [utils.distortion] is not among the sources: the finite-difference
    distortion of a projection at a point. *)
Variable distortion : D3.Projection -> number -> number -> number -> number -> Distortion.

Definition distort (projection : D3.Projection) (lambda phi x y scale : number)
    (wind : loc) (h : Heap) : loc * Heap :=
  let arr := deref h wind in
  let u := JS.mul (ToNumber (array_get arr 0)) scale in
  let v := JS.mul (ToNumber (array_get arr 1)) scale in
  let '(d0, d1, d2, d3) := distortion projection lambda phi x y in
  let arr := array_set arr 0 (VNum (JS.add (JS.mul d0 u) (JS.mul d2 v))) in
  let arr := array_set arr 1 (VNum (JS.add (JS.mul d1 u) (JS.mul d3 v))) in
  (wind, <[wind := arr]> h).

End Distort.

(** ** The mask *)

Module Mask.

(** [imageData.data]: four bytes per pixel, row by row. *)
Record t : Type := mk { width : Z; data : list Z }.

Definition data_get (d : list Z) (i : Z) : option Z :=
  if i <? 0 then None else d !! Z.to_nat i.

(** A write to a clamped byte array: ignored out of range. *)
Definition data_set (d : list Z) (i : Z) (v : Z) : list Z :=
  if i <? 0 then d else <[Z.to_nat i := Z.max 0 (Z.min 255 v)]> d.

Definition isVisible (m : t) (x y : Z) : bool :=
  let i := (y * width m + x) * 4 in
  match data_get (data m) (i + 3) with
  | Some alpha => 0 <? alpha
  | None => false
  end.

Definition set (x y : Z) (rgba : Z * Z * Z * Z) (m : t) : t :=
  let i := (y * width m + x) * 4 in
  let '(r, g, b, a) := rgba in
  mk (width m)
     (data_set (data_set (data_set (data_set (data m) i r) (i + 1) g) (i + 2) b)
               (i + 3) a).

End Mask.

(** ** The field *)

(** The clamped bounds of a finite box: whole numbers. *)
Module IBounds.
Record t : Type := mk { x : Z; y : Z; xMax : Z; yMax : Z }.
Definition height (b : t) : number := JS.of_Z (yMax b - y b + 1).
End IBounds.

Module Field.

Record t : Type := mk {
  columns : gmap Z (gmap Z loc);
  bounds : IBounds.t;
  overlay : list Z }.

(** An array index from a number: whole numbers only. *)
Definition array_index (i : number) : option Z :=
  match i with
  | Fin q => if JSString.is_integer q then Some (Qfloor q) else None
  | _ => None
  end.

(** [field(x, y)]. *)
Definition lookup (f : t) (x y : number) : loc :=
  let column := array_index (JS.round x) ≫= (fun i => columns f !! i) in
  match column with
  | Some column =>
      match array_index (JS.round y) ≫= (fun j => column !! j) with
      | Some v => v
      | None => NULL_WIND_VECTOR
      end
  | None => NULL_WIND_VECTOR
  end.

Definition isDefined (f : t) (h : Heap) (x y : number) : bool :=
  match array_get (deref h (lookup f x y)) 2 with
  | VNull => false
  | _ => true
  end.

Definition isInsideBoundary (f : t) (x y : number) : bool :=
  negb (Pos.eqb (lookup f x y) NULL_WIND_VECTOR).

Definition release (f : t) : t := mk ∅ (bounds f) (overlay f).

Section Randomize.

(** underscore's [random(min, max)]: the value its [n]-th call returns. *)
Variable random : nat -> number -> number -> number.

(** The [do ... while] loop, from the call number [call] on: the point it
    stops at and the number of attempts made. *)
Fixpoint randomize_loop (f : t) (h : Heap) (fuel : nat) (safetyNet : Z) (call : nat)
  : option (number * number * Z) :=
  match fuel with
  | O => None
  | S fuel =>
      let x := JS.round (random call (JS.of_Z (IBounds.x (bounds f)))
                                     (JS.of_Z (IBounds.xMax (bounds f)))) in
      let y := JS.round (random (S call) (JS.of_Z (IBounds.y (bounds f)))
                                         (JS.of_Z (IBounds.yMax (bounds f)))) in
      if negb (isDefined f h x y) && (safetyNet <? 30)
      then randomize_loop f h fuel (safetyNet + 1) (call + 2)
      else Some (x, y, safetyNet + 1)
  end.

(** [field.randomize(o)]: the coordinates written into [o]. *)
Definition randomize (f : t) (h : Heap) : option (number * number) :=
  fst <$> randomize_loop f h 32 0 0.

(** The point of the [i]-th attempt. *)
Definition attempt (f : t) (i : nat) : number * number :=
  (JS.round (random (2 * i) (JS.of_Z (IBounds.x (bounds f)))
                            (JS.of_Z (IBounds.xMax (bounds f)))),
   JS.round (random (S (2 * i)) (JS.of_Z (IBounds.y (bounds f)))
                                (JS.of_Z (IBounds.yMax (bounds f))))).

(** "[randomizeSeed] always returns a point for which [isInsideBoundary] is
    true." *)
Definition randomize_inside_boundary (f : t) (h : Heap) : Prop :=
  exists p, randomize f h = Some p /\ isInsideBoundary f (fst p) (snd p) = true.

End Randomize.

End Field.

(** A field with nothing in it, and a [random] that always returns its
    lower bound. *)
Definition empty_field : Field.t := Field.mk ∅ (IBounds.mk 0 0 9 9) [].
Definition lowest_random (call : nat) (min max : number) : number := min.

(** *** What the sweep leaves in a cell *)

(** A later store agrees with an earlier one on everything the earlier
    one holds. *)
Definition heap_extends (h h' : Heap) : Prop :=
  forall l, l ∈ dom h -> h' !! l = h !! l.

(** The content of a cell of a swept block, given whether the block's
    sample pixel is visible and the vector found for it: nothing for an
    invisible sample, the hole sentinel when no vector was found, and
    otherwise a vector of its own holding the distorted sample. *)
Definition cell_ok (h : Heap) (visible : bool) (vector : option (list value))
    (cell : option loc) : Prop :=
  if visible then
    match vector with
    | Some arr =>
        exists w, cell = Some w /\ w <> NULL_WIND_VECTOR /\ w <> HOLE_VECTOR /\
                  h !! w = Some arr
    | None => cell = Some HOLE_VECTOR
    end
  else cell = None.

Definition sentinels_intact (h : Heap) : Prop :=
  h !! NULL_WIND_VECTOR = Some sentinel_vector /\
  h !! HOLE_VECTOR = Some sentinel_vector.

(** ** Interpolating the field *)

(** [for (i = from; i <= last; i += 2) body(i)]: the number of iterations,
    and the loop. *)
Definition stride2_steps (from last : Z) : nat := Z.to_nat ((last - from) / 2 + 1).

Fixpoint stride2_loop {S : Type} (n : nat) (body : Z -> S -> S) (i : Z) (s : S) : S :=
  match n with
  | O => s
  | Datatypes.S n => stride2_loop n body (i + 2) (body i s)
  end.

(** The same loop with its test, on fuel. *)
Fixpoint while_le {S : Type} (fuel : nat) (body : Z -> S -> S) (i last : Z) (s : S)
  : option S :=
  match fuel with
  | O => None
  | Datatypes.S fuel =>
      if i <=? last then while_le fuel body (i + 2) last (body i s) else Some s
  end.

(** The grids: the primary grid is a vector grid, whose [interpolate] gives
    a fresh [[u, v, magnitude]] array or nothing; the overlay grid, asked
    only when it is another grid, gives a scalar; [gradient] is the overlay
    grid's [scale.gradient]. *)
Record Grids : Type := mkGrids {
  interpolate : number -> number -> option (list value);
  velocityScale : number;
  overlayInterpolate : number -> number -> value;
  gradient : value -> Z -> Z * Z * Z * Z;
  hasDistinctOverlay : bool }.

(** What one column sweep works on: the column under construction, the
    mask and the store. *)
Record ColumnState : Type := mkColumnState {
  column : gmap Z loc;
  column_mask : Mask.t;
  column_heap : Heap }.

Record SweepState : Type := mkSweepState {
  sweep_columns : gmap Z (gmap Z loc);
  sweep_mask : Mask.t;
  sweep_heap : Heap }.

(** What a call of [batchInterpolate] ends with: a yield, with the cursor
    and the state to resume from, or the promise resolved with the field. *)
Inductive BatchResult : Type :=
| Yielded (x : Z) (s : SweepState)
| Resolved (f : Field.t) (h : Heap).

Section InterpolateField.

Variable distortion : D3.Projection -> number -> number -> number -> number -> Distortion.
Variable invert : D3.Projection -> number * number -> option (number * number).

Variable projection : D3.Projection.
Variable grids : Grids.
Variable bounds : IBounds.t.

Definition sweep_velocityScale : number :=
  JS.mul (IBounds.height bounds) (velocityScale grids).

(** The body of the loop over [y] in [interpolateColumn]. *)
Definition interpolatePixel (x y : Z) (s : ColumnState) : ColumnState :=
  if Mask.isVisible (column_mask s) x y then
    let point := (JS.of_Z x, JS.of_Z y) in
    let coord := invert projection point in
    let '(wind, color, heap) :=
      match coord with
      | Some (lambda, phi) =>
          if JS.isFinite lambda then
            let '(wind, scalar, heap) :=
              match interpolate grids lambda phi with
              | Some arr =>
                  let (w, h1) := alloc arr (column_heap s) in
                  let (w, h2) :=
                    distort distortion projection lambda phi (JS.of_Z x) (JS.of_Z y)
                            sweep_velocityScale w h1 in
                  (Some w, array_get (deref h2 w) 2, h2)
              | None => (None, VNull, column_heap s)
              end in
            let scalar :=
              if hasDistinctOverlay grids then overlayInterpolate grids lambda phi
              else scalar in
            let color :=
              if isValue scalar then gradient grids scalar OVERLAY_ALPHA
              else TRANSPARENT_BLACK in
            (wind, color, heap)
          else (None, TRANSPARENT_BLACK, column_heap s)
      | None => (None, TRANSPARENT_BLACK, column_heap s)
      end in
    let v := default HOLE_VECTOR wind in
    mkColumnState
      (<[y + 1 := v]> (<[y := v]> (column s)))
      (Mask.set (x + 1) (y + 1) color
         (Mask.set x (y + 1) color
            (Mask.set (x + 1) y color
               (Mask.set x y color (column_mask s)))))
      heap
  else s.

Definition interpolateColumn (x : Z) (s : SweepState) : SweepState :=
  let c :=
    stride2_loop (stride2_steps (IBounds.y bounds) (IBounds.yMax bounds))
      (interpolatePixel x) (IBounds.y bounds)
      (mkColumnState ∅ (sweep_mask s) (sweep_heap s)) in
  mkSweepState
    (<[x + 1 := column c]> (<[x := column c]> (sweep_columns s)))
    (column_mask c) (column_heap c).

(** [createField(columns, bounds, mask)]. *)
Definition createField (columns : gmap Z (gmap Z loc)) (bounds : IBounds.t)
    (mask : Mask.t) : Field.t :=
  Field.mk columns bounds (Mask.data mask).

(** [interpolateField] with the projection left alone while it runs: the
    batches of [batchInterpolate] together run
    [while (x < bounds.xMax) { interpolateColumn(x); x += 2; }] once, a
    yield resuming the loop at the same [x]; then the field is created.
    The result is the field and the store it reads. *)
Definition interpolateField (mask : Mask.t) : Field.t * Heap :=
  let s :=
    stride2_loop (stride2_steps (IBounds.x bounds) (IBounds.xMax bounds - 1))
      interpolateColumn (IBounds.x bounds)
      (mkSweepState ∅ mask initial_heap) in
  (createField (sweep_columns s) bounds (sweep_mask s), sweep_heap s).

(** *** Time slicing *)

(** One call of [batchInterpolate] with the cursor at [x]: columns are
    swept while [x < bounds.xMax]; after each column the clock is read, and
    when it finds the time budget spent ([over_budget], asked at the new
    cursor) the batch leaves its resumption to the timer and yields. *)
Fixpoint batchInterpolate (fuel : nat) (over_budget : Z -> bool) (x : Z)
    (s : SweepState) : option BatchResult :=
  match fuel with
  | O => None
  | S fuel =>
      if x <? IBounds.xMax bounds then
        let s := interpolateColumn x s in
        let x := x + 2 in
        if over_budget x then Some (Yielded x s)
        else batchInterpolate fuel over_budget x s
      else
        Some (Resolved (createField (sweep_columns s) bounds (sweep_mask s))
                       (sweep_heap s))
  end.

(** The sample pixel of the 2 by 2 block a pixel lies in, when the sweep
    visits that block. *)
Definition block_sample (px py : Z) : option (Z * Z) :=
  let sx := px - (px - IBounds.x bounds) mod 2 in
  let sy := py - (py - IBounds.y bounds) mod 2 in
  if (IBounds.x bounds <=? px) && (sx <? IBounds.xMax bounds)
     && (IBounds.y bounds <=? py) && (sy <=? IBounds.yMax bounds)
  then Some (sx, sy) else None.

(** The vector the sweep stores for a visible sample pixel, if any: the
    grid's vector at the inverse projection of the pixel, distorted. *)
Definition sample_vector (x y : Z) : option (list value) :=
  match invert projection (JS.of_Z x, JS.of_Z y) with
  | Some (lambda, phi) =>
      if JS.isFinite lambda then
        match interpolate grids lambda phi with
        | Some arr =>
            let u := JS.mul (ToNumber (array_get arr 0)) sweep_velocityScale in
            let v := JS.mul (ToNumber (array_get arr 1)) sweep_velocityScale in
            let '(d0, d1, d2, d3) :=
              distortion projection lambda phi (JS.of_Z x) (JS.of_Z y) in
            Some (array_set
                    (array_set arr 0 (VNum (JS.add (JS.mul d0 u) (JS.mul d2 v))))
                    1 (VNum (JS.add (JS.mul d1 u) (JS.mul d3 v))))
        | None => None
        end
      else None
  | None => None
  end.

(** A swept column: the cells of each of its blocks follow the block's
    sample pixel, and it has no other cell. *)
Definition column_ok (visible : Z -> Z -> bool) (h : Heap) (x : Z)
    (col : gmap Z loc) : Prop :=
  let n := stride2_steps (IBounds.y bounds) (IBounds.yMax bounds) in
  (forall j c, 0 <= j < Z.of_nat n -> 0 <= c <= 1 ->
     cell_ok h (visible x (IBounds.y bounds + 2 * j))
             (sample_vector x (IBounds.y bounds + 2 * j))
             (col !! (IBounds.y bounds + 2 * j + c))) /\
  (forall y', y' < IBounds.y bounds \/ IBounds.y bounds + 2 * Z.of_nat n <= y' ->
     col !! y' = None).

(** The field's sentinels as the specification states them: a pixel
    outside the mask's visible region looks up the "outside" sentinel, and
    a visible pixel for which no vector was found looks up the "hole"
    sentinel. *)
Definition sentinels_follow_mask (mask : Mask.t) : Prop :=
  let f := fst (interpolateField mask) in
  forall x y : Z,
    (Mask.isVisible mask x y = false ->
     Field.lookup f (JS.of_Z x) (JS.of_Z y) = NULL_WIND_VECTOR) /\
    (Mask.isVisible mask x y = true -> sample_vector x y = None ->
     Field.lookup f (JS.of_Z x) (JS.of_Z y) = HOLE_VECTOR).

End InterpolateField.

(** The timer resumes a yielded batch with the same cursor and state.  The
    sweep holds the live [globe.projection], which the input handlers
    mutate, and nothing keeps them from doing so between two batches: batch
    number [n] sweeps with the projection as it is then, [live n].
    [clock n] is what the clock says during batch number [n]. *)
Fixpoint run_batches
    (distortion : D3.Projection -> number -> number -> number -> number -> Distortion)
    (invert : D3.Projection -> number * number -> option (number * number))
    (live : nat -> D3.Projection) (grids : Grids) (bounds : IBounds.t)
    (fuel : nat) (clock : nat -> Z -> bool) (batch : nat)
    (x : Z) (s : SweepState) : option (Field.t * Heap) :=
  match fuel with
  | O => None
  | S fuel =>
      match batchInterpolate distortion invert (live batch) grids bounds fuel
              (clock batch) x s with
      | Some (Resolved f h) => Some (f, h)
      | Some (Yielded x s) =>
          run_batches distortion invert live grids bounds fuel clock (S batch) x s
      | None => None
      end
  end.

(** *** A small sweep for examples *)

(** A view of 4 by 2 pixels in which only the pixel (0, 0) is visible. *)
Definition corner_mask : Mask.t :=
  Mask.mk 4 ([255; 0; 0; 255] ++ replicate 28 0).
Definition corner_bounds : IBounds.t := IBounds.mk 0 0 3 1.

(** A grid with the constant vector [[1, 0, 1]], a projection whose
    inverse is the identity, and no distortion. *)
Definition constant_grids : Grids :=
  mkGrids (fun _ _ => Some [VNum (JS.of_Z 1); VNum (JS.of_Z 0); VNum (JS.of_Z 1)])
          (JS.of_Z 1) (fun _ _ => VNull) (fun _ alpha => (0, 0, 0, alpha)) false.
(** A grid that has no sample anywhere. *)
Definition empty_grids : Grids :=
  mkGrids (fun _ _ => None) (JS.of_Z 1) (fun _ _ => VNull)
          (fun _ alpha => (0, 0, 0, alpha)) false.
Definition identity_invert (p : D3.Projection) (point : number * number)
  : option (number * number) := Some point.
Definition no_distortion (p : D3.Projection) (lambda phi x y : number) : Distortion :=
  (JS.of_Z 1, JS.of_Z 0, JS.of_Z 0, JS.of_Z 1).

(** The same view with the pixels (0, 0) and (2, 0) visible; an inverse
    that shifts the longitude by the projection's first angle; and a grid
    whose vector at a point holds the point's longitude. *)
Definition two_samples_mask : Mask.t :=
  Mask.mk 4 ([255; 0; 0; 255] ++ replicate 4 0 ++ [255; 0; 0; 255] ++ replicate 20 0).
Definition turning_invert (p : D3.Projection) (point : number * number)
  : option (number * number) :=
  Some (JS.add (fst point) (fst (fst (D3.rotate p))), snd point).
Definition longitude_grids : Grids :=
  mkGrids (fun lambda _ => Some [VNum lambda; VNum (JS.of_Z 0); VNum (JS.of_Z 1)])
          (JS.of_Z 1) (fun _ _ => VNull) (fun _ alpha => (0, 0, 0, alpha)) false.
(** The projection is turned by 10 degrees after the first batch. *)
Definition turned_after_first (n : nat) : D3.Projection :=
  match n with
  | O => sample_geo D3.geoOrthographic
  | S _ => D3.with_rotate (JS.of_Z 10, JS.of_Z 0, JS.of_Z 0)
             (sample_geo D3.geoOrthographic)
  end.

(** ** The input controller: classifying a gesture *)

Definition MIN_MOVE : number := JS.of_Z 4.

(** [d3.zoomIdentity.k], the scale a gesture starts from. *)
Definition zoomIdentity_k : number := JS.of_Z 1.

(** The [type] of a move operation. *)
Inductive OpType : Type := click | spurious | drag | zoom.

Module Op.
Record t : Type := mk {
  type : OpType;
  startMouse : number * number;
  startScale : number;
  manipulator : Manipulator }.
Definition with_type (ty : OpType) (op : t) : t :=
  mk ty (startMouse op) (startScale op) (manipulator op).
End Op.

(** What the controller dispatches or schedules. *)
Inductive Dispatched : Type :=
| MoveStart
| Move
| Click (mouse : number * number) (coord : option (number * number))
| SignalEnd.

(** The variables the handlers close over, and the events dispatched so
    far. *)
Record Controller : Type := mkController {
  globe : Globe;
  op : option Op.t;
  dispatched : list Dispatched }.

Section InputController.

(** [utils.distance] and [projection.invert] are not among the sources. *)
Variable distance : number * number -> number * number -> number.
Variable invert : D3.Projection -> number * number -> option (number * number).

Definition newOp (startMouse : number * number) (startScale : number)
    (g : Globe) : Op.t * Globe :=
  let (m, g') := manipulator startMouse startScale g in
  (Op.mk click startMouse startScale m, g').

(** [op = op || newOp(mouse, scale)]. *)
Definition ensure_op (mouse : number * number) (scale : number)
    (c : Controller) : Op.t * Globe :=
  match op c with
  | Some o => (o, globe c)
  | None => newOp mouse scale (globe c)
  end.

Definition on_zoomstart (mouse : number * number) (c : Controller) : Controller :=
  let (o, g) := ensure_op mouse zoomIdentity_k c in
  mkController g (Some o) (dispatched c).

Definition on_zoom (currentMouse : number * number) (currentScale : number)
    (c : Controller) : Controller :=
  let (o, g) := ensure_op currentMouse (JS.of_Z 1) c in
  let barely_moved :=
    match Op.type o with
    | click | spurious =>
        let distanceMoved := distance currentMouse (Op.startMouse o) in
        if JS.strict_eq currentScale (Op.startScale o) && JS.lt distanceMoved MIN_MOVE
        then Some (if JS.gt distanceMoved (JS.of_Z 0) then click else spurious)
        else None
    | _ => None
    end in
  match barely_moved with
  | Some ty =>
      (* the handler returns early *)
      mkController g (Some (Op.with_type ty o)) (dispatched c)
  | None =>
      let '(o, log) :=
        match Op.type o with
        | click | spurious => (Op.with_type drag o, dispatched c ++ [MoveStart])
        | _ => (o, dispatched c)
        end in
      let o :=
        if JS.loose_ne currentScale (Op.startScale o) then Op.with_type zoom o else o in
      let g :=
        move (Op.manipulator o)
             (match Op.type o with zoom => None | _ => Some currentMouse end)
             currentScale g in
      mkController g (Some o) (log ++ [Move])
  end.

(** [zoomend]: [None] stands for the [TypeError] of reading
    [op.manipulator] when there is no operation. *)
Definition on_zoomend (c : Controller) : option Controller :=
  match op c with
  | None => None
  | Some o =>
      let g := manipulator_end (Op.manipulator o) (globe c) in
      let log :=
        match Op.type o with
        | click =>
            dispatched c
            ++ [Click (Op.startMouse o) (invert (projection g) (Op.startMouse o))]
        | spurious => dispatched c
        | _ => dispatched c ++ [SignalEnd]
        end in
      Some (mkController g None log)
  end.

(** One interaction: pointer-down at [start], the move events (pointer
    position and scale), each delivered to the [zoom] handler, up to the
    moment of pointer-up. *)
Definition interaction (start : number * number)
    (events : list ((number * number) * number)) (c : Controller) : Controller :=
  fold_left (fun c e => on_zoom (fst e) (snd e) c) events (on_zoomstart start c).

(** How the interaction is classified: the type [zoomend] finds. *)
Definition classification (start : number * number)
    (events : list ((number * number) * number)) (c : Controller) : option OpType :=
  Op.type <$> op (interaction start events c).

(** The type after one more [zoom] event at distance [d] from the start
    and with scale [s], the operation having started at scale [s0]. *)
Definition next_type (t : OpType) (d s s0 : number) : OpType :=
  match t with
  | click | spurious =>
      if JS.strict_eq s s0 && JS.lt d MIN_MOVE
      then (if JS.gt d (JS.of_Z 0) then click else spurious)
      else if JS.loose_ne s s0 then zoom else drag
  | drag => if JS.loose_ne s s0 then zoom else drag
  | zoom => zoom
  end.

Definition types_run (start : number * number) (t : OpType)
    (events : list ((number * number) * number)) : OpType :=
  fold_left (fun t e => next_type t (distance (fst e) start) (snd e) zoomIdentity_k)
            events t.

(** "Zero movement with no scale change classifies as spurious", for a
    whole interaction from pointer-down to pointer-up. *)
Definition zero_movement_is_spurious (start : number * number)
    (events : list ((number * number) * number)) (c : Controller) : Prop :=
  Forall (fun e => JS.strict_eq (distance (fst e) start) (JS.of_Z 0) = true /\
                   JS.strict_eq (snd e) zoomIdentity_k = true) events ->
  classification start events c = Some spurious.

End InputController.

(** A distance for the examples: pointers that move along the x axis. *)
Definition sample_distance (a b : number * number) : number :=
  JS.abs (JS.sub (fst a) (fst b)).

Definition idle_controller : Controller := mkController sample_globe None [].

(** ** Sessions, whole interactions and block colours *)

(** The [move] calls of one manipulator session, in order. *)
Definition moves (m : Manipulator)
    (events : list (option (number * number) * number)) (g : Globe) : Globe :=
  fold_left (fun g e => move m (fst e) (snd e) g) events g.

(** A whole session: [manipulator], its [move] calls, [end]. *)
Definition session (startMouse : number * number) (startScale : number)
    (events : list (option (number * number) * number)) (g : Globe) : Globe :=
  let (m, g') := manipulator startMouse startScale g in
  manipulator_end m (moves m events g').

(** A write to a clamped byte array stores the value brought into
    [0, 255]. *)
Definition clamp_byte (v : Z) : Z := Z.max 0 (Z.min 255 v).

(** The alpha component of a colour. *)
Definition alpha_of (rgba : Z * Z * Z * Z) : Z := snd rgba.

(** The pixel has its four bytes within the data. *)
Definition pixel_in_data (m : Mask.t) (x y : Z) : Prop :=
  0 <= (y * Mask.width m + x) * 4 /\
  (y * Mask.width m + x) * 4 + 3 < Z.of_nat (length (Mask.data m)).

(** The [zoom] handler ignores an event (it returns early): the operation
    is still [click] or [spurious], the scale is the start scale and the
    pointer is nearer than [MIN_MOVE] to the start. *)
Definition barely_moved (t : OpType) (d s s0 : number) : bool :=
  match t with
  | click | spurious => JS.strict_eq s s0 && JS.lt d MIN_MOVE
  | _ => false
  end.

Section WholeInteraction.

Variable distance : number * number -> number * number -> number.
Variable invert : D3.Projection -> number * number -> option (number * number).

(** An interaction with its pointer-up: [zoomstart], the [zoom] events,
    [zoomend]. *)
Definition complete_interaction (start : number * number)
    (events : list ((number * number) * number)) (c : Controller)
  : option Controller :=
  on_zoomend invert (interaction distance start events c).

End WholeInteraction.

(** Two globes that differ at most in the two rotation angles and the
    scale. *)
Definition same_but_angles_and_scale (g g' : Globe) : Prop :=
  variant g' = variant g /\
  D3.raw (projection g') = D3.raw (projection g) /\
  D3.translate (projection g') = D3.translate (projection g) /\
  D3.precision (projection g') = D3.precision (projection g) /\
  D3.clipAngle (projection g') = D3.clipAngle (projection g) /\
  D3.clipExtent (projection g') = D3.clipExtent (projection g) /\
  snd (D3.rotate (projection g')) = snd (D3.rotate (projection g)).

(** Two globes that agree in everything the orientation setter leaves
    alone: the variant, the raw projection, the precision, the clipping and
    the roll. *)
Definition same_fixed_parts (g g' : Globe) : Prop :=
  variant g' = variant g /\
  D3.raw (projection g') = D3.raw (projection g) /\
  D3.precision (projection g') = D3.precision (projection g) /\
  D3.clipAngle (projection g') = D3.clipAngle (projection g) /\
  D3.clipExtent (projection g') = D3.clipExtent (projection g) /\
  snd (D3.rotate (projection g')) = snd (D3.rotate (projection g)).

(** The position callback of the [#show-location] button, at the
    coordinates [[longitude, latitude]], up to its call of
    [configuration.save]: the projection is turned to [locate(coord)] when
    the globe has one. *)
Definition located (coord : number * number) (g : Globe) : Globe :=
  match locate g coord with
  | Some rotate => mkGlobe (variant g) (D3.with_rotate rotate (projection g))
  | None => g
  end.

(** ** The overlay the sweep paints *)

(** The four bytes of a pixel of the image data, as they read. *)
Definition pixel_bytes (m : Mask.t) (x y : Z) : list (option Z) :=
  let i := (y * Mask.width m + x) * 4 in
  [Mask.data_get (Mask.data m) i; Mask.data_get (Mask.data m) (i + 1);
   Mask.data_get (Mask.data m) (i + 2); Mask.data_get (Mask.data m) (i + 3)].

(** The four bytes a colour is stored as. *)
Definition stored_color (rgba : Z * Z * Z * Z) : list (option Z) :=
  let '(r, g, b, a) := rgba in
  [Some (clamp_byte r); Some (clamp_byte g); Some (clamp_byte b);
   Some (clamp_byte a)].

(** The four writes [interpolateColumn] makes for one block. *)
Definition paint_block (bx by_ : Z) (color : Z * Z * Z * Z) (m : Mask.t) : Mask.t :=
  Mask.set (bx + 1) (by_ + 1) color
    (Mask.set bx (by_ + 1) color
       (Mask.set (bx + 1) by_ color (Mask.set bx by_ color m))).

Section Overlay.

Variable invert : D3.Projection -> number * number -> option (number * number).
Variable projection : D3.Projection.
Variable grids : Grids.

(** The colour [interpolateColumn] chooses for a visible sample pixel: the
    gradient of the scalar found there (the overlay grid's sample when the
    overlay is another grid, else the magnitude of the wind vector), and
    transparent black when there is no scalar. *)
Definition sample_color (x y : Z) : Z * Z * Z * Z :=
  match invert projection (JS.of_Z x, JS.of_Z y) with
  | Some (lambda, phi) =>
      if JS.isFinite lambda then
        let scalar :=
          if hasDistinctOverlay grids then overlayInterpolate grids lambda phi
          else match interpolate grids lambda phi with
               | Some arr => array_get arr 2
               | None => VNull
               end in
        if isValue scalar then gradient grids scalar OVERLAY_ALPHA
        else TRANSPARENT_BLACK
      else TRANSPARENT_BLACK
  | None => TRANSPARENT_BLACK
  end.

End Overlay.

(** The clamped bounds of a box with finite corners, in whole pixels. *)
Definition whole_bounds (x0 y0 x1 y1 : Q) (view : View.t) : IBounds.t :=
  IBounds.mk (Z.max (Qfloor x0) 0) (Z.max (Qfloor y0) 0)
             (Z.min (Qceiling x1) (View.width view - 1))
             (Z.min (Qceiling y1) (View.height view - 1)).

(* ================================================================== *)
(** * Theorems *)
(* ================================================================== *)

(** ** Facts about numbers *)

Lemma Qred_inject_Z (z : Z) : Qred (inject_Z z) = inject_Z z.
Proof.
  unfold Qred, inject_Z.
  generalize (Z.ggcd_gcd z 1) (Z.ggcd_correct_divisors z 1).
  destruct (Z.ggcd z 1) as (g, (a, b)). simpl.
  rewrite Z.gcd_1_r. intros -> [H1 H2].
  rewrite Z.mul_1_l in H1, H2. now subst.
Qed.

Lemma Qcompare_inject_Z (a b : Z) : Qcompare (inject_Z a) (inject_Z b) = Z.compare a b.
Proof. unfold Qcompare. simpl. now rewrite !Z.mul_1_r. Qed.

Lemma add_of_Z (a b : Z) : JS.add (JS.of_Z a) (JS.of_Z b) = JS.of_Z (a + b).
Proof.
  unfold JS.add, JS.of_Z. f_equal.
  rewrite <- (Qred_inject_Z (a + b)). apply Qred_complete.
  now rewrite inject_Z_plus.
Qed.

Lemma neg_of_Z (a : Z) : JS.neg (JS.of_Z a) = JS.of_Z (- a).
Proof.
  unfold JS.neg, JS.of_Z. f_equal.
  rewrite <- (Qred_inject_Z (- a)). apply Qred_complete.
  now rewrite inject_Z_opp.
Qed.

Lemma sub_of_Z (a b : Z) : JS.sub (JS.of_Z a) (JS.of_Z b) = JS.of_Z (a - b).
Proof. unfold JS.sub. now rewrite neg_of_Z, add_of_Z. Qed.

Lemma compare_of_Z (a b : Z) :
  JS.compare (JS.of_Z a) (JS.of_Z b) = Some (Z.compare a b).
Proof. unfold JS.compare, JS.of_Z. now rewrite Qcompare_inject_Z. Qed.

Lemma le_of_Z (a b : Z) : JS.le (JS.of_Z a) (JS.of_Z b) = (a <=? b).
Proof.
  unfold JS.le. rewrite compare_of_Z. unfold Z.leb.
  now destruct (a ?= b).
Qed.

Lemma lt_of_Z (a b : Z) : JS.lt (JS.of_Z a) (JS.of_Z b) = (a <? b).
Proof.
  unfold JS.lt. rewrite compare_of_Z. unfold Z.ltb.
  now destruct (a ?= b).
Qed.

Lemma max_of_Z (a b : Z) : JS.max (JS.of_Z a) (JS.of_Z b) = JS.of_Z (Z.max a b).
Proof.
  unfold JS.max. rewrite compare_of_Z. unfold Z.max.
  now destruct (a ?= b).
Qed.

Lemma min_of_Z (a b : Z) : JS.min (JS.of_Z a) (JS.of_Z b) = JS.of_Z (Z.min a b).
Proof.
  unfold JS.min. rewrite compare_of_Z. unfold Z.min.
  now destruct (a ?= b).
Qed.

Lemma le_Fin (p q : Q) : JS.le (Fin p) (Fin q) = true <-> (p <= q)%Q.
Proof.
  unfold JS.le, JS.compare. rewrite Qle_alt.
  destruct (p ?= q)%Q; split; congruence.
Qed.

Lemma lt_Fin (p q : Q) : JS.lt (Fin p) (Fin q) = true <-> (p < q)%Q.
Proof.
  unfold JS.lt, JS.compare. rewrite Qlt_alt.
  destruct (p ?= q)%Q; split; congruence.
Qed.

(** Below the overflow bound a mathematical value is its Number value. *)
Lemma of_real_small (q : Q) :
  (Qabs q < JS.overflow_bound)%Q -> JS.of_real q = Fin q.
Proof.
  intros H. unfold JS.of_real.
  destruct (Qle_bool JS.overflow_bound (Qabs q)) eqn:E; [|reflexivity].
  apply Qle_bool_iff in E. exfalso. exact (Qlt_not_le _ _ H E).
Qed.

Lemma of_real_below (q : Q) (z : Z) :
  (Qabs q <= inject_Z z)%Q -> z < 2 ^ 1024 - 2 ^ 970 -> JS.of_real q = Fin q.
Proof.
  intros Hq Hz. apply of_real_small. eapply Qle_lt_trans; [exact Hq|].
  unfold JS.overflow_bound. now rewrite <- Zlt_Qlt.
Qed.

(** ** Clamped bounds *)

Lemma ensureNumber_cases (n f : number) :
  ensureNumber n f = match n with NaN => f | _ => n end.
Proof. now destruct n. Qed.

Lemma lower_corner_shape (lo : number) :
  let x := JS.max (JS.floor (ensureNumber lo (JS.of_Z 0))) (JS.of_Z 0) in
  (exists z, 0 <= z /\ x = JS.of_Z z) \/ x = PInf.
Proof.
  rewrite ensureNumber_cases. destruct lo as [q| | |]; cbn [JS.floor].
  - left. rewrite max_of_Z. eexists; split; [|reflexivity]. lia.
  - now right.
  - left. exists 0. now split.
  - left. exists 0. now split.
Qed.

Lemma upper_corner_shape (hi : number) (w : Z) :
  let xMax := JS.min (JS.ceil (ensureNumber hi (JS.of_Z w))) (JS.of_Z (w - 1)) in
  (exists z, z <= w - 1 /\ xMax = JS.of_Z z) \/ xMax = NInf.
Proof.
  rewrite ensureNumber_cases. destruct hi as [q| | |]; cbn [JS.ceil].
  - left. rewrite min_of_Z. eexists; split; [|reflexivity]. lia.
  - left. exists (w - 1). now split.
  - now right.
  - left. unfold JS.of_Z at 1. cbn [JS.ceil]. rewrite Qceiling_Z, min_of_Z.
    eexists; split; [|reflexivity]. lia.
Qed.

Lemma axis_clamped (lo hi : number) (w : Z) :
  let x := JS.max (JS.floor (ensureNumber lo (JS.of_Z 0))) (JS.of_Z 0) in
  let xMax := JS.min (JS.ceil (ensureNumber hi (JS.of_Z w))) (JS.of_Z (w - 1)) in
  JS.le (JS.of_Z 0) x = true /\
  JS.le xMax (JS.of_Z (w - 1)) = true /\
  JS.le (JS.add (JS.sub xMax x) (JS.of_Z 1)) (JS.of_Z w) = true.
Proof.
  intros x xMax.
  destruct (lower_corner_shape lo) as [(a & Ha & Hx)|Hx];
  destruct (upper_corner_shape hi w) as [(b & Hb & Hm)|Hm];
  fold x in Hx; fold xMax in Hm; rewrite Hx, Hm;
  rewrite ?sub_of_Z, ?add_of_Z, ?le_of_Z; repeat split;
  try reflexivity; lia.
Qed.

Lemma axis_nonneg (lo hi : number) (w : Z) :
  axis_meets lo hi w ->
  let x := JS.max (JS.floor (ensureNumber lo (JS.of_Z 0))) (JS.of_Z 0) in
  let xMax := JS.min (JS.ceil (ensureNumber hi (JS.of_Z w))) (JS.of_Z (w - 1)) in
  JS.le (JS.of_Z 0) (JS.add (JS.sub xMax x) (JS.of_Z 1)) = true.
Proof.
  unfold axis_meets. cbv zeta.
  assert (Hlo : ensureNumber lo (JS.of_Z 0) <> NaN) by now destruct lo.
  assert (Hhi : ensureNumber hi (JS.of_Z w) <> NaN) by now destruct hi.
  destruct (ensureNumber lo (JS.of_Z 0)) as [p| | |];
    destruct (ensureNumber hi (JS.of_Z w)) as [q| | |];
    try congruence; intros (Hlh & Hlw & Hh0 & Hw);
    try discriminate Hlh; try discriminate Hlw; try discriminate Hh0;
    cbn [JS.floor JS.ceil].
  - (* a finite box *)
    apply le_Fin in Hlh, Hlw, Hh0.
    assert (Qfloor p <= Qceiling q).
    { rewrite Zle_Qle. eapply Qle_trans; [apply Qfloor_le|].
      eapply Qle_trans; [exact Hlh|apply Qle_ceiling]. }
    assert (Qfloor p <= w).
    { rewrite Zle_Qle. eapply Qle_trans; [apply Qfloor_le|exact Hlw]. }
    assert (0 <= Qceiling q).
    { rewrite Zle_Qle. eapply Qle_trans; [exact Hh0|apply Qle_ceiling]. }
    rewrite max_of_Z, min_of_Z, sub_of_Z, add_of_Z, le_of_Z.
    apply Z.leb_le. lia.
  - (* the upper corner is +Infinity *)
    apply le_Fin in Hlw.
    assert (Qfloor p <= w).
    { rewrite Zle_Qle. eapply Qle_trans; [apply Qfloor_le|exact Hlw]. }
    rewrite max_of_Z. cbn [JS.min JS.compare JS.of_Z].
    fold (JS.of_Z (w - 1)). rewrite sub_of_Z, add_of_Z, le_of_Z.
    apply Z.leb_le. lia.
  - (* the lower corner is -Infinity *)
    apply le_Fin in Hh0.
    assert (0 <= Qceiling q).
    { rewrite Zle_Qle. eapply Qle_trans; [exact Hh0|apply Qle_ceiling]. }
    rewrite min_of_Z. cbn [JS.max JS.compare JS.of_Z].
    fold (JS.of_Z 0). rewrite sub_of_Z, add_of_Z, le_of_Z.
    apply Z.leb_le. lia.
  - (* both corners are infinite *)
    cbn [JS.max JS.min JS.compare JS.of_Z].
    fold (JS.of_Z 0). fold (JS.of_Z (w - 1)).
    rewrite sub_of_Z, add_of_Z, le_of_Z.
    apply Z.leb_le. lia.
Qed.

Lemma clampedBounds_clamped (box : Box) (view : View.t) :
  let r := clampedBounds box view in
  (Bounds.width r = JS.add (JS.sub (Bounds.xMax r) (Bounds.x r)) (JS.of_Z 1) /\
   Bounds.height r = JS.add (JS.sub (Bounds.yMax r) (Bounds.y r)) (JS.of_Z 1)) /\
  (JS.le (Bounds.width r) (JS.of_Z (View.width view)) = true /\
   JS.le (Bounds.height r) (JS.of_Z (View.height view)) = true) /\
  (JS.le (JS.of_Z 0) (Bounds.x r) = true /\
   JS.le (JS.of_Z 0) (Bounds.y r) = true /\
   JS.le (Bounds.xMax r) (JS.of_Z (View.width view - 1)) = true /\
   JS.le (Bounds.yMax r) (JS.of_Z (View.height view - 1)) = true) /\
  (forall n fallback,
     ensureNumber n fallback = match n with NaN => fallback | _ => n end) /\
  (box_meets_view box view ->
   JS.le (JS.of_Z 0) (Bounds.width r) = true /\
   JS.le (JS.of_Z 0) (Bounds.height r) = true).
Proof.
  destruct box as [[x0 y0] [x1 y1]]. cbv zeta.
  unfold clampedBounds, box_meets_view; cbn [fst snd Bounds.width Bounds.height
    Bounds.x Bounds.y Bounds.xMax Bounds.yMax].
  destruct (axis_clamped x0 x1 (View.width view)) as (Hx & HxM & Hw).
  destruct (axis_clamped y0 y1 (View.height view)) as (Hy & HyM & Hh).
  repeat split; try assumption.
  - apply ensureNumber_cases.
  - now apply axis_nonneg.
  - now apply axis_nonneg.
Qed.

(** The outline d3 reports for an empty path, [[Infinity, Infinity],
    [-Infinity, -Infinity]], is not replaced by the fallbacks: the clamped
    corners stay infinite. *)
Example clampedBounds_empty_outline :
  let r := clampedBounds ((PInf, PInf), (NInf, NInf)) small_view in
  Bounds.x r = PInf /\ Bounds.xMax r = NInf /\ Bounds.width r = NInf.
Proof. repeat split; reflexivity. Qed.

(** C1, as stated, fails: the outline of a freshly built orthographic
    globe (d3's translate [480, 250] and scale 249.5) lies to the right of
    a view of 100 pixels, and its clamped width is 99 - 230 + 1. *)
Lemma bounds_negative_width :
  ~ bounds_invariant small_view (bounds disc_bounds sample_globe small_view).
Proof.
  intros (_ & _ & Hw & _). vm_compute in Hw. discriminate Hw.
Qed.

(** C1 (amended).  For every globe and view, [bounds(view)] has
    [width = xMax - x + 1] and [height = yMax - y + 1], neither larger than
    the view's; its lower corner is at least 0 and its upper corner at most
    the view's last pixel.  Only [NaN] components fall back (to 0, or to the
    view extent); infinities are kept and clamped.  The extents are
    non-negative when the projected box meets the view. *)
Theorem bounds_within_view (pathBounds : D3.Projection -> Box) (g : Globe)
    (view : View.t) :
  let r := bounds pathBounds g view in
  (Bounds.width r = JS.add (JS.sub (Bounds.xMax r) (Bounds.x r)) (JS.of_Z 1) /\
   Bounds.height r = JS.add (JS.sub (Bounds.yMax r) (Bounds.y r)) (JS.of_Z 1)) /\
  (JS.le (Bounds.width r) (JS.of_Z (View.width view)) = true /\
   JS.le (Bounds.height r) (JS.of_Z (View.height view)) = true) /\
  (JS.le (JS.of_Z 0) (Bounds.x r) = true /\
   JS.le (JS.of_Z 0) (Bounds.y r) = true /\
   JS.le (Bounds.xMax r) (JS.of_Z (View.width view - 1)) = true /\
   JS.le (Bounds.yMax r) (JS.of_Z (View.height view - 1)) = true) /\
  (forall n fallback,
     ensureNumber n fallback = match n with NaN => fallback | _ => n end) /\
  (box_meets_view (pathBounds (projection g)) view ->
   JS.le (JS.of_Z 0) (Bounds.width r) = true /\
   JS.le (JS.of_Z 0) (Bounds.height r) = true).
Proof. apply clampedBounds_clamped. Qed.

Lemma bounds_within_view_witness :
  box_meets_view (disc_bounds (projection sample_globe)) sample_view /\
  JS.le (JS.of_Z 0) (Bounds.width (bounds disc_bounds sample_globe sample_view)) = true.
Proof.
  assert (H : box_meets_view (disc_bounds (projection sample_globe)) sample_view).
  { unfold box_meets_view, axis_meets. cbn. repeat split; discriminate. }
  split; [exact H|].
  exact (proj1 (proj2 (proj2 (proj2 (proj2
    (bounds_within_view disc_bounds sample_globe sample_view)))) H)).
Defined.

(** ** Formatting and parsing numbers *)

Section StringFacts.
Local Open Scope string_scope.
Import JSString.

Lemma append_String (c : ascii) (a b : string) :
  String c a +:+ b = String c (a +:+ b).
Proof. reflexivity. Qed.

Lemma append_empty (b : string) : "" +:+ b = b.
Proof. reflexivity. Qed.

Lemma string_forall_app P (a b : string) :
  string_forall P (a +:+ b) = string_forall P a && string_forall P b.
Proof.
  induction a as [|c a IH]; [reflexivity|].
  rewrite append_String. cbn. now rewrite IH, andb_assoc.
Qed.

Lemma string_forall_impl (P R : ascii -> bool) (s : string) :
  (forall c, P c = true -> R c = true) ->
  string_forall P s = true -> string_forall R s = true.
Proof.
  intros HPR. induction s as [|c s IH]; cbn; [reflexivity|].
  intros [Hc Hs]%andb_prop. rewrite (HPR _ Hc). now apply IH.
Qed.

Lemma string_of_uint_digits (d : Decimal.uint) :
  string_forall is_digit (NilEmpty.string_of_uint d) = true.
Proof. induction d; cbn; auto. Qed.

Lemma digits_of_N_digits (n : N) : string_forall is_digit (digits_of_N n) = true.
Proof.
  unfold digits_of_N, NilZero.string_of_uint.
  destruct (N.to_uint n); try reflexivity; apply (string_of_uint_digits (_ _)).
Qed.

Lemma digits_of_N_nonempty (n : N) : starts_with_digit (digits_of_N n) = true.
Proof.
  unfold digits_of_N, NilZero.string_of_uint.
  destruct (N.to_uint n); reflexivity.
Qed.

Lemma scan_digits_no_digit (rest : string) :
  starts_with_digit rest = false -> scan_digits rest = (Decimal.Nil, rest).
Proof.
  destruct rest as [|c r]; [reflexivity|]. cbn. unfold is_digit.
  now destruct (digit_cons c).
Qed.

Lemma scan_digits_string_of_uint (d : Decimal.uint) (rest : string) :
  starts_with_digit rest = false ->
  scan_digits (NilEmpty.string_of_uint d +:+ rest) = (d, rest).
Proof.
  intros Hrest.
  induction d; cbn [NilEmpty.string_of_uint];
    rewrite ?append_String, ?append_empty; cbn; rewrite ?IHd; try reflexivity.
  now apply scan_digits_no_digit.
Qed.

Lemma scan_digits_of_N (n : N) (rest : string) :
  starts_with_digit rest = false ->
  exists u, scan_digits (digits_of_N n +:+ rest) = (u, rest) /\
            N.of_uint u = n /\ has_digits u = true.
Proof.
  intros Hrest. unfold digits_of_N, NilZero.string_of_uint.
  pose proof (DecimalN.Unsigned.of_to n) as Hn.
  destruct (N.to_uint n) as [|d|d|d|d|d|d|d|d|d|d] eqn:E.
  1: { exists (Decimal.D0 Decimal.Nil). rewrite append_String, append_empty. cbn.
       rewrite (scan_digits_no_digit _ Hrest). now rewrite <- Hn. }
  all: eexists; split; [apply scan_digits_string_of_uint; exact Hrest|].
  all: now split.
Qed.

Ltac destruct_ascii c := destruct c as [[|] [|] [|] [|] [|] [|] [|] [|]].

Lemma decimal_char_facts (c : ascii) :
  is_decimal_char c = true ->
  is_whitespace c = false /\ Ascii.eqb c "," = false /\
  Ascii.eqb c "x" = false /\ Ascii.eqb c "X" = false /\
  Ascii.eqb c "o" = false /\ Ascii.eqb c "O" = false /\
  Ascii.eqb c "b" = false /\ Ascii.eqb c "B" = false.
Proof. destruct_ascii c; cbn; intros H; try discriminate H; now repeat split. Qed.

Lemma digit_is_decimal_char (c : ascii) : is_digit c = true -> is_decimal_char c = true.
Proof. unfold is_decimal_char. now intros ->. Qed.

Lemma digit_facts (c : ascii) (r : string) :
  is_digit c = true ->
  scan_sign (String c r) = (false, String c r) /\
  String.eqb (String c r) "Infinity" = false.
Proof. destruct_ascii c; cbn; intros H; try discriminate H; now split. Qed.

Lemma trim_decimal_chars (s : string) :
  string_forall is_decimal_char s = true -> trim s = s.
Proof.
  intros H. unfold trim.
  assert (Hstart : trim_start s = s).
  { destruct s as [|c r]; [reflexivity|]. cbn in H |- *.
    apply andb_prop in H as [Hc _].
    now rewrite (proj1 (decimal_char_facts c Hc)). }
  rewrite Hstart. clear Hstart.
  induction s as [|c r IH]; [reflexivity|].
  cbn in H |- *. apply andb_prop in H as [Hc Hr].
  rewrite (IH Hr). destruct r; [|reflexivity].
  now rewrite (proj1 (decimal_char_facts c Hc)).
Qed.

Lemma toNumber_decimal_chars (t : string) :
  string_forall is_decimal_char t = true ->
  starts_with_digit t = true \/ (exists r, t = String "-" r) ->
  toNumber t = parse_decimal t.
Proof.
  intros H Hhead. unfold toNumber. rewrite (trim_decimal_chars t H).
  destruct t as [|c0 [|c r]].
  - destruct Hhead as [Hd|[r Hr]]; discriminate.
  - destruct_ascii c0; reflexivity.
  - cbn in H. apply andb_prop in H as [_ H]. apply andb_prop in H as [Hc _].
    destruct (decimal_char_facts c Hc) as (_ & _ & Hx & HX & Ho & HO & Hb & HB).
    destruct_ascii c0; try reflexivity.
    now rewrite Hx, HX, Ho, HO, Hb, HB.
Qed.

Lemma split_no_sep (s : string) :
  string_forall is_decimal_char s = true -> split "," s = [s].
Proof.
  induction s as [|c r IH]; [reflexivity|].
  cbn. intros [Hc Hr]%andb_prop.
  destruct (decimal_char_facts c Hc) as (_ & -> & _). now rewrite (IH Hr).
Qed.

Lemma split_app_sep (a r : string) :
  string_forall is_decimal_char a = true ->
  split "," (a +:+ String "," r) = a :: split "," r.
Proof.
  induction a as [|c a IH]; [reflexivity|].
  rewrite append_String. cbn. intros [Hc Ha]%andb_prop.
  destruct (decimal_char_facts c Hc) as (_ & -> & _). now rewrite (IH Ha).
Qed.

Lemma split_join3 (a b c : string) :
  string_forall is_decimal_char a = true ->
  string_forall is_decimal_char b = true ->
  string_forall is_decimal_char c = true ->
  split "," (join "," [a; b; c]) = [a; b; c].
Proof.
  intros Ha Hb Hc. cbn [join].
  change ("," +:+ b +:+ "," +:+ c) with (String "," (b +:+ String "," c)).
  rewrite (split_app_sep _ _ Ha), (split_app_sep _ _ Hb).
  now rewrite (split_no_sep _ Hc).
Qed.

Lemma two_digits_scan (f : N) :
  (f < 100)%N ->
  exists u, scan_digits (two_digits f) = (u, "") /\
            N.of_uint u = f /\ Decimal.nb_digits u = 2%nat /\
            string_forall is_digit (two_digits f) = true.
Proof.
  intros Hf. rewrite <- (N2Nat.id f) in *.
  assert (Hk : (N.to_nat f < 100)%nat) by lia.
  rewrite N2Nat.id in Hf. revert Hk. generalize (N.to_nat f) as k.
  intros k Hk.
  do 100 (destruct k as [|k]; [eexists; repeat split; reflexivity|]).
  lia.
Qed.

Lemma decimal_value_fixed (u uf : Decimal.uint) (ip f : N) :
  N.of_uint u = ip -> N.of_uint uf = f -> Decimal.nb_digits uf = 2%nat ->
  decimal_value u uf 0 = Qred (inject_Z (Z.of_N (ip * 100 + f)) / 100).
Proof.
  intros <- <- Hn. unfold decimal_value. rewrite Hn. apply Qred_complete.
  rewrite N2Z.inj_add, N2Z.inj_mul, inject_Z_plus, inject_Z_mult.
  change (inject_Z (10 ^ Z.of_nat 2)) with (inject_Z 100).
  change (inject_Z 10 ^ 0)%Q with 1%Q.
  change (inject_Z (Z.of_N 100)) with (inject_Z 100).
  change 100%Q with (inject_Z 100). field.
Qed.

Lemma decimal_value_integer (u : Decimal.uint) :
  decimal_value u Decimal.Nil 0 = inject_Z (Z.of_N (N.of_uint u)).
Proof.
  unfold decimal_value.
  rewrite <- (Qred_inject_Z (Z.of_N (N.of_uint u))) at 2. apply Qred_complete.
  change (inject_Z (Z.of_N (N.of_uint Decimal.Nil))) with 0%Q.
  change (inject_Z 10 ^ 0)%Q with 1%Q.
  change (inject_Z (10 ^ Z.of_nat (Decimal.nb_digits Decimal.Nil))) with 1%Q.
  field.
Qed.

Lemma parse_unsigned_fixed (ip f : N) :
  (f < 100)%N ->
  parse_unsigned_decimal (digits_of_N ip +:+ "." +:+ two_digits f)
  = Some (Qred (inject_Z (Z.of_N (ip * 100 + f)) / 100)).
Proof.
  intros Hf. unfold parse_unsigned_decimal.
  destruct (scan_digits_of_N ip ("." +:+ two_digits f) eq_refl)
    as (u & -> & Hu & Hd).
  destruct (two_digits_scan f Hf) as (uf & Huf & Hfv & Hn & _).
  change ("." +:+ two_digits f) with (String "." (two_digits f)).
  cbn iota. rewrite Huf, Hd. cbn.
  now rewrite (decimal_value_fixed u uf ip f).
Qed.

Lemma parse_unsigned_integer (n : N) :
  parse_unsigned_decimal (digits_of_N n) = Some (inject_Z (Z.of_N n)).
Proof.
  unfold parse_unsigned_decimal.
  destruct (scan_digits_of_N n "" eq_refl) as (u & Hs & Hu & Hd).
  assert (Happ : digits_of_N n +:+ "" = digits_of_N n).
  { generalize (digits_of_N n). intros s. induction s as [|c s IH];
      [reflexivity|]. now rewrite append_String, IH. }
  rewrite Happ in Hs. rewrite Hs. cbn iota. rewrite Hd. cbn.
  now rewrite decimal_value_integer, Hu.
Qed.

Lemma digits_head (n : N) (rest : string) :
  exists c r, digits_of_N n +:+ rest = String c r /\ is_digit c = true.
Proof.
  pose proof (digits_of_N_nonempty n) as H.
  destruct (digits_of_N n) as [|c r]; [discriminate|].
  exists c, (r +:+ rest). now rewrite append_String.
Qed.

Lemma parse_decimal_unsigned (t : string) :
  starts_with_digit t = true ->
  parse_decimal t = match parse_unsigned_decimal t with
                    | Some q => JS.of_real q | None => NaN end.
Proof.
  destruct t as [|c r]; [discriminate|]. cbn [starts_with_digit]. intros Hc.
  unfold parse_decimal.
  destruct (digit_facts c r Hc) as [-> ->]. reflexivity.
Qed.

Lemma parse_decimal_negative (t : string) :
  starts_with_digit t = true ->
  parse_decimal (String "-" t) = match parse_unsigned_decimal t with
                                 | Some q => JS.of_real (Qred (- q))
                                 | None => NaN end.
Proof.
  destruct t as [|c r]; [discriminate|]. cbn [starts_with_digit]. intros Hc.
  unfold parse_decimal. cbn [scan_sign].
  destruct (digit_facts c r Hc) as [_ ->]. reflexivity.
Qed.

Lemma append_empty_r (s : string) : s +:+ "" = s.
Proof. induction s as [|c s IH]; [reflexivity|]. now rewrite append_String, IH. Qed.

Lemma fixed_chars (ip f : N) :
  (f < 100)%N ->
  string_forall is_decimal_char (digits_of_N ip +:+ "." +:+ two_digits f) = true.
Proof.
  intros Hf. destruct (two_digits_scan f Hf) as (_ & _ & _ & _ & Hd).
  rewrite string_forall_app.
  rewrite (string_forall_impl _ _ _ digit_is_decimal_char (digits_of_N_digits ip)).
  change ("." +:+ two_digits f) with (String "." (two_digits f)). cbn.
  exact (string_forall_impl _ _ _ digit_is_decimal_char Hd).
Qed.

Lemma toNumber_fixed (negative : bool) (ip f : N) :
  (f < 100)%N -> (ip * 100 + f < 10 ^ 24)%N ->
  let m := Qred (inject_Z (Z.of_N (ip * 100 + f)) / 100) in
  toNumber ((if negative then "-" else "") +:+ digits_of_N ip +:+ "." +:+ two_digits f)
  = Fin (if negative then Qred (- m) else m).
Proof.
  intros Hf Hsmall m.
  assert (Hm : (Qabs m <= inject_Z (10 ^ 24))%Q).
  { unfold m. rewrite Qred_correct.
    assert (H0 : (0 <= inject_Z (Z.of_N (ip * 100 + f)))%Q)
      by (change 0%Q with (inject_Z 0); rewrite <- Zle_Qle; lia).
    assert (H1 : (inject_Z (Z.of_N (ip * 100 + f)) <= inject_Z (10 ^ 24))%Q)
      by (rewrite <- Zle_Qle; lia).
    set (z := inject_Z (Z.of_N (ip * 100 + f))) in *. clearbody z.
    assert (Hz : z / 100 == z * (1 # 100)) by field.
    rewrite Hz. apply Qabs_Qle_condition. split; lra. }
  assert (Hm' : (Qabs (Qred (- m)) <= inject_Z (10 ^ 24))%Q)
    by now rewrite Qred_correct, Qabs_opp.
  destruct (digits_head ip ("." +:+ two_digits f)) as (c & r & Hcr & Hc).
  pose proof (fixed_chars ip f Hf) as Hchars.
  destruct negative.
  - change ("-" +:+ digits_of_N ip +:+ "." +:+ two_digits f)
      with (String "-" (digits_of_N ip +:+ "." +:+ two_digits f)).
    rewrite toNumber_decimal_chars; [| cbn; exact Hchars | right; eauto].
    rewrite parse_decimal_negative; [| now rewrite Hcr].
    rewrite (parse_unsigned_fixed ip f Hf). fold m.
    apply (of_real_below _ _ Hm'). reflexivity.
  - rewrite append_empty.
    rewrite toNumber_decimal_chars; [| exact Hchars | left; now rewrite Hcr].
    rewrite parse_decimal_unsigned; [| now rewrite Hcr].
    rewrite (parse_unsigned_fixed ip f Hf). fold m.
    apply (of_real_below _ _ Hm). reflexivity.
Qed.

Variable shortest_decimal : Q -> string.

Lemma toFixed2_finite (q : Q) :
  Qle_bool ten_pow_21 (Qabs q) = false ->
  let n := Z.to_N (Qfloor (Qabs q * 100 + (1 # 2))) in
  toFixed2 shortest_decimal (Fin q)
  = (if Qle_bool 0 q then "" else "-")
    +:+ digits_of_N (n / 100) +:+ "." +:+ two_digits (n mod 100).
Proof. intros H. unfold toFixed2. now rewrite H. Qed.

Lemma toFixed2_chars (q : Q) :
  Qle_bool ten_pow_21 (Qabs q) = false ->
  string_forall is_decimal_char (toFixed2 shortest_decimal (Fin q)) = true.
Proof.
  intros H. rewrite (toFixed2_finite q H). rewrite string_forall_app.
  rewrite fixed_chars by (apply N.mod_lt; discriminate).
  now destruct (Qle_bool 0 q).
Qed.

Lemma toNumber_toFixed2 (q : Q) :
  Qle_bool ten_pow_21 (Qabs q) = false ->
  toNumber (toFixed2 shortest_decimal (Fin q)) = Fin (round2 q).
Proof.
  intros H. rewrite (toFixed2_finite q H). cbv zeta.
  set (n := Z.to_N (Qfloor (Qabs q * 100 + (1 # 2)))).
  assert (Hf : (n mod 100 < 100)%N) by (apply N.mod_lt; discriminate).
  assert (Hn : (n / 100 * 100 + n mod 100 = n)%N).
  { rewrite (N.div_mod n 100) at 3 by discriminate. lia. }
  assert (Hsmall : (n / 100 * 100 + n mod 100 < 10 ^ 24)%N).
  { rewrite Hn. unfold n.
    assert (Hq : (Qabs q < inject_Z (10 ^ 21))%Q).
    { apply Qnot_le_lt. intros Hle. apply Qle_bool_iff in Hle.
      unfold ten_pow_21 in H. congruence. }
    assert (Hx : (Qabs q * 100 + (1 # 2) < inject_Z (10 ^ 24))%Q).
    { change (inject_Z (10 ^ 24)) with (inject_Z (10 ^ 21) * 1000)%Q.
      pose proof (Qabs_nonneg q) as H0.
      assert (HB : (1 <= inject_Z (10 ^ 21))%Q)
        by (change 1%Q with (inject_Z 1); now rewrite <- Zle_Qle).
      set (B := inject_Z (10 ^ 21)) in *. set (a := Qabs q) in *.
      clearbody B a. lra. }
    pose proof (Qfloor_le (Qabs q * 100 + (1 # 2))) as Hfl.
    assert (Hz : Qfloor (Qabs q * 100 + (1 # 2)) < 10 ^ 24).
    { rewrite Zlt_Qlt. eapply Qle_lt_trans; eauto. }
    lia. }
  pose proof (toNumber_fixed (negb (Qle_bool 0 q)) (n / 100) (n mod 100) Hf Hsmall)
    as HT.
  cbv zeta in HT. rewrite Hn in HT. unfold round2. fold n.
  destruct (Qle_bool 0 q); exact HT.
Qed.

Lemma toString_integer (m : Z) :
  Z.abs m < 10 ^ 21 ->
  toString shortest_decimal (JS.of_Z m)
  = (if (0 <=? m)%Z then "" else "-") +:+ digits_of_N (Z.to_N (Z.abs m)).
Proof.
  intros Hm. unfold toString, JS.of_Z, is_integer.
  rewrite Qfloor_Z, Qeq_bool_refl.
  assert (Hbig : Qle_bool ten_pow_21 (Qabs (inject_Z m)) = false).
  { apply not_true_is_false. rewrite Qle_bool_iff. unfold ten_pow_21.
    change (Qabs (inject_Z m)) with (inject_Z (Z.abs m)).
    rewrite <- Zle_Qle. lia. }
  rewrite Hbig. cbn [negb andb].
  assert (Hs : Qle_bool 0 (inject_Z m) = (0 <=? m)%Z).
  { unfold Qle_bool, inject_Z. cbn [Qnum Qden].
    now rewrite !Z.mul_1_r. }
  now rewrite Hs.
Qed.

Lemma toNumber_toString_integer (m : Z) :
  Z.abs m < 10 ^ 21 ->
  toNumber (toString shortest_decimal (JS.of_Z m)) = JS.of_Z m.
Proof.
  intros Hm. rewrite (toString_integer m Hm).
  pose proof (digits_of_N_digits (Z.to_N (Z.abs m))) as Hd.
  apply (string_forall_impl _ _ _ digit_is_decimal_char) in Hd.
  pose proof (digits_of_N_nonempty (Z.to_N (Z.abs m))) as Hh.
  destruct (Z.leb_spec 0 m) as [Hpos|Hneg].
  - rewrite append_empty.
    rewrite toNumber_decimal_chars; [| exact Hd | now left].
    rewrite parse_decimal_unsigned by exact Hh.
    rewrite parse_unsigned_integer.
    rewrite (of_real_below _ (10 ^ 21)); [| |reflexivity].
    + unfold JS.of_Z. do 2 f_equal. lia.
    + rewrite Z2N.id by lia.
      change (Qabs (inject_Z (Z.abs m))) with (inject_Z (Z.abs (Z.abs m))).
      rewrite <- Zle_Qle. lia.
  - change ("-" +:+ digits_of_N (Z.to_N (Z.abs m)))
      with (String "-" (digits_of_N (Z.to_N (Z.abs m)))).
    rewrite toNumber_decimal_chars; [| exact Hd | right; eauto].
    rewrite parse_decimal_negative by exact Hh.
    rewrite parse_unsigned_integer.
    rewrite <- inject_Z_opp, Qred_inject_Z.
    rewrite (of_real_below _ (10 ^ 21)); [| |reflexivity].
    + unfold JS.of_Z. do 2 f_equal. lia.
    + rewrite Z2N.id by lia.
      change (Qabs (inject_Z (- Z.abs m))) with (inject_Z (Z.abs (- Z.abs m))).
      rewrite <- Zle_Qle. lia.
Qed.

Lemma round2_error (q : Q) : (Qabs (round2 q - q) <= 1 # 200)%Q.
Proof.
  unfold round2.
  set (x := (Qabs q * 100 + (1 # 2))%Q).
  assert (Hx0 : (0 <= Qabs q)%Q) by apply Qabs_nonneg.
  assert (Hfl : (0 <= Qfloor x)%Z).
  { rewrite <- (Qfloor_Z 0). apply Qfloor_resp_le. unfold x.
    change (inject_Z 0) with 0%Q. lra. }
  rewrite Z2N.id by exact Hfl.
  pose proof (Qfloor_le x) as Hlo. pose proof (Qlt_floor x) as Hhi.
  rewrite inject_Z_plus in Hhi. change (inject_Z 1) with 1%Q in Hhi.
  set (z := inject_Z (Qfloor x)) in *. clearbody z.
  unfold x in Hlo, Hhi. clear Hfl x.
  apply Qabs_Qle_condition.
  destruct (Qle_bool 0 q) eqn:Hs.
  - apply Qle_bool_iff in Hs. pose proof (Qabs_pos q Hs) as Ha.
    set (a := Qabs q) in *. clearbody a.
    rewrite Qred_correct.
    assert (Hz : z / 100 == z * (1 # 100)) by field. rewrite Hz.
    split; lra.
  - assert (Hneg : (q <= 0)%Q).
    { apply Qnot_lt_le. intros Hq. apply Qlt_le_weak in Hq.
      apply Qle_bool_iff in Hq. congruence. }
    pose proof (Qabs_neg q Hneg) as Ha.
    set (a := Qabs q) in *. clearbody a.
    rewrite !Qred_correct.
    assert (Hz : z / 100 == z * (1 # 100)) by field. rewrite Hz.
    split; lra.
Qed.
End StringFacts.

(** ** Angles modulo 360 *)

Lemma wrap_Fin (q : Q) :
  D3.wrap (Fin q) = Fin (Qred (q - 360 * inject_Z (JS.truncate (q / 360)))).
Proof. reflexivity. Qed.

(** The remainder lies strictly between -360 and 360. *)
Lemma remainder_range (q : Q) :
  (Qabs (q - 360 * inject_Z (JS.truncate (q / 360))) < 360)%Q.
Proof.
  assert (Hd : q / 360 == q * (1 # 360)) by field.
  unfold JS.truncate. apply Qabs_Qlt_condition.
  destruct (Qle_bool 0 (q / 360)) eqn:E.
  - apply Qle_bool_iff in E.
    pose proof (Qfloor_le (q / 360)) as Hlo. pose proof (Qlt_floor (q / 360)) as Hhi.
    rewrite inject_Z_plus in Hhi. change (inject_Z 1) with 1%Q in Hhi.
    set (z := inject_Z (Qfloor (q / 360))) in *. clearbody z.
    rewrite Hd in E, Hlo, Hhi. split; lra.
  - assert (Hneg : (q / 360 < 0)%Q).
    { apply Qnot_le_lt. intros H. apply Qle_bool_iff in H. congruence. }
    pose proof (Qle_ceiling (q / 360)) as Hhi.
    pose proof (Qceiling_lt (q / 360)) as Hlo.
    unfold Z.sub in Hlo. rewrite inject_Z_plus in Hlo.
    change (inject_Z (- (1))) with (- (1))%Q in Hlo.
    set (z := inject_Z (Qceiling (q / 360))) in *. clearbody z.
    rewrite Hd in Hneg, Hlo, Hhi. split; lra.
Qed.

Lemma truncate_small (q : Q) : (Qabs q < 360)%Q -> JS.truncate (q / 360) = 0.
Proof.
  intros H. apply Qabs_Qlt_condition in H.
  assert (Hd : q / 360 == q * (1 # 360)) by field.
  unfold JS.truncate. destruct (Qle_bool 0 (q / 360)) eqn:E.
  - apply Qle_bool_iff in E.
    pose proof (Qfloor_le (q / 360)) as Hlo. pose proof (Qlt_floor (q / 360)) as Hhi.
    assert (H0 : (inject_Z (Qfloor (q / 360)) < inject_Z 1)%Q).
    { eapply Qle_lt_trans; [exact Hlo|]. rewrite Hd.
      change (inject_Z 1) with 1%Q. lra. }
    assert (H1 : (inject_Z (-1) < inject_Z (Qfloor (q / 360)))%Q).
    { rewrite inject_Z_plus in Hhi. change (inject_Z 1) with 1%Q in Hhi.
      change (inject_Z (-1)) with (- (1))%Q.
      set (z := inject_Z (Qfloor (q / 360))) in *. clearbody z.
      rewrite Hd in E, Hhi. lra. }
    rewrite <- Zlt_Qlt in H0, H1. lia.
  - assert (Hneg : (q / 360 < 0)%Q).
    { apply Qnot_le_lt. intros H'. apply Qle_bool_iff in H'. congruence. }
    pose proof (Qle_ceiling (q / 360)) as Hhi.
    pose proof (Qceiling_lt (q / 360)) as Hlo.
    assert (H0 : (inject_Z (Qceiling (q / 360)) < inject_Z 1)%Q).
    { unfold Z.sub in Hlo. rewrite inject_Z_plus in Hlo.
      change (inject_Z (- (1))) with (- (1))%Q in Hlo. change (inject_Z 1) with 1%Q.
      set (z := inject_Z (Qceiling (q / 360))) in *. clearbody z.
      rewrite Hd in Hneg, Hlo. lra. }
    assert (H1 : (inject_Z (-1) < inject_Z (Qceiling (q / 360)))%Q).
    { eapply Qlt_le_trans; [|exact Hhi]. rewrite Hd.
      change (inject_Z (-1)) with (- (1))%Q. lra. }
    rewrite <- Zlt_Qlt in H0, H1. lia.
Qed.

(** An angle within (-360, 360) is kept as it is. *)
Lemma wrap_small (q : Q) : (Qabs q < 360)%Q -> D3.wrap (Fin q) = Fin (Qred q).
Proof.
  intros H. rewrite wrap_Fin, (truncate_small q H). f_equal.
  apply Qred_complete. change (inject_Z 0) with 0%Q. ring.
Qed.

(** What [rotate()] can read. *)
Lemma wrap_shape (a : number) :
  D3.wrap a = NaN \/
  exists r, D3.wrap a = Fin r /\ (Qabs r < 360)%Q /\ Qred r = r.
Proof.
  destruct a as [q| | |]; try (now left). right.
  exists (Qred (q - 360 * inject_Z (JS.truncate (q / 360)))).
  split; [apply wrap_Fin|]. split.
  - rewrite Qred_correct. apply remainder_range.
  - apply Qred_complete. apply Qred_correct.
Qed.

Lemma wrap_wrap (a : number) : D3.wrap (D3.wrap a) = D3.wrap a.
Proof.
  destruct (wrap_shape a) as [->|(r & -> & Hr & Hred)]; [reflexivity|].
  rewrite (wrap_small r Hr). now rewrite Hred.
Qed.

Lemma wrap3_wrap3 (r : number * number * number) :
  D3.wrap3 (D3.wrap3 r) = D3.wrap3 r.
Proof. unfold D3.wrap3. cbn [fst snd]. now rewrite !wrap_wrap. Qed.

Lemma rotate_with_rotate (r : number * number * number) (p : D3.Projection) :
  D3.rotate (D3.with_rotate r p) = D3.wrap3 r.
Proof. unfold D3.rotate, D3.with_rotate. cbn [D3.angles]. apply wrap3_wrap3. Qed.

Lemma rotate_with_scale (k : number) (p : D3.Projection) :
  D3.rotate (D3.with_scale k p) = D3.rotate p.
Proof. reflexivity. Qed.

Lemma rotate_with_translate (t : number * number) (p : D3.Projection) :
  D3.rotate (D3.with_translate t p) = D3.rotate p.
Proof. reflexivity. Qed.

Lemma rotate_with_precision (d : number) (p : D3.Projection) :
  D3.rotate (D3.with_precision d p) = D3.rotate p.
Proof. reflexivity. Qed.

Lemma rotate_wrapped (p : D3.Projection) : D3.wrap3 (D3.rotate p) = D3.rotate p.
Proof. apply wrap3_wrap3. Qed.

Lemma roll_wrapped (p : D3.Projection) :
  D3.wrap (snd (D3.rotate p)) = snd (D3.rotate p).
Proof. unfold D3.rotate, D3.wrap3. cbn [snd]. apply wrap_wrap. Qed.

(** The angles read from a projection, when finite: within (-360, 360)
    and in lowest terms. *)
Lemma rotate_finite (p : D3.Projection) (a b : Q) (c : number) :
  D3.rotate p = (Fin a, Fin b, c) ->
  ((Qabs a < 360)%Q /\ Qred a = a) /\ ((Qabs b < 360)%Q /\ Qred b = b) /\
  D3.wrap c = c.
Proof.
  unfold D3.rotate, D3.wrap3. intros H. injection H as Ha Hb Hc.
  split; [|split].
  - destruct (wrap_shape (fst (fst (D3.angles p)))) as [E|(r & E & Hr & Hred)];
      rewrite E in Ha; [discriminate|]. injection Ha as <-. now split.
  - destruct (wrap_shape (snd (fst (D3.angles p)))) as [E|(r & E & Hr & Hred)];
      rewrite E in Hb; [discriminate|]. injection Hb as <-. now split.
  - rewrite <- Hc. apply wrap_wrap.
Qed.

(** ** The orientation setter and getter *)

Ltac Qcompare_cases :=
  repeat match goal with
         | |- context [Qcompare ?a ?b] =>
             let E := fresh "E" in
             destruct (Qcompare a b) eqn:E;
             [apply Qeq_alt in E | apply Qlt_alt in E | apply Qgt_alt in E];
             cbn [JS.compare]
         end.

Lemma clamp_identity (m lo hi : Z) :
  lo <= m <= hi -> clamp (JS.of_Z m) (JS.of_Z lo) (JS.of_Z hi) = JS.of_Z m.
Proof.
  intros H. unfold clamp. rewrite min_of_Z, max_of_Z. f_equal. lia.
Qed.

Lemma clamp_within (q : Q) (lo hi : Z) :
  lo <= hi ->
  JS.le (JS.of_Z lo) (clamp (Fin q) (JS.of_Z lo) (JS.of_Z hi)) = true /\
  JS.le (clamp (Fin q) (JS.of_Z lo) (JS.of_Z hi)) (JS.of_Z hi) = true.
Proof.
  intros Hlh.
  assert (HQ : (inject_Z lo <= inject_Z hi)%Q) by (rewrite <- Zle_Qle; lia).
  unfold clamp, JS.min, JS.max, JS.of_Z. cbn [JS.compare].
  Qcompare_cases; rewrite !le_Fin; split; lra.
Qed.
Section OrientationFacts.

Variable geo : D3.Raw -> D3.Projection.
Variable pathBounds : D3.Projection -> Box.
Variable timezoneOffset : number.
Variable floorMod : number -> number -> number.
Variable shortest_decimal : Q -> string.

Local Abbreviation orientation' :=
  (orientation geo pathBounds timezoneOffset floorMod shortest_decimal).
Local Abbreviation fit' := (fit geo pathBounds timezoneOffset floorMod).
Local Abbreviation newProjection' := (newProjection geo timezoneOffset floorMod).
Local Abbreviation roundtrip_agrees' :=
  (roundtrip_agrees geo pathBounds timezoneOffset floorMod shortest_decimal).

Local Abbreviation setter_permissive' :=
  (setter_permissive geo pathBounds timezoneOffset floorMod shortest_decimal).

Lemma toNumber_blank (s : string) :
  JSString.trim s = EmptyString -> JSString.toNumber s = JS.of_Z 0.
Proof. intros H. unfold JSString.toNumber. now rewrite H. Qed.

(** C7 (amended).  The orientation setter is permissive about what its own
    test rejects.  A scale part that is absent, is no numeric literal or
    overflows (its unary plus is not finite) gives the fit-to-view scale;
    every other scale is clamped into [scaleExtent()], and that includes
    an empty or blank part, which is the number 0 and so gives the lower
    end of the extent.  When an angle part is absent, no numeric literal
    or overflowing, the rotation is the variant's default rotation;
    otherwise the angles read as the negated parts modulo 360, with the
    roll kept.  The translate is recentred to [center(view)]. *)
Theorem orientation_setter_permissive (o : string) (view : View.t) (g : Globe) :
  let parts := JSString.split "," o in
  let part i := JSString.unary_plus (parts !! i) in
  match orientation' (Some o) view g with
  | Serialized _ => False
  | Mutated g' =>
      variant g' = variant g /\
      (JS.isFinite (part 2%nat) = false ->
       D3.scale (projection g') = fit' g view) /\
      (forall q, part 2%nat = Fin q ->
         D3.scale (projection g')
         = clamp (Fin q) (fst (scaleExtent g)) (snd (scaleExtent g)) /\
         JS.le (fst (scaleExtent g)) (D3.scale (projection g')) = true /\
         JS.le (D3.scale (projection g')) (snd (scaleExtent g)) = true) /\
      (JS.isFinite (part 0%nat) = false \/ JS.isFinite (part 1%nat) = false ->
       D3.rotate (projection g') = D3.rotate (newProjection' (variant g) view)) /\
      (forall l p, part 0%nat = Fin l -> part 1%nat = Fin p ->
         D3.rotate (projection g')
         = (D3.wrap (JS.neg (Fin l)), D3.wrap (JS.neg (Fin p)),
            snd (D3.rotate (projection g)))) /\
      D3.translate (projection g') = center g view /\
      (forall i, parts !! i = None \/ part_non_numeric parts i ->
         JS.isFinite (part i) = false) /\
      (forall i s, parts !! i = Some s -> JSString.trim s = EmptyString ->
         part i = JS.of_Z 0) /\
      (forall s, parts !! 2%nat = Some s -> JSString.trim s = EmptyString ->
         D3.scale (projection g') = JS.of_Z 25)
  end.
Proof.
  intros parts part. unfold orientation. fold parts.
  change (JSString.unary_plus (parts !! 0%nat)) with (part 0%nat).
  change (JSString.unary_plus (parts !! 1%nat)) with (part 1%nat).
  change (JSString.unary_plus (parts !! 2%nat)) with (part 2%nat).
  cbn [variant projection].
  rewrite rotate_with_translate, rotate_with_scale, rotate_with_rotate.
  cbn [D3.with_translate D3.with_scale D3.scale D3.translate].
  split; [reflexivity|]. split; [|split; [|split; [|split; [|split;
    [reflexivity|split; [|split]]]]]].
  - intros H. now rewrite H.
  - intros q Hq. rewrite Hq. cbn [JS.isFinite].
    split; [reflexivity|]. apply clamp_within. lia.
  - intros [H|H]; rewrite H; rewrite ?andb_false_r; cbn [andb];
      apply rotate_wrapped.
  - intros l p Hl Hp. rewrite Hl, Hp. cbn [JS.isFinite andb].
    unfold D3.wrap3. cbn [fst snd]. now rewrite roll_wrapped.
  - intros i [H|H]; unfold part, JSString.unary_plus.
    + now rewrite H.
    + unfold part_non_numeric in H. destruct (parts !! i); [now rewrite H|contradiction].
  - intros i s Hi Hs. unfold part, JSString.unary_plus. rewrite Hi.
    now apply toNumber_blank.
  - intros s Hi Hs. unfold part, JSString.unary_plus. rewrite Hi.
    rewrite (toNumber_blank s Hs). reflexivity.
Qed.

(** The angles and the scale of a full round trip. *)

Lemma in_range_neg (a : Q) :
  (Qabs a < JSString.ten_pow_21)%Q ->
  Qle_bool JSString.ten_pow_21 (Qabs (Qred (- a))) = false.
Proof.
  intros H. apply not_true_is_false. rewrite Qle_bool_iff.
  rewrite Qred_correct, Qabs_opp. now apply Qlt_not_le.
Qed.

Lemma roundtrip_angle (a : Q) :
  angle_agrees (Fin a) (JS.neg (Fin (round2 (Qred (- a))))).
Proof.
  unfold angle_agrees, JS.sub, JS.neg, JS.add, JS.abs. rewrite le_Fin.
  pose proof (round2_error (Qred (- a))) as H.
  apply Qabs_Qle_condition in H.
  pose proof (Qred_correct (- a)) as Eb.
  set (b := Qred (- a)) in *. clearbody b.
  set (r := round2 b) in *. clearbody r.
  rewrite !Qred_correct. apply Qabs_Qle_condition. split; lra.
Qed.

Lemma round2_floor (q : Q) :
  let n := Qfloor (Qabs q * 100 + (1 # 2)) in
  0 <= n /\
  round2 q = if Qle_bool 0 q then Qred (inject_Z n / 100)
             else Qred (- Qred (inject_Z n / 100)).
Proof.
  cbv zeta. assert (H0 : 0 <= Qfloor (Qabs q * 100 + (1 # 2))).
  { rewrite <- (Qfloor_Z 0). apply Qfloor_resp_le.
    pose proof (Qabs_nonneg q). change (inject_Z 0) with 0%Q. lra. }
  split; [exact H0|]. unfold round2. now rewrite Z2N.id by exact H0.
Qed.

(** Short of 359.995 the printed angle stays short of 360. *)
Lemma round2_below (q : Q) :
  (Qabs q < 359995 # 1000)%Q -> (Qabs (round2 q) < 360)%Q.
Proof.
  intros H. destruct (round2_floor q) as [H0 ->].
  pose proof (Qfloor_le (Qabs q * 100 + (1 # 2))) as Hfl.
  assert (H0' : (0 <= inject_Z (Qfloor (Qabs q * 100 + (1 # 2))))%Q)
    by (change 0%Q with (inject_Z 0); now rewrite <- Zle_Qle).
  set (z := inject_Z (Qfloor (Qabs q * 100 + (1 # 2)))) in *. clearbody z.
  set (x := Qabs q) in *. clearbody x.
  assert (Hz : z / 100 == z * (1 # 100)) by field.
  destruct (Qle_bool 0 q); rewrite ?Qred_correct, ?Qabs_opp, ?Qred_correct, Hz;
    apply Qabs_Qlt_condition; split; lra.
Qed.

(** From 359.995 on it is printed as 360.00. *)
Lemma round2_full_turn (q : Q) :
  (359995 # 1000 <= Qabs q)%Q -> (Qabs q < 360)%Q ->
  round2 q = if Qle_bool 0 q then 360%Q else (- (360))%Q.
Proof.
  intros Hlo Hhi. destruct (round2_floor q) as [_ ->].
  pose proof (Qfloor_le (Qabs q * 100 + (1 # 2))) as Hfl.
  pose proof (Qlt_floor (Qabs q * 100 + (1 # 2))) as Hfu.
  assert (E : Qfloor (Qabs q * 100 + (1 # 2)) = 36000).
  { assert (H1 : (inject_Z 36000 < inject_Z (Qfloor (Qabs q * 100 + (1 # 2)) + 1))%Q).
    { eapply Qle_lt_trans; [|exact Hfu]. change (inject_Z 36000) with 36000%Q.
      set (x := Qabs q) in *. clearbody x. lra. }
    assert (H2 : (inject_Z (Qfloor (Qabs q * 100 + (1 # 2))) < inject_Z 36001)%Q).
    { eapply Qle_lt_trans; [exact Hfl|].
      change (inject_Z 36001) with 36001%Q.
      set (x := Qabs q) in *. clearbody x. lra. }
    rewrite <- Zlt_Qlt in H1, H2. lia. }
  rewrite E. destruct (Qle_bool 0 q); reflexivity.
Qed.

(** One angle of the round trip, as [rotate()] reads it afterwards. *)
Lemma roundtrip_angle_read (a : Q) :
  (Qabs a < 360)%Q ->
  let a' := D3.wrap (JS.neg (Fin (round2 (Qred (- a))))) in
  ((Qabs a < 359995 # 1000)%Q -> angle_agrees (Fin a) a') /\
  ((359995 # 1000 <= Qabs a)%Q -> a' = JS.of_Z 0).
Proof.
  intros Ha. cbv zeta.
  assert (Hn : Qabs (Qred (- a)) == Qabs a) by now rewrite Qred_correct, Qabs_opp.
  split.
  - intros Hlt. cbn [JS.neg]. rewrite wrap_small.
    + assert (E : Qred (Qred (- round2 (Qred (- a)))) = Qred (- round2 (Qred (- a))))
        by (apply Qred_complete, Qred_correct).
      rewrite E. apply (roundtrip_angle a).
    + rewrite Qred_correct, Qabs_opp. apply round2_below. now rewrite Hn.
  - intros Hge. rewrite round2_full_turn by now rewrite Hn.
    destruct (Qle_bool 0 (Qred (- a))); reflexivity.
Qed.

(** C4 (amended).  For a globe whose rotation angles and scale are finite
    (the scale below 10^21 in magnitude, where [Math.round] still prints
    digits), the setter applied to the getter's string
    - leaves each angle within 0.01 degrees of the prior one, unless the
      prior angle is within 0.005 degrees of a full turn, in which case it
      is printed as 360.00 and reads back 0;
    - keeps the roll;
    - sets the scale to the prior one rounded to the nearest integer and
      clamped into [scaleExtent()]: the rounded scale itself when that lies
      in the extent, the nearer end of the extent otherwise;
    - recentres the translate.
    So the round trip agrees as the specification says when both angles
    are short of 359.995 in magnitude and the rounded scale is in the
    extent. *)
Theorem orientation_roundtrip (view : View.t) (g : Globe) (a b s : Q) (c : number) :
  D3.rotate (projection g) = (Fin a, Fin b, c) ->
  D3.scale (projection g) = Fin s ->
  Z.abs (Qfloor (s + (1 # 2))) < 10 ^ 21 ->
  match orientation' None view g with
  | Serialized o =>
      match orientation' (Some o) view g with
      | Mutated g' =>
          ((Qabs a < 359995 # 1000)%Q ->
           angle_agrees (Fin a) (fst (fst (D3.rotate (projection g'))))) /\
          ((359995 # 1000 <= Qabs a)%Q ->
           fst (fst (D3.rotate (projection g'))) = JS.of_Z 0) /\
          ((Qabs b < 359995 # 1000)%Q ->
           angle_agrees (Fin b) (snd (fst (D3.rotate (projection g'))))) /\
          ((359995 # 1000 <= Qabs b)%Q ->
           snd (fst (D3.rotate (projection g'))) = JS.of_Z 0) /\
          snd (D3.rotate (projection g')) = c /\
          D3.scale (projection g')
          = clamp (JS.round (Fin s)) (fst (scaleExtent g)) (snd (scaleExtent g)) /\
          (25 <= Qfloor (s + (1 # 2)) <= 3000 ->
           D3.scale (projection g') = JS.round (Fin s)) /\
          variant g' = variant g /\
          D3.translate (projection g') = center g view
      | Serialized _ => False
      end
  | Mutated _ => False
  end /\
  ((Qabs a < 359995 # 1000)%Q -> (Qabs b < 359995 # 1000)%Q ->
   25 <= Qfloor (s + (1 # 2)) <= 3000 -> roundtrip_agrees' view g).
Proof.
  intros Hrot Hscale Hm.
  destruct (rotate_finite _ _ _ _ Hrot) as ((Ha & _) & (Hb & _) & Hc).
  assert (Hbig : forall x : Q, (Qabs x < 360)%Q -> (Qabs x < JSString.ten_pow_21)%Q).
  { intros x Hx. eapply Qlt_trans; [exact Hx|]. reflexivity. }
  pose proof (in_range_neg a (Hbig a Ha)) as Ha'.
  pose proof (in_range_neg b (Hbig b Hb)) as Hb'.
  unfold roundtrip_agrees, orientation. rewrite Hrot, Hscale.
  cbn [fst snd JS.neg JS.round].
  set (m := Qfloor (s + (1 # 2))) in *.
  assert (Hc3 : JSString.string_forall is_decimal_char
                  (JSString.toString shortest_decimal (JS.of_Z m)) = true).
  { rewrite (toString_integer shortest_decimal m Hm).
    rewrite string_forall_app.
    rewrite (string_forall_impl _ _ _ digit_is_decimal_char
               (digits_of_N_digits _)).
    now destruct (0 <=? m). }
  rewrite (split_join3 _ _ _
             (toFixed2_chars shortest_decimal _ Ha')
             (toFixed2_chars shortest_decimal _ Hb') Hc3).
  cbn [lookup list_lookup JSString.unary_plus].
  rewrite (toNumber_toFixed2 shortest_decimal _ Ha').
  rewrite (toNumber_toFixed2 shortest_decimal _ Hb').
  rewrite (toNumber_toString_integer shortest_decimal m Hm).
  cbn [JS.isFinite andb projection variant scaleExtent fst snd].
  rewrite rotate_with_translate, rotate_with_scale, rotate_with_rotate.
  cbn [D3.with_translate D3.with_scale D3.scale D3.translate].
  unfold D3.wrap3. cbn [fst snd].
  destruct (roundtrip_angle_read a Ha) as [Ha1 Ha2].
  destruct (roundtrip_angle_read b Hb) as [Hb1 Hb2].
  cbv zeta in Ha1, Ha2, Hb1, Hb2. cbn [JS.neg] in Ha1, Ha2, Hb1, Hb2.
  split.
  - split; [exact Ha1|]. split; [exact Ha2|]. split; [exact Hb1|].
    split; [exact Hb2|]. split; [exact Hc|]. split; [reflexivity|].
    split; [|split; reflexivity].
    intros Hs. apply (clamp_identity m 25 3000 Hs).
  - intros Hal Hbl Hs. split; [exact (Ha1 Hal)|]. split; [exact (Hb1 Hbl)|].
    apply (clamp_identity m 25 3000 Hs).
Qed.

End OrientationFacts.

Lemma orientation_setter_permissive_witness :
  match orientation sample_geo disc_bounds sample_timezoneOffset sample_floorMod
          sample_shortest_decimal (Some "10,abc,5000"%string) sample_view
          sample_globe with
  | Serialized _ => False
  | Mutated g' =>
      D3.scale (projection g') = JS.of_Z 3000 /\
      D3.rotate (projection g')
      = D3.rotate (newProjection sample_geo sample_timezoneOffset sample_floorMod
                     orthographic sample_view)
  end.
Proof.
  pose proof (orientation_setter_permissive sample_geo disc_bounds
                sample_timezoneOffset sample_floorMod sample_shortest_decimal
                "10,abc,5000" sample_view sample_globe) as H.
  cbv zeta in H.
  destruct (orientation _ _ _ _ _ _ _ _) as [|g']; [exact H|].
  destruct H as (_ & _ & Hs & Hr & _). split.
  - exact (proj1 (Hs 5000%Q eq_refl)).
  - apply Hr. right. reflexivity.
Defined.

(** An empty part is a numeric literal for [StringToNumber]: its value is
    0, which is finite, so an empty scale part is clamped to the lower end
    of the extent, and empty angle parts give the angles 0. *)
Example orientation_empty_scale_part :
  match orientation sample_geo disc_bounds sample_timezoneOffset sample_floorMod
          sample_shortest_decimal (Some "10,20,"%string) sample_view sample_globe with
  | Serialized _ => False
  | Mutated g' => D3.scale (projection g') = JS.of_Z 25
  end.
Proof. reflexivity. Qed.

Example orientation_empty_angle_parts :
  match orientation sample_geo disc_bounds sample_timezoneOffset sample_floorMod
          sample_shortest_decimal (Some ",,300"%string) sample_view sample_globe with
  | Serialized _ => False
  | Mutated g' =>
      D3.rotate (projection g') = (JS.of_Z 0, JS.of_Z 0, JS.of_Z 0) /\
      D3.rotate (newProjection sample_geo sample_timezoneOffset sample_floorMod
                   orthographic sample_view)
      = (JS.of_Z 330, JS.of_Z 0, JS.of_Z 0)
  end.
Proof. split; reflexivity. Qed.

(** A literal too large for a double is [Infinity], which is not finite:
    the scale is the fit-to-view scale. *)
Example orientation_overflowing_scale_part :
  match orientation sample_geo disc_bounds sample_timezoneOffset sample_floorMod
          sample_shortest_decimal (Some "10,20,1e400"%string) sample_view
          sample_globe with
  | Serialized _ => False
  | Mutated g' =>
      JSString.toNumber "1e400" = PInf /\
      D3.scale (projection g')
      = fit sample_geo disc_bounds sample_timezoneOffset sample_floorMod
          sample_globe sample_view
  end.
Proof. split; vm_compute; reflexivity. Qed.

(** C7, as stated, fails: in ["10,20,"] the scale part is missing, and the
    scale is set to 25, the lower end of the extent, not to the fit-to-view
    scale. *)
Lemma setter_permissive_blank_scale :
  ~ setter_permissive sample_geo disc_bounds sample_timezoneOffset sample_floorMod
      sample_shortest_decimal "10,20," sample_view sample_globe.
Proof.
  unfold setter_permissive. cbv zeta. intros (Hs & _).
  assert (Hmissing : part_unusable (JSString.split "," "10,20,") 2)
    by (left; reflexivity).
  specialize (Hs Hmissing). vm_compute in Hs. discriminate Hs.
Qed.

(** C4, as stated, fails: a globe zoomed out to scale 10 comes back from
    the round trip with scale 25, the lower end of the extent. *)
Lemma orientation_roundtrip_clamps :
  ~ roundtrip_agrees sample_geo disc_bounds sample_timezoneOffset sample_floorMod
      sample_shortest_decimal sample_view zoomed_out_globe.
Proof.
  unfold roundtrip_agrees. vm_compute. intros (_ & _ & H). discriminate H.
Qed.

(** It fails for the angles too: a longitude angle of 359.996 is printed
    as 360.00 and reads back 0. *)
Example orientation_roundtrip_wraps :
  let g := mkGlobe orthographic
             (D3.with_rotate (Fin (359996 # 1000), JS.of_Z 0, JS.of_Z 0)
                             (projection sample_globe)) in
  D3.rotate (projection g) = (Fin (89999 # 250), JS.of_Z 0, JS.of_Z 0) /\
  match orientation sample_geo disc_bounds sample_timezoneOffset sample_floorMod
          sample_shortest_decimal None sample_view g with
  | Serialized o =>
      match orientation sample_geo disc_bounds sample_timezoneOffset
              sample_floorMod sample_shortest_decimal (Some o) sample_view g with
      | Mutated g' => D3.rotate (projection g') = (JS.of_Z 0, JS.of_Z 0, JS.of_Z 0)
      | Serialized _ => False
      end
  | Mutated _ => False
  end.
Proof. split; vm_compute; reflexivity. Qed.

Lemma orientation_roundtrip_witness :
  roundtrip_agrees sample_geo disc_bounds sample_timezoneOffset sample_floorMod
    sample_shortest_decimal sample_view sample_globe.
Proof.
  refine (proj2 (orientation_roundtrip sample_geo disc_bounds
                   sample_timezoneOffset sample_floorMod sample_shortest_decimal
                   sample_view sample_globe 330 0 (499 # 2) (JS.of_Z 0)
                   _ _ _) _ _ _).
  - reflexivity.
  - reflexivity.
  - vm_compute. reflexivity.
  - reflexivity.
  - reflexivity.
  - vm_compute. split; discriminate.
Defined.
(** ** Gesture classification *)

Section GestureFacts.

Variable distance : number * number -> number * number -> number.

Local Abbreviation on_zoom' := (on_zoom distance).
Local Abbreviation classification' := (classification distance).
Local Abbreviation types_run' := (types_run distance).

Lemma on_zoom_type (m : number * number) (s : number) (c : Controller) (o : Op.t) :
  op c = Some o ->
  exists o', op (on_zoom' m s c) = Some o' /\
             Op.startMouse o' = Op.startMouse o /\
             Op.startScale o' = Op.startScale o /\
             Op.type o' = next_type (Op.type o) (distance m (Op.startMouse o)) s
                            (Op.startScale o).
Proof.
  intros Hop. unfold on_zoom, ensure_op. rewrite Hop.
  unfold next_type.
  destruct (Op.type o) eqn:Ht;
    try destruct (JS.strict_eq s (Op.startScale o) && JS.lt _ MIN_MOVE);
    cbn [Op.with_type Op.startScale Op.type];
    try destruct (JS.loose_ne s (Op.startScale o));
    eexists; (split; [reflexivity|]); cbn; auto.
Qed.

Lemma interaction_types (start : number * number) events :
  forall (c : Controller) (o : Op.t),
    op c = Some o -> Op.startMouse o = start -> Op.startScale o = zoomIdentity_k ->
    Op.type <$> op (fold_left (fun c e => on_zoom' (fst e) (snd e) c) events c)
    = Some (types_run' start (Op.type o) events).
Proof.
  induction events as [|e events IH]; intros c o Hop Hm Hs.
  - cbn. now rewrite Hop.
  - cbn [fold_left].
    destruct (on_zoom_type (fst e) (snd e) c o Hop) as (o' & Hop' & Hm' & Hs' & Ht').
    rewrite (IH _ o' Hop'); [| congruence | congruence].
    unfold types_run. cbn [fold_left]. now rewrite Ht', Hm, Hs.
Qed.

Lemma classification_types (start : number * number) events (c : Controller) :
  op c = None ->
  classification' start events c = Some (types_run' start click events).
Proof.
  intros Hop. unfold classification, interaction.
  unfold on_zoomstart, ensure_op. rewrite Hop. unfold newOp.
  destruct (manipulator start zoomIdentity_k (globe c)) as [m g'].
  now rewrite (interaction_types start events
                 (mkController g' (Some (Op.mk click start zoomIdentity_k m))
                    (dispatched c))
                 (Op.mk click start zoomIdentity_k m) eq_refl eq_refl eq_refl).
Qed.

Lemma types_run_cons (start : number * number) (t : OpType) e events :
  types_run' start t (e :: events)
  = types_run' start (next_type t (distance (fst e) start) (snd e) zoomIdentity_k) events.
Proof. reflexivity. Qed.

Lemma types_run_zoom (start : number * number) events :
  types_run' start zoom events = zoom.
Proof. induction events as [|e events IH]; [reflexivity|exact IH]. Qed.

Lemma next_type_scale_change (t : OpType) (d s s0 : number) :
  JS.loose_ne s s0 = true -> next_type t d s s0 = zoom.
Proof.
  unfold next_type, JS.loose_ne. intros H.
  destruct (JS.strict_eq s s0); [discriminate|]. now destruct t.
Qed.

Lemma types_run_scale_change (start : number * number) events :
  forall t,
    Exists (fun e => JS.loose_ne (snd e) zoomIdentity_k = true) events ->
    types_run' start t events = zoom.
Proof.
  induction events as [|e events IH]; intros t H; inversion H; subst.
  - rewrite types_run_cons.
    rewrite next_type_scale_change by assumption. apply types_run_zoom.
  - rewrite types_run_cons. now apply IH.
Qed.

Lemma types_run_small (start : number * number) events :
  forall t,
    t = click \/ t = spurious ->
    Forall (fun e => JS.strict_eq (snd e) zoomIdentity_k = true /\
                     JS.lt (distance (fst e) start) MIN_MOVE = true) events ->
    types_run' start t events
    = match last events with
      | None => t
      | Some e => if JS.gt (distance (fst e) start) (JS.of_Z 0) then click else spurious
      end.
Proof.
  induction events as [|e events IH]; intros t Ht H; [reflexivity|].
  inversion H as [|? ? [Hs Hd] Hrest]; subst.
  rewrite types_run_cons.
  assert (Hnext : next_type t (distance (fst e) start) (snd e) zoomIdentity_k
                  = if JS.gt (distance (fst e) start) (JS.of_Z 0) then click else spurious).
  { unfold next_type. rewrite Hs, Hd. now destruct Ht as [-> | ->]. }
  rewrite Hnext.
  rewrite IH; [| now destruct (JS.gt _ _); auto | exact Hrest].
  destruct events as [|e' events]; [reflexivity|].
  rewrite last_cons_cons.
  destruct (last (e' :: events)) eqn:E; [reflexivity|].
  now apply last_None in E.
Qed.

Lemma types_run_drag (start : number * number) events :
  Forall (fun e => JS.strict_eq (snd e) zoomIdentity_k = true) events ->
  types_run' start drag events = drag.
Proof.
  induction events as [|e events IH]; intros H; [reflexivity|].
  inversion H as [|? ? Hs Hrest]; subst.
  rewrite types_run_cons. cbn [next_type]. unfold JS.loose_ne.
  rewrite Hs. now apply IH.
Qed.

Lemma types_run_far (start : number * number) events :
  forall t,
    t <> zoom ->
    Forall (fun e => JS.strict_eq (snd e) zoomIdentity_k = true) events ->
    Exists (fun e => JS.lt (distance (fst e) start) MIN_MOVE = false) events ->
    types_run' start t events = drag.
Proof.
  induction events as [|e events IH]; intros t Ht Hall Hex;
    inversion Hex; inversion Hall; subst.
  - rewrite types_run_cons.
    assert (Hnext : next_type t (distance (fst e) start) (snd e) zoomIdentity_k = drag).
    { unfold next_type, JS.loose_ne.
      match goal with H : JS.strict_eq _ _ = true |- _ => rewrite H end.
      match goal with H : JS.lt _ _ = false |- _ => rewrite H end.
      now destruct t. }
    rewrite Hnext. now apply types_run_drag.
  - rewrite types_run_cons. apply IH; try assumption.
    unfold next_type, JS.loose_ne.
    match goal with H : JS.strict_eq _ _ = true |- _ => rewrite H end.
    destruct t; try congruence; cbn;
      repeat match goal with |- context [if ?b then _ else _] => destruct b end;
      discriminate.
Qed.


End GestureFacts.

(** What pointer-up dispatches follows the type: a click for [click],
    nothing for [spurious], the debounced end-of-move signal otherwise. *)
Lemma zoomend_dispatch
    (invert : D3.Projection -> number * number -> option (number * number))
    (c : Controller) (o : Op.t) :
  op c = Some o ->
  exists c', on_zoomend invert c = Some c' /\ op c' = None /\
    dispatched c'
    = dispatched c
      ++ match Op.type o with
         | click => [Click (Op.startMouse o) (invert (projection (globe c')) (Op.startMouse o))]
         | spurious => []
         | _ => [SignalEnd]
         end.
Proof.
  intros Hop. unfold on_zoomend. rewrite Hop. eexists. split; [reflexivity|].
  split; [reflexivity|]. cbn [dispatched globe].
  destruct (Op.type o); try reflexivity. now rewrite app_nil_r.
Qed.


(** ** The registry *)

Section RegistryFacts.

Variable geo : D3.Raw -> D3.Projection.
Variable timezoneOffset : number.
Variable floorMod : number -> number -> number.
Variable view : View.t.

Local Abbreviation globes' := (globes geo timezoneOffset floorMod).
Local Abbreviation buildGlobe' := (buildGlobe geo timezoneOffset floorMod view).

Lemma globes_registered (name : ProjectionName) :
  globes' !! registry_key name = Some (builder geo timezoneOffset floorMod name).
Proof. destruct name; reflexivity. Qed.

Lemma globes_keys (key : string) :
  is_Some (globes' !! key) <-> exists name, key = registry_key name.
Proof.
  split.
  - intros [b Hb]. unfold globes in Hb.
    apply elem_of_list_to_map_2 in Hb.
    repeat (apply elem_of_cons in Hb; destruct Hb as [Hb|Hb];
            [inversion Hb;
             first [ now exists atlantis | now exists azimuthal_equidistant
                   | now exists conic_equidistant | now exists equirectangular
                   | now exists orthographic | now exists stereographic
                   | now exists waterman | now exists winkel3 ]|]).
    inversion Hb.
  - intros [name ->]. rewrite globes_registered. eauto.
Qed.

(** An unregistered name is rejected at once, and no globe is created. *)
Lemma buildGlobe_unknown (key : string) :
  (forall name, key <> registry_key name) ->
  buildGlobe' key = (Normal (Rejected ("Unknown projection: " +:+ key)), []).
Proof.
  intros Hkey. unfold buildGlobe.
  destruct (globes' !! key) as [b|] eqn:E; [|reflexivity].
  destruct (proj1 (globes_keys key) (ex_intro _ b E)) as [name ->].
  now destruct (Hkey name).
Qed.

(** C5 (the code at a registered name).  For each of the eight registered
    names, [buildGlobe] creates the globe and then throws a [TypeError]:
    the globe object it passes to [new Promise] is not callable. *)
Theorem buildGlobe_registered_throws (name : ProjectionName) :
  buildGlobe' (registry_key name)
  = (Throw (TypeError "Promise resolver is not a function"),
     [newGlobe geo timezoneOffset floorMod name view]).
Proof.
  unfold buildGlobe. now rewrite globes_registered.
Qed.

End RegistryFacts.

Example buildGlobe_mercator :
  buildGlobe sample_geo sample_timezoneOffset sample_floorMod sample_view "mercator"
  = (Normal (Rejected "Unknown projection: mercator"), []).
Proof. reflexivity. Qed.

Example buildGlobe_orthographic :
  buildGlobe sample_geo sample_timezoneOffset sample_floorMod sample_view "orthographic"
  = (Throw (TypeError "Promise resolver is not a function"), [sample_globe]).
Proof. reflexivity. Qed.
(** ** Distortion of a wind vector *)

Lemma array_set_lookup_gt (a : list value) (i j : nat) (v : value) :
  (i < j)%nat -> array_set a i v !! j = a !! j.
Proof.
  intros Hij. unfold array_set.
  destruct (Nat.ltb_spec i (length a)) as [Hlt|Hge].
  - apply list_lookup_insert_ne. lia.
  - rewrite (lookup_ge_None_2 a j) by lia.
    apply lookup_ge_None_2.
    rewrite !length_app, length_replicate. cbn. lia.
Qed.

Section DistortFacts.

Variable distortion : D3.Projection -> number -> number -> number -> number -> Distortion.

(** C8.  [distort] returns the very array it was given, mutated in place:
    its first two components become the scaled geographic vector
    [(u * scale, v * scale)] taken through the distortion map of the
    projection at the point. *)
Theorem distort_through_map (projection : D3.Projection)
    (lambda phi x y scale : number) (wind : loc) (h : Heap)
    (u v : number) (m : value) :
  h !! wind = Some [VNum u; VNum v; m] ->
  let screen :=
    through_map (distortion projection lambda phi x y)
                (JS.mul u scale, JS.mul v scale) in
  distort distortion projection lambda phi x y scale wind h
  = (wind, <[wind := [VNum (fst screen); VNum (snd screen); m]]> h).
Proof.
  intros Hw. unfold distort, deref, through_map. rewrite Hw.
  now destruct (distortion projection lambda phi x y) as [[[d0 d1] d2] d3].
Qed.

(** C10.  [distort] writes indices 0 and 1 of the wind vector only: the
    third component (and anything after it) is what it was, and no other
    array of the store changes. *)
Theorem distort_keeps_magnitude (projection : D3.Projection)
    (lambda phi x y scale : number) (wind : loc) (h : Heap) :
  let r := distort distortion projection lambda phi x y scale wind h in
  fst r = wind /\
  array_get (deref (snd r) wind) 2 = array_get (deref h wind) 2 /\
  (forall i, (2 <= i)%nat -> deref (snd r) wind !! i = deref h wind !! i) /\
  (forall l, l <> wind -> snd r !! l = h !! l).
Proof.
  cbv zeta. unfold distort.
  destruct (distortion projection lambda phi x y) as [[[d0 d1] d2] d3].
  cbn [fst snd].
  set (arr' := array_set (array_set (deref h wind) 0 _) 1 _).
  assert (Hi : forall i, (2 <= i)%nat ->
            deref (<[wind := arr']> h) wind !! i = deref h wind !! i).
  { intros i Hi. unfold deref at 1. rewrite lookup_insert_eq. simpl.
    unfold arr'. rewrite !array_set_lookup_gt by lia. reflexivity. }
  repeat split.
  - unfold array_get. now rewrite Hi.
  - exact Hi.
  - intros l Hl. now apply lookup_insert_ne.
Qed.

End DistortFacts.

Lemma distort_through_map_witness :
  distort (fun _ _ _ _ _ => (JS.of_Z 1, JS.of_Z 0, JS.of_Z 0, JS.of_Z (-1)))
    (sample_geo D3.geoOrthographic) (JS.of_Z 0) (JS.of_Z 0) (JS.of_Z 5) (JS.of_Z 7)
    (JS.of_Z 2) 3%positive
    (<[3%positive := [VNum (JS.of_Z 4); VNum (JS.of_Z 6); VNum (JS.of_Z 9)]]> initial_heap)
  = (3%positive,
     <[3%positive := [VNum (JS.of_Z 8); VNum (JS.of_Z (-12)); VNum (JS.of_Z 9)]]>
       (<[3%positive := [VNum (JS.of_Z 4); VNum (JS.of_Z 6); VNum (JS.of_Z 9)]]>
          initial_heap)).
Proof.
  exact (distort_through_map
           (fun _ _ _ _ _ => (JS.of_Z 1, JS.of_Z 0, JS.of_Z 0, JS.of_Z (-1)))
           (sample_geo D3.geoOrthographic) (JS.of_Z 0) (JS.of_Z 0) (JS.of_Z 5)
           (JS.of_Z 7) (JS.of_Z 2) 3%positive _ (JS.of_Z 4) (JS.of_Z 6)
           (VNum (JS.of_Z 9)) (lookup_insert_eq _ _ _)).
Defined.

(** ** The field: lookup, release and randomize *)

Lemma lookup_no_columns (f : Field.t) (x y : number) :
  Field.columns f = ∅ -> Field.lookup f x y = NULL_WIND_VECTOR.
Proof.
  intros Hcols. unfold Field.lookup. rewrite Hcols.
  destruct (Field.array_index (JS.round x)) as [i|]; cbn; [|reflexivity].
  now rewrite lookup_empty.
Qed.

(** C9.  After [release()], [lookup] at any coordinates, whole or not,
    finite or not, returns the "outside boundary" sentinel; the lookup is
    a total function, so nothing is raised. *)
Theorem lookup_after_release (f : Field.t) (x y : number) :
  Field.lookup (Field.release f) x y = NULL_WIND_VECTOR.
Proof. now apply lookup_no_columns. Qed.

Lemma isDefined_inside (f : Field.t) (h : Heap) (x y : number) :
  array_get (deref h NULL_WIND_VECTOR) 2 = VNull ->
  Field.isDefined f h x y = true -> Field.isInsideBoundary f x y = true.
Proof.
  intros Hnull. unfold Field.isDefined, Field.isInsideBoundary.
  destruct (Pos.eqb_spec (Field.lookup f x y) NULL_WIND_VECTOR) as [->|];
    [|reflexivity].
  now rewrite Hnull.
Qed.

Section RandomizeFacts.

Variable random : nat -> number -> number -> number.

Local Abbreviation attempt' := (Field.attempt random).

Lemma randomize_loop_spec (f : Field.t) (h : Heap) (fuel : nat) :
  forall k : nat,
    (k <= 30)%nat -> (30 - k < fuel)%nat ->
    (forall i, (i < k)%nat ->
       Field.isDefined f h (fst (attempt' f i)) (snd (attempt' f i)) = false) ->
    exists n : nat,
      (k <= n <= 30)%nat /\
      Field.randomize_loop random f h fuel (Z.of_nat k) (2 * k)
      = Some (attempt' f n, Z.of_nat n + 1) /\
      (forall i, (i < n)%nat ->
         Field.isDefined f h (fst (attempt' f i)) (snd (attempt' f i)) = false) /\
      (Field.isDefined f h (fst (attempt' f n)) (snd (attempt' f n)) = true \/ n = 30%nat).
Proof.
  induction fuel as [|fuel IH]; intros k Hk Hfuel Hprev; [lia|].
  cbn [Field.randomize_loop].
  change (JS.round (random (2 * k) _ _)) with (fst (attempt' f k)).
  change (JS.round (random (S (2 * k)) _ _)) with (snd (attempt' f k)).
  destruct (Field.isDefined f h (fst (attempt' f k)) (snd (attempt' f k))) eqn:Hdef.
  - exists k. cbn [negb andb]. repeat split; try lia; auto.
  - cbn [negb andb]. destruct (Z.ltb_spec (Z.of_nat k) 30) as [Hlt|Hge].
    + destruct (IH (S k)) as (n & Hn & Hrun & Hund & Hlast); [lia|lia| |].
      { intros i Hi. destruct (Nat.eq_dec i k) as [->|]; [exact Hdef|].
        apply Hprev. lia. }
      exists n. repeat split; try lia; auto.
      replace (Z.of_nat k + 1) with (Z.of_nat (S k)) by lia.
      replace (2 * k + 2)%nat with (2 * S k)%nat by lia. exact Hrun.
    + exists k. assert (k = 30%nat) by lia. subst k.
      repeat split; try lia; auto.
Qed.

(** C3 (amended).  [randomize] draws at most 31 points (a first attempt and
    up to 30 retries) and returns the last one drawn.  Every earlier attempt
    was undefined; the returned point is defined (and so inside the
    boundary) unless all 31 attempts were undefined. *)
Theorem randomize_returns_last_attempt (f : Field.t) (h : Heap) :
  exists n : nat,
    (n <= 30)%nat /\
    Field.randomize random f h = Some (attempt' f n) /\
    (forall i, (i < n)%nat ->
       Field.isDefined f h (fst (attempt' f i)) (snd (attempt' f i)) = false) /\
    (Field.isDefined f h (fst (attempt' f n)) (snd (attempt' f n)) = true \/ n = 30%nat) /\
    (array_get (deref h NULL_WIND_VECTOR) 2 = VNull ->
     Field.isDefined f h (fst (attempt' f n)) (snd (attempt' f n)) = true ->
     Field.isInsideBoundary f (fst (attempt' f n)) (snd (attempt' f n)) = true).
Proof.
  destruct (randomize_loop_spec f h 32 0) as (n & Hn & Hrun & Hund & Hlast);
    [lia|lia|intros i Hi; lia|].
  exists n. unfold Field.randomize.
  change (Z.of_nat 0) with 0 in Hrun. change (2 * 0)%nat with 0%nat in Hrun.
  rewrite Hrun. repeat split; try lia; auto.
  intros Hnull. now apply isDefined_inside.
Qed.

End RandomizeFacts.

(** C3, as stated, fails: in a field with nothing in it every attempt is
    undefined, and the point returned after the last attempt is outside the
    boundary. *)
Lemma randomize_outside_boundary :
  ~ Field.randomize_inside_boundary lowest_random empty_field initial_heap.
Proof.
  intros (p & _ & Hin). unfold Field.isInsideBoundary in Hin.
  rewrite lookup_no_columns in Hin by reflexivity. discriminate Hin.
Qed.

Lemma randomize_returns_last_attempt_witness :
  Field.isInsideBoundary empty_field (JS.of_Z 0) (JS.of_Z 0) = false /\
  exists n : nat,
    (n <= 30)%nat /\
    Field.randomize lowest_random empty_field initial_heap
    = Some (Field.attempt lowest_random empty_field n).
Proof.
  split; [reflexivity|].
  destruct (randomize_returns_last_attempt lowest_random empty_field initial_heap)
    as (n & Hn & Hr & _).
  exists n. split; [exact Hn|exact Hr].
Defined.
(** ** The mask under the sweep's writes *)

Lemma data_get_set_ne (d : list Z) (i j v : Z) :
  i <> j -> Mask.data_get (Mask.data_set d i v) j = Mask.data_get d j.
Proof.
  intros Hij. unfold Mask.data_get, Mask.data_set.
  destruct (Z.ltb_spec j 0); [reflexivity|].
  destruct (Z.ltb_spec i 0); [reflexivity|].
  apply list_lookup_insert_ne. lia.
Qed.

Lemma pixel_index_inj (w a b x y : Z) :
  0 <= a < w -> 0 <= x < w -> b * w + a = y * w + x -> a = x /\ b = y.
Proof.
  intros Ha Hx H.
  assert (Hb : b = y) by nia. subst. split; lia.
Qed.

Lemma isVisible_set_other (m : Mask.t) (a b x y : Z) (color : Z * Z * Z * Z) :
  0 <= a < Mask.width m -> 0 <= x < Mask.width m ->
  (a, b) <> (x, y) ->
  Mask.isVisible (Mask.set a b color m) x y = Mask.isVisible m x y.
Proof.
  intros Ha Hx Hne. unfold Mask.isVisible, Mask.set.
  destruct color as [[[r g] bl] al]. cbn [Mask.width Mask.data].
  assert (Hidx : b * Mask.width m + a <> y * Mask.width m + x).
  { intros H. apply pixel_index_inj in H as [? ?]; [congruence|lia|lia]. }
  now rewrite !data_get_set_ne by lia.
Qed.

Lemma width_set (m : Mask.t) (a b : Z) (color : Z * Z * Z * Z) :
  Mask.width (Mask.set a b color m) = Mask.width m.
Proof. unfold Mask.set. now destruct color as [[[r g] bl] al]. Qed.

(** The four writes of one block leave every pixel outside the block as
    it was. *)
Lemma isVisible_block_other (m : Mask.t) (bx by_ x y : Z) (color : Z * Z * Z * Z) :
  0 <= bx -> bx + 1 < Mask.width m -> 0 <= x < Mask.width m ->
  ~ (bx <= x <= bx + 1 /\ by_ <= y <= by_ + 1) ->
  Mask.isVisible
    (Mask.set (bx + 1) (by_ + 1) color
       (Mask.set bx (by_ + 1) color
          (Mask.set (bx + 1) by_ color (Mask.set bx by_ color m)))) x y
  = Mask.isVisible m x y.
Proof.
  intros H0 H1 Hx Hout.
  rewrite !isVisible_set_other; rewrite ?width_set; try lia; try reflexivity;
    intros H; inversion H; lia.
Qed.

(** ** The store under the sweep *)

Lemma heap_extends_refl (h : Heap) : heap_extends h h.
Proof. now intros l _. Qed.

Lemma heap_extends_trans (h1 h2 h3 : Heap) :
  heap_extends h1 h2 -> heap_extends h2 h3 -> heap_extends h1 h3.
Proof.
  intros H12 H23 l Hl. rewrite <- (H12 l Hl). apply H23.
  apply elem_of_dom. rewrite (H12 l Hl). now apply elem_of_dom.
Qed.

Lemma heap_extends_lookup (h h' : Heap) (l : loc) (arr : list value) :
  heap_extends h h' -> h !! l = Some arr -> h' !! l = Some arr.
Proof.
  intros Hext Hl. rewrite (Hext l); [exact Hl|].
  apply elem_of_dom. eauto.
Qed.

Lemma sentinels_intact_extends (h h' : Heap) :
  heap_extends h h' -> sentinels_intact h -> sentinels_intact h'.
Proof.
  intros Hext [Hn Hh]. split; eapply heap_extends_lookup; eauto.
Qed.

Lemma cell_ok_extends (h h' : Heap) visible vector cell :
  heap_extends h h' -> cell_ok h visible vector cell -> cell_ok h' visible vector cell.
Proof.
  intros Hext. unfold cell_ok. destruct visible; [|auto].
  destruct vector as [arr|]; [|auto].
  intros (w & Hc & Hn & Hh & Hw). exists w. repeat split; auto.
  eapply heap_extends_lookup; eauto.
Qed.

Section InterpolateFacts.

Variable distortion : D3.Projection -> number -> number -> number -> number -> Distortion.
Variable invert : D3.Projection -> number * number -> option (number * number).
Variable projection : D3.Projection.
Variable grids : Grids.
Variable bounds : IBounds.t.

Local Abbreviation interpolatePixel' :=
  (interpolatePixel distortion invert projection grids bounds).
Local Abbreviation sample_vector' :=
  (sample_vector distortion invert projection grids bounds).
Local Abbreviation interpolateColumn' :=
  (interpolateColumn distortion invert projection grids bounds).
Local Abbreviation interpolateField' :=
  (interpolateField distortion invert projection grids bounds).

Lemma interpolatePixel_invisible (x y : Z) (s : ColumnState) :
  Mask.isVisible (column_mask s) x y = false -> interpolatePixel' x y s = s.
Proof. intros H. unfold interpolatePixel. now rewrite H. Qed.

Lemma interpolatePixel_visible (x y : Z) (s : ColumnState) :
  Mask.isVisible (column_mask s) x y = true ->
  exists v color,
    column (interpolatePixel' x y s) = <[y + 1 := v]> (<[y := v]> (column s)) /\
    column_mask (interpolatePixel' x y s)
    = Mask.set (x + 1) (y + 1) color
        (Mask.set x (y + 1) color
           (Mask.set (x + 1) y color (Mask.set x y color (column_mask s)))) /\
    heap_extends (column_heap s) (column_heap (interpolatePixel' x y s)) /\
    match sample_vector' x y with
    | Some arr => (v ∉ dom (column_heap s)) /\
                  column_heap (interpolatePixel' x y s) !! v = Some arr
    | None => v = HOLE_VECTOR
    end.
Proof.
  intros Hvis. unfold interpolatePixel, sample_vector. rewrite Hvis.
  destruct (invert projection (JS.of_Z x, JS.of_Z y)) as [[lambda phi]|];
    [destruct (JS.isFinite lambda);
       [destruct (interpolate grids lambda phi) as [arr|]|]|].
  2-4: do 2 eexists; cbn [column column_mask column_heap default from_option id];
    repeat split; try reflexivity; apply heap_extends_refl.
  unfold alloc, distort.
  destruct (distortion projection lambda phi (JS.of_Z x) (JS.of_Z y))
    as [[[d0 d1] d2] d3].
  set (w := fresh (dom (column_heap s))).
  assert (Hw : w ∉ dom (column_heap s)) by apply is_fresh.
  assert (Hd : deref (<[w := arr]> (column_heap s)) w = arr).
  { unfold deref. now rewrite lookup_insert_eq. }
  rewrite Hd. do 2 eexists.
  cbn [column column_mask column_heap default from_option id].
  repeat split; try reflexivity.
  - intros l Hl. rewrite !lookup_insert_ne; [reflexivity| |]; intros ->; auto.
  - exact Hw.
  - now rewrite lookup_insert_eq.
Qed.


Lemma sentinel_in_dom (h : Heap) (w : loc) :
  sentinels_intact h -> w ∉ dom h -> w <> NULL_WIND_VECTOR /\ w <> HOLE_VECTOR.
Proof.
  intros [Hn Hh] Hw. split; intros ->; apply Hw; apply elem_of_dom; eauto.
Qed.

(** One pixel of the column loop, read against a fixed visibility
    [visible] of the sample. *)
Lemma interpolatePixel_cell (x y : Z) (s : ColumnState) (c : Z) :
  sentinels_intact (column_heap s) ->
  column s !! y = None -> column s !! (y + 1) = None ->
  0 <= c <= 1 ->
  cell_ok (column_heap (interpolatePixel' x y s))
          (Mask.isVisible (column_mask s) x y) (sample_vector' x y)
          (column (interpolatePixel' x y s) !! (y + c)).
Proof.
  intros Hsent Hy Hy1 Hc.
  destruct (Mask.isVisible (column_mask s) x y) eqn:Hvis.
  - destruct (interpolatePixel_visible x y s Hvis) as (v & color & Hcol & _ & _ & Hv).
    rewrite Hcol.
    assert (Hcell : <[y + 1 := v]> (<[y := v]> (column s)) !! (y + c) = Some v).
    { assert (c = 0 \/ c = 1) as [-> | ->] by lia.
      - rewrite Z.add_0_r, lookup_insert_ne by lia. apply lookup_insert_eq.
      - apply lookup_insert_eq. }
    rewrite Hcell. unfold cell_ok.
    destruct (sample_vector' x y) as [arr|].
    + destruct Hv as [Hfresh Hw].
      destruct (sentinel_in_dom _ v Hsent Hfresh) as [Hn Hh].
      exists v. auto.
    + now subst v.
  - rewrite (interpolatePixel_invisible x y s Hvis). unfold cell_ok.
    assert (c = 0 \/ c = 1) as [-> | ->] by lia; [now rewrite Z.add_0_r|assumption].
Qed.

Lemma interpolatePixel_frame (x y : Z) (s : ColumnState) :
  let s' := interpolatePixel' x y s in
  heap_extends (column_heap s) (column_heap s') /\
  Mask.width (column_mask s') = Mask.width (column_mask s) /\
  (forall y', y' <> y -> y' <> y + 1 -> column s' !! y' = column s !! y') /\
  (0 <= x -> x + 1 < Mask.width (column_mask s) ->
   forall x' y', 0 <= x' < Mask.width (column_mask s) ->
     ~ (x <= x' <= x + 1 /\ y <= y' <= y + 1) ->
     Mask.isVisible (column_mask s') x' y' = Mask.isVisible (column_mask s) x' y').
Proof.
  cbv zeta. destruct (Mask.isVisible (column_mask s) x y) eqn:Hvis.
  - destruct (interpolatePixel_visible x y s Hvis) as (v & color & Hcol & Hmask & Hext & _).
    rewrite Hcol, Hmask. repeat split.
    + exact Hext.
    + now rewrite !width_set.
    + intros y' H0 H1. now rewrite !lookup_insert_ne by lia.
    + intros Hx0 Hx1 x' y' Hx' Hout. now apply isVisible_block_other.
  - rewrite (interpolatePixel_invisible x y s Hvis). repeat split.
Qed.

Lemma column_loop_spec (x W : Z) (visible : Z -> bool) :
  0 <= x -> x + 1 < W ->
  forall (n : nat) (y : Z) (s : ColumnState),
    Mask.width (column_mask s) = W ->
    (forall y', y <= y' -> Mask.isVisible (column_mask s) x y' = visible y') ->
    (forall y', y <= y' -> column s !! y' = None) ->
    sentinels_intact (column_heap s) ->
    let s' := stride2_loop n (interpolatePixel' x) y s in
    heap_extends (column_heap s) (column_heap s') /\
    Mask.width (column_mask s') = W /\
    (forall j c, 0 <= j < Z.of_nat n -> 0 <= c <= 1 ->
       cell_ok (column_heap s') (visible (y + 2 * j)) (sample_vector' x (y + 2 * j))
               (column s' !! (y + 2 * j + c))) /\
    (forall y', y' < y \/ y + 2 * Z.of_nat n <= y' -> column s' !! y' = column s !! y') /\
    (forall x' y', 0 <= x' < W ->
       ~ (x <= x' <= x + 1 /\ y <= y' < y + 2 * Z.of_nat n) ->
       Mask.isVisible (column_mask s') x' y' = Mask.isVisible (column_mask s) x' y').
Proof.
  intros Hx0 Hx1. induction n as [|n IH]; intros y s HW Hvis Hnone Hsent.
  - cbn [stride2_loop]. split; [apply heap_extends_refl|].
    split; [exact HW|]. split; [intros j c Hj; lia|]. split; reflexivity.
  - cbn [stride2_loop].
    destruct (interpolatePixel_frame x y s) as (Hext1 & HW1 & Hcol1 & Hmask1).
    set (s1 := interpolatePixel' x y s) in *.
    rewrite HW in HW1, Hmask1. specialize (Hmask1 Hx0 Hx1).
    assert (Hvis1 : forall y', y + 2 <= y' ->
              Mask.isVisible (column_mask s1) x y' = visible y').
    { intros y' Hy'. rewrite Hmask1 by lia. apply Hvis. lia. }
    assert (Hnone1 : forall y', y + 2 <= y' -> column s1 !! y' = None).
    { intros y' Hy'. rewrite Hcol1 by lia. apply Hnone. lia. }
    assert (Hsent1 : sentinels_intact (column_heap s1))
      by (eapply sentinels_intact_extends; eauto).
    destruct (IH (y + 2) s1 HW1 Hvis1 Hnone1 Hsent1)
      as (Hext & HW' & Hcells & Hcol & Hmask).
    set (s' := stride2_loop n (interpolatePixel' x) (y + 2) s1) in *.
    repeat split.
    + eapply heap_extends_trans; eauto.
    + exact HW'.
    + intros j c Hj Hc. destruct (Z.eq_dec j 0) as [->|Hj0].
      * rewrite Z.mul_0_r, Z.add_0_r. rewrite Hcol by lia.
        apply (cell_ok_extends (column_heap s1)); [exact Hext|].
        rewrite <- (Hvis y) by lia.
        apply interpolatePixel_cell; auto; apply Hnone; lia.
      * replace (y + 2 * j) with (y + 2 + 2 * (j - 1)) by lia.
        apply Hcells; lia.
    + intros y' Hy'. rewrite Hcol by lia. apply Hcol1; lia.
    + intros x' y' Hx' Hout. rewrite Hmask by lia. apply Hmask1; lia.
Qed.


Local Abbreviation column_ok' :=
  (column_ok distortion invert projection grids bounds).

Lemma column_ok_extends (visible : Z -> Z -> bool) (h h' : Heap) (x : Z) col :
  heap_extends h h' -> column_ok' visible h x col -> column_ok' visible h' x col.
Proof.
  intros Hext [Hcells Hnone]. split; [|exact Hnone].
  intros j c Hj Hc. eapply cell_ok_extends; eauto.
Qed.

Lemma interpolateColumn_spec (x W : Z) (visible : Z -> Z -> bool) (s : SweepState) :
  0 <= x -> x + 1 < W ->
  Mask.width (sweep_mask s) = W ->
  (forall y', Mask.isVisible (sweep_mask s) x y' = visible x y') ->
  sentinels_intact (sweep_heap s) ->
  let s' := interpolateColumn' x s in
  heap_extends (sweep_heap s) (sweep_heap s') /\
  Mask.width (sweep_mask s') = W /\
  (exists col, sweep_columns s' = <[x + 1 := col]> (<[x := col]> (sweep_columns s)) /\
               column_ok' visible (sweep_heap s') x col) /\
  (forall x' y', 0 <= x' < W -> ~ (x <= x' <= x + 1) ->
     Mask.isVisible (sweep_mask s') x' y' = Mask.isVisible (sweep_mask s) x' y').
Proof.
  intros Hx0 Hx1 HW Hvis Hsent. cbv zeta. unfold interpolateColumn.
  destruct (column_loop_spec x W (visible x) Hx0 Hx1
              (stride2_steps (IBounds.y bounds) (IBounds.yMax bounds))
              (IBounds.y bounds)
              (mkColumnState ∅ (sweep_mask s) (sweep_heap s)))
    as (Hext & HW' & Hcells & Hcol & Hmask); cbn [column column_mask column_heap];
    auto.
  set (c := stride2_loop _ _ _ _) in *.
  cbn [sweep_columns sweep_mask sweep_heap column column_mask column_heap] in *.
  repeat split; auto.
  - exists (column c). split; [reflexivity|]. split; [exact Hcells|].
    intros y' Hy'. now rewrite Hcol.
  - intros x' y' Hx' Hout. apply Hmask; [exact Hx'|]. lia.
Qed.

Lemma sweep_spec (W : Z) (visible : Z -> Z -> bool) :
  forall (n : nat) (x : Z) (s : SweepState),
    0 <= x -> (n <> 0%nat -> x + 2 * Z.of_nat n <= W) ->
    Mask.width (sweep_mask s) = W ->
    (forall x' y', x <= x' < W ->
       Mask.isVisible (sweep_mask s) x' y' = visible x' y') ->
    sentinels_intact (sweep_heap s) ->
    let s' := stride2_loop n interpolateColumn' x s in
    heap_extends (sweep_heap s) (sweep_heap s') /\
    (forall i a, 0 <= i < Z.of_nat n -> 0 <= a <= 1 ->
       exists col, sweep_columns s' !! (x + 2 * i + a) = Some col /\
                   column_ok' visible (sweep_heap s') (x + 2 * i) col) /\
    (forall x', x' < x \/ x + 2 * Z.of_nat n <= x' ->
       sweep_columns s' !! x' = sweep_columns s !! x').
Proof.
  induction n as [|n IH]; intros x s Hx0 Hx1 HW Hvis Hsent.
  - cbn [stride2_loop]. split; [apply heap_extends_refl|].
    split; [intros i a Hi; lia|reflexivity].
  - cbn [stride2_loop]. specialize (Hx1 (Nat.neq_succ_0 n)).
    destruct (interpolateColumn_spec x W visible s) as
      (Hext1 & HW1 & (col & Hcols1 & Hok1) & Hmask1); auto; try lia.
    { intros y'. apply Hvis. lia. }
    set (s1 := interpolateColumn' x s) in *.
    destruct (IH (x + 2) s1) as (Hext & Hcols & Hframe); auto; try lia.
    { intros x' y' Hx'. rewrite Hmask1 by lia. apply Hvis. lia. }
    { eapply sentinels_intact_extends; eauto. }
    set (s' := stride2_loop n interpolateColumn' (x + 2) s1) in *.
    split; [eapply heap_extends_trans; eauto|]. split.
    + intros i a Hi Ha. destruct (Z.eq_dec i 0) as [->|Hi0].
      * exists col. rewrite Z.mul_0_r, Z.add_0_r. split.
        -- rewrite Hframe by lia. rewrite Hcols1.
           assert (a = 0 \/ a = 1) as [-> | ->] by lia.
           ++ rewrite Z.add_0_r, lookup_insert_ne by lia. apply lookup_insert_eq.
           ++ apply lookup_insert_eq.
        -- eapply column_ok_extends; eauto.
      * replace (x + 2 * i) with (x + 2 + 2 * (i - 1)) by lia.
        apply Hcols; lia.
    + intros x' Hx'. rewrite Hframe by lia. rewrite Hcols1.
      now rewrite !lookup_insert_ne by lia.
Qed.


Lemma initial_heap_sentinels : sentinels_intact initial_heap.
Proof. split; reflexivity. Qed.

Lemma round_of_Z (z : Z) : JS.round (JS.of_Z z) = JS.of_Z z.
Proof.
  unfold JS.round, JS.of_Z. do 2 f_equal.
  pose proof (Qfloor_le (inject_Z z + (1 # 2))) as Hlo.
  pose proof (Qlt_floor (inject_Z z + (1 # 2))) as Hhi.
  set (f := Qfloor (inject_Z z + (1 # 2))) in *.
  assert (H1 : (inject_Z f < inject_Z (z + 1))%Q).
  { rewrite inject_Z_plus. change (inject_Z 1) with 1%Q. lra. }
  assert (H2 : (inject_Z z < inject_Z (f + 1))%Q) by lra.
  rewrite <- Zlt_Qlt in H1, H2. lia.
Qed.

Lemma array_index_of_Z (z : Z) : Field.array_index (JS.of_Z z) = Some z.
Proof.
  unfold Field.array_index, JS.of_Z, JSString.is_integer.
  now rewrite Qfloor_Z, Qeq_bool_refl.
Qed.

Lemma lookup_pixel (f : Field.t) (px py : Z) :
  Field.lookup f (JS.of_Z px) (JS.of_Z py)
  = match Field.columns f !! px with
    | Some col => default NULL_WIND_VECTOR (col !! py)
    | None => NULL_WIND_VECTOR
    end.
Proof.
  unfold Field.lookup. rewrite !round_of_Z, !array_index_of_Z. cbn.
  destruct (Field.columns f !! px) as [col|]; [|reflexivity].
  now destruct (col !! py).
Qed.

Lemma stride2_steps_spec (from last : Z) :
  Z.of_nat (stride2_steps from last) = Z.max 0 ((last - from) / 2 + 1).
Proof. unfold stride2_steps. lia. Qed.

Local Abbreviation block_sample' := (block_sample bounds).

Lemma block_sample_some (px py sx sy : Z) :
  block_sample' px py = Some (sx, sy) ->
  exists i a j c,
    0 <= i < Z.of_nat (stride2_steps (IBounds.x bounds) (IBounds.xMax bounds - 1)) /\
    0 <= a <= 1 /\
    0 <= j < Z.of_nat (stride2_steps (IBounds.y bounds) (IBounds.yMax bounds)) /\
    0 <= c <= 1 /\
    sx = IBounds.x bounds + 2 * i /\ sy = IBounds.y bounds + 2 * j /\
    px = sx + a /\ py = sy + c.
Proof.
  unfold block_sample.
  destruct (_ && _) eqn:E; [|discriminate]. intros [= <- <-].
  apply andb_prop in E as [E E4]. apply andb_prop in E as [E E3].
  apply andb_prop in E as [E1 E2].
  apply Z.leb_le in E1, E3, E4. apply Z.ltb_lt in E2.
  exists ((px - IBounds.x bounds) / 2), ((px - IBounds.x bounds) mod 2),
         ((py - IBounds.y bounds) / 2), ((py - IBounds.y bounds) mod 2).
  rewrite !stride2_steps_spec.
  repeat split; Z.div_mod_to_equations; lia.
Qed.

Lemma block_sample_none (px py : Z) :
  block_sample' px py = None ->
  (px < IBounds.x bounds \/
   IBounds.x bounds
   + 2 * Z.of_nat (stride2_steps (IBounds.x bounds) (IBounds.xMax bounds - 1)) <= px) \/
  (py < IBounds.y bounds \/
   IBounds.y bounds
   + 2 * Z.of_nat (stride2_steps (IBounds.y bounds) (IBounds.yMax bounds)) <= py).
Proof.
  unfold block_sample. rewrite !stride2_steps_spec.
  destruct (Z.leb_spec (IBounds.x bounds) px); [|lia].
  destruct (Z.ltb_spec (px - (px - IBounds.x bounds) mod 2) (IBounds.xMax bounds));
    [|intros _; left; right; Z.div_mod_to_equations; lia].
  destruct (Z.leb_spec (IBounds.y bounds) py); [|lia].
  destruct (Z.leb_spec (py - (py - IBounds.y bounds) mod 2) (IBounds.yMax bounds));
    [discriminate|].
  intros _. right; right. Z.div_mod_to_equations; lia.
Qed.

(** *** The batches run the sweep once *)

Lemma stride2_steps_next (x last : Z) :
  x <= last -> stride2_steps x last = Datatypes.S (stride2_steps (x + 2) last).
Proof.
  intros H. unfold stride2_steps.
  assert (E : (last - x) / 2 + 1 = Z.succ ((last - (x + 2)) / 2 + 1))
    by (Z.div_mod_to_equations; lia).
  rewrite E. apply Z2Nat.inj_succ. Z.div_mod_to_equations. lia.
Qed.

Lemma stride2_steps_done (x last : Z) : last < x -> stride2_steps x last = 0%nat.
Proof.
  intros H. unfold stride2_steps.
  assert (E : (last - x) / 2 + 1 <= 0) by (Z.div_mod_to_equations; lia).
  lia.
Qed.

Local Abbreviation remaining x := (stride2_steps x (IBounds.xMax bounds - 1)).

(** The field the sweep ends with when continued from the cursor [x]. *)
Local Abbreviation completed x s :=
  (let s' := stride2_loop (remaining x) interpolateColumn' x s in
   (createField (sweep_columns s') bounds (sweep_mask s'), sweep_heap s')).

Lemma batchInterpolate_spec (over_budget : Z -> bool) (fuel : nat) :
  forall (x : Z) (s : SweepState),
    (remaining x < fuel)%nat ->
    match batchInterpolate distortion invert projection grids bounds fuel over_budget x s with
    | Some (Resolved f h) => (f, h) = completed x s
    | Some (Yielded x' s') =>
        (remaining x' < remaining x)%nat /\ completed x' s' = completed x s
    | None => False
    end.
Proof.
  induction fuel as [|fuel IH]; intros x s Hfuel; [lia|].
  cbn [batchInterpolate].
  destruct (Z.ltb_spec x (IBounds.xMax bounds)) as [Hlt|Hge].
  - rewrite (stride2_steps_next x (IBounds.xMax bounds - 1)) in * by lia.
    cbn [stride2_loop].
    destruct (over_budget (x + 2)).
    + split; [lia|reflexivity].
    + specialize (IH (x + 2) (interpolateColumn' x s) ltac:(lia)).
      destruct (batchInterpolate _ _ _ _ _ _ _ _ _) as [[x' s'|f h]|];
        [|exact IH|exact IH].
      destruct IH as [Hless Heq]. split; [lia|exact Heq].
  - now rewrite (stride2_steps_done x (IBounds.xMax bounds - 1)) by lia.
Qed.

Lemma run_batches_from (live : nat -> D3.Projection) (clock : nat -> Z -> bool)
    (fuel : nat) :
  (forall n, live n = projection) ->
  forall (batch : nat) (x : Z) (s : SweepState),
    (remaining x + 1 < fuel)%nat ->
    run_batches distortion invert live grids bounds fuel clock batch x s
    = Some (completed x s).
Proof.
  intros Hlive.
  induction fuel as [|fuel IH]; intros batch x s Hfuel; [lia|].
  cbn [run_batches]. rewrite Hlive.
  pose proof (batchInterpolate_spec (clock batch) fuel x s ltac:(lia)) as Hb.
  destruct (batchInterpolate _ _ _ _ _ _ _ _ _) as [[x' s'|f h]|];
    [|now rewrite Hb|contradiction].
  destruct Hb as [Hless Heq]. rewrite IH by lia. now rewrite Heq.
Qed.

(** With the projection left alone, whatever the clock says, the batches
    end, and they resolve with the field of the uninterrupted sweep. *)
Lemma run_batches_resolves (live : nat -> D3.Projection) (clock : nat -> Z -> bool)
    (mask : Mask.t) (fuel : nat) :
  (forall n, live n = projection) ->
  (remaining (IBounds.x bounds) + 1 < fuel)%nat ->
  run_batches distortion invert live grids bounds fuel clock 0
    (IBounds.x bounds) (mkSweepState ∅ mask initial_heap)
  = Some (interpolateField' mask).
Proof. intros Hlive Hfuel. now apply run_batches_from. Qed.

(** C2 (amended).  In the completed field of a sweep whose bounds are
    clamped to the mask's width, the lookup at a whole pixel is decided by
    the 2 by 2 block the pixel lies in:
    - a pixel in no swept block, or in a block whose sample pixel is
      outside the mask's visible region, looks up the "outside" sentinel;
    - a pixel in a block whose sample pixel is visible but for which the
      inverse projection or the grid gave no vector looks up the "hole"
      sentinel;
    - otherwise it looks up a vector that is neither sentinel and holds
      the distorted sample;
    and [isDefined] is true exactly when such a vector was written for the
    pixel and its magnitude is not [null]. *)
Theorem field_follows_blocks (mask : Mask.t) (px py : Z) :
  0 <= IBounds.x bounds ->
  IBounds.xMax bounds <= Mask.width mask - 1 ->
  let f := fst (interpolateField' mask) in
  let h := snd (interpolateField' mask) in
  let w := Field.lookup f (JS.of_Z px) (JS.of_Z py) in
  let defined := Field.isDefined f h (JS.of_Z px) (JS.of_Z py) in
  match block_sample' px py with
  | Some (sx, sy) =>
      if Mask.isVisible mask sx sy then
        match sample_vector' sx sy with
        | Some arr =>
            w <> NULL_WIND_VECTOR /\ w <> HOLE_VECTOR /\ h !! w = Some arr /\
            defined = match array_get arr 2 with VNull => false | _ => true end
        | None => w = HOLE_VECTOR /\ defined = false
        end
      else w = NULL_WIND_VECTOR /\ defined = false
  | None => w = NULL_WIND_VECTOR /\ defined = false
  end.
Proof.
  intros Hx0 HxM. cbv zeta. unfold interpolateField. cbn [fst snd].
  set (nx := stride2_steps (IBounds.x bounds) (IBounds.xMax bounds - 1)).
  destruct (sweep_spec (Mask.width mask) (Mask.isVisible mask) nx (IBounds.x bounds)
              (mkSweepState ∅ mask initial_heap))
    as (Hext & Hcols & Hframe); cbn [sweep_mask sweep_heap sweep_columns]; auto.
  { intros Hn. unfold nx in *. rewrite stride2_steps_spec.
    assert (0 < Z.of_nat (stride2_steps (IBounds.x bounds) (IBounds.xMax bounds - 1)))
      by lia.
    rewrite stride2_steps_spec in *. Z.div_mod_to_equations. lia. }
  { apply initial_heap_sentinels. }
  set (s := stride2_loop nx interpolateColumn' (IBounds.x bounds) _) in *.
  pose proof (sentinels_intact_extends _ _ Hext initial_heap_sentinels) as [Hnull Hhole].
  unfold Field.isDefined. rewrite lookup_pixel.
  unfold createField. cbn [Field.columns].
  assert (Hdn : array_get (deref (sweep_heap s) NULL_WIND_VECTOR) 2 = VNull)
    by (unfold deref; now rewrite Hnull).
  assert (Hdh : array_get (deref (sweep_heap s) HOLE_VECTOR) 2 = VNull)
    by (unfold deref; now rewrite Hhole).
  destruct (block_sample' px py) as [[sx sy]|] eqn:Hblock.
  - destruct (block_sample_some px py sx sy Hblock)
      as (i & a & j & c & Hi & Ha & Hj & Hc & -> & -> & -> & ->).
    destruct (Hcols i a Hi Ha) as (col & Hcol & [Hcells _]).
    rewrite Hcol. specialize (Hcells j c Hj Hc). unfold cell_ok in Hcells.
    destruct (Mask.isVisible mask _ _).
    + destruct (sample_vector' _ _) as [arr|].
      * destruct Hcells as (w & -> & Hn & Hh & Hw). cbn [default from_option id].
        repeat split; auto. unfold deref. now rewrite Hw.
      * rewrite Hcells. cbn [default from_option id]. now rewrite Hdh.
    + rewrite Hcells. cbn [default from_option id]. now rewrite Hdn.
  - destruct (block_sample_none px py Hblock) as [Hpx|Hpy].
    + rewrite Hframe by exact Hpx. cbn [sweep_columns]. rewrite lookup_empty.
      now rewrite Hdn.
    + destruct (sweep_columns s !! px) as [col|] eqn:Hcol; [|now rewrite Hdn].
      assert (Hcov : ~ (px < IBounds.x bounds \/
                        IBounds.x bounds + 2 * Z.of_nat nx <= px)).
      { intros Hout. rewrite Hframe in Hcol by exact Hout.
        cbn [sweep_columns] in Hcol. now rewrite lookup_empty in Hcol. }
      assert (Hia : exists i a, 0 <= i < Z.of_nat nx /\ 0 <= a <= 1 /\
                                px = IBounds.x bounds + 2 * i + a).
      { exists ((px - IBounds.x bounds) / 2), ((px - IBounds.x bounds) mod 2).
        repeat split; Z.div_mod_to_equations; lia. }
      destruct Hia as (i & a & Hi & Ha & ->).
      destruct (Hcols i a Hi Ha) as (col' & Hcol' & [_ Hnone]).
      rewrite Hcol' in Hcol. injection Hcol as ->.
      rewrite (Hnone py Hpy). cbn [default from_option id]. now rewrite Hdn.
Qed.

End InterpolateFacts.

(** C2, as stated, fails: the pixel (1, 0) is outside the visible region
    of the mask, yet it lies in the block of the visible sample pixel
    (0, 0) and looks up that sample's vector. *)
Lemma replicated_block_ignores_mask :
  ~ sentinels_follow_mask no_distortion identity_invert
      (sample_geo D3.geoOrthographic) constant_grids corner_bounds corner_mask.
Proof.
  intros H. destruct (H 1 0) as [H1 _]. specialize (H1 eq_refl).
  vm_compute in H1. discriminate H1.
Qed.

(** The same pixel under a grid that has no sample anywhere: it is
    invisible in the mask before the sweep and in the overlay after it, and
    it looks up the "hole" sentinel, not the "outside" one. *)
Example hole_block_ignores_mask :
  let f := fst (interpolateField no_distortion identity_invert
                  (sample_geo D3.geoOrthographic) empty_grids corner_bounds
                  corner_mask) in
  Mask.isVisible corner_mask 1 0 = false /\
  Mask.isVisible (Mask.mk (Mask.width corner_mask) (Field.overlay f)) 1 0 = false /\
  Field.lookup f (JS.of_Z 1) (JS.of_Z 0) = HOLE_VECTOR.
Proof. repeat split; reflexivity. Qed.

Lemma field_follows_blocks_witness :
  Field.lookup
    (fst (interpolateField no_distortion identity_invert
            (sample_geo D3.geoOrthographic) constant_grids corner_bounds corner_mask))
    (JS.of_Z 1) (JS.of_Z 0)
  <> NULL_WIND_VECTOR.
Proof.
  assert (H0 : 0 <= IBounds.x corner_bounds) by (cbn; lia).
  assert (HM : IBounds.xMax corner_bounds <= Mask.width corner_mask - 1)
    by (cbn; lia).
  pose proof (field_follows_blocks no_distortion identity_invert
                (sample_geo D3.geoOrthographic) constant_grids corner_bounds
                corner_mask 1 0 H0 HM) as H.
  vm_compute in H. vm_compute. exact (proj1 H).
Defined.

(** The counted loop is the tested loop: [for (i = from; i <= last;
    i += 2)] stops by its own test after [stride2_steps from last] rounds. *)
Lemma while_le_stride2 {S : Type} (body : Z -> S -> S) (last : Z) :
  forall (n : nat) (i : Z) (s : S),
    n = stride2_steps i last ->
    while_le (Datatypes.S n) body i last s = Some (stride2_loop n body i s).
Proof.
  induction n as [|n IH]; intros i s Hn.
  - cbn. destruct (Z.leb_spec i last) as [Hle|]; [|reflexivity].
    unfold stride2_steps in Hn. Z.div_mod_to_equations. lia.
  - cbn [while_le stride2_loop].
    destruct (Z.leb_spec i last) as [Hle|Hgt].
    + apply IH. unfold stride2_steps in *. Z.div_mod_to_equations. lia.
    + unfold stride2_steps in Hn. Z.div_mod_to_equations. lia.
Qed.

(* ================================================================== *)
(** * Further properties of the code *)
(* ================================================================== *)

(** ** Clamping is idempotent *)

Lemma floor_of_Z (z : Z) : JS.floor (JS.of_Z z) = JS.of_Z z.
Proof. unfold JS.floor, JS.of_Z. now rewrite Qfloor_Z. Qed.

Lemma ceil_of_Z (z : Z) : JS.ceil (JS.of_Z z) = JS.of_Z z.
Proof. unfold JS.ceil, JS.of_Z. now rewrite Qceiling_Z. Qed.

Lemma lower_corner_fixed (lo : number) :
  let x := JS.max (JS.floor (ensureNumber lo (JS.of_Z 0))) (JS.of_Z 0) in
  JS.max (JS.floor (ensureNumber x (JS.of_Z 0))) (JS.of_Z 0) = x.
Proof.
  intros x. destruct (lower_corner_shape lo) as [(z & Hz & Hx)|Hx];
    fold x in Hx; rewrite Hx.
  - rewrite ensureNumber_cases. unfold JS.of_Z at 1. cbv iota.
    fold (JS.of_Z z). rewrite floor_of_Z, max_of_Z. f_equal. lia.
  - reflexivity.
Qed.

Lemma upper_corner_fixed (hi : number) (w : Z) :
  let xMax := JS.min (JS.ceil (ensureNumber hi (JS.of_Z w))) (JS.of_Z (w - 1)) in
  JS.min (JS.ceil (ensureNumber xMax (JS.of_Z w))) (JS.of_Z (w - 1)) = xMax.
Proof.
  intros xMax. destruct (upper_corner_shape hi w) as [(z & Hz & Hx)|Hx];
    fold xMax in Hx; rewrite Hx.
  - rewrite ensureNumber_cases. unfold JS.of_Z at 1. cbv iota.
    fold (JS.of_Z z). rewrite ceil_of_Z, min_of_Z. f_equal. lia.
  - reflexivity.
Qed.

(** X1.  Clamping is idempotent: clamping the corners of a clamped box to
    the same view gives the same bounds again. *)
Theorem clampedBounds_idempotent (box : Box) (view : View.t) :
  let r := clampedBounds box view in
  clampedBounds ((Bounds.x r, Bounds.y r), (Bounds.xMax r, Bounds.yMax r)) view = r.
Proof.
  destruct box as [[x0 y0] [x1 y1]]. cbv zeta.
  unfold clampedBounds. cbn [fst snd Bounds.x Bounds.y Bounds.xMax Bounds.yMax].
  now rewrite !lower_corner_fixed, !upper_corner_fixed.
Qed.

(** ** The manipulator session *)

Lemma move_frame (m : Manipulator) (mouse : option (number * number))
    (scale : number) (g : Globe) :
  let g' := move m mouse scale g in
  variant g' = variant g /\
  D3.raw (projection g') = D3.raw (projection g) /\
  D3.translate (projection g') = D3.translate (projection g) /\
  D3.precision (projection g') = D3.precision (projection g) /\
  D3.clipAngle (projection g') = D3.clipAngle (projection g) /\
  D3.clipExtent (projection g') = D3.clipExtent (projection g) /\
  snd (D3.rotate (projection g')) = snd (D3.rotate (projection g)) /\
  D3.scale (projection g') = scale.
Proof.
  cbv zeta. unfold move. destruct mouse as [mouse|]; cbn [projection variant].
  - rewrite rotate_with_scale, rotate_with_rotate. unfold D3.wrap3. cbn [snd].
    rewrite roll_wrapped. repeat split.
  - repeat split.
Qed.

Lemma moves_frame (m : Manipulator) events :
  forall g : Globe,
    let g' := moves m events g in
    variant g' = variant g /\
    D3.raw (projection g') = D3.raw (projection g) /\
    D3.translate (projection g') = D3.translate (projection g) /\
    D3.precision (projection g') = D3.precision (projection g) /\
    D3.clipAngle (projection g') = D3.clipAngle (projection g) /\
    D3.clipExtent (projection g') = D3.clipExtent (projection g) /\
    snd (D3.rotate (projection g')) = snd (D3.rotate (projection g)) /\
    D3.scale (projection g')
    = match last events with Some e => snd e | None => D3.scale (projection g) end.
Proof.
  induction events as [|e events IH]; intros g; [cbn; repeat split|].
  cbv zeta. unfold moves. cbn [fold_left]. fold (moves m events (move m (fst e) (snd e) g)).
  destruct (IH (move m (fst e) (snd e) g)) as (Hv & Hr & Ht & Hp & Ha & He & Hg & Hs).
  destruct (move_frame m (fst e) (snd e) g) as (Hv1 & Hr1 & Ht1 & Hp1 & Ha1 & He1 & Hg1 & Hs1).
  repeat split; try congruence.
  rewrite Hs. destruct events as [|e' events]; [exact Hs1|].
  rewrite last_cons_cons. destruct (last (e' :: events)) eqn:E; [reflexivity|].
  now apply last_None in E.
Qed.

(** X2.  A manipulator session gives the projection back as it was, apart
    from the rotation angles and the scale: whatever the [move] calls were,
    after [end] the precision is the one before the session (it was tenfold
    in between), the translate, the clipping and the roll are untouched, and
    the scale is the one of the last [move]. *)
Theorem session_restores_precision (startMouse : number * number)
    (startScale : number) (events : list (option (number * number) * number))
    (g : Globe) :
  let g' := session startMouse startScale events g in
  variant g' = variant g /\
  D3.raw (projection g') = D3.raw (projection g) /\
  D3.precision (projection g') = D3.precision (projection g) /\
  D3.translate (projection g') = D3.translate (projection g) /\
  D3.clipAngle (projection g') = D3.clipAngle (projection g) /\
  D3.clipExtent (projection g') = D3.clipExtent (projection g) /\
  snd (D3.rotate (projection g')) = snd (D3.rotate (projection g)) /\
  D3.scale (projection g')
  = match last events with Some e => snd e | None => D3.scale (projection g) end /\
  D3.precision (projection (moves (fst (manipulator startMouse startScale g)) events
                              (snd (manipulator startMouse startScale g))))
  = JS.mul (D3.precision (projection g)) (JS.of_Z 10).
Proof.
  cbv zeta. unfold session, manipulator. cbn [fst snd].
  set (m := mkManipulator _ _ _ _).
  set (g1 := mkGlobe _ _).
  destruct (moves_frame m events g1) as (Hv & Hr & Ht & Hp & Ha & He & Hg & Hs).
  unfold manipulator_end. cbn [projection variant D3.with_precision D3.raw
    D3.precision D3.translate D3.clipAngle D3.clipExtent D3.rotate D3.scale original m].
  repeat split; try assumption.
Qed.

(** X3.  A [move] with a pointer is absolute: it places the globe by the
    pointer's offset from the start of the session, so an earlier [move] of
    the same session leaves no trace. *)
Theorem move_overrides_earlier_move (m : Manipulator)
    (earlier : option (number * number)) (earlier_scale : number)
    (mouse : number * number) (scale : number) (g : Globe) :
  move m (Some mouse) scale (move m earlier earlier_scale g)
  = move m (Some mouse) scale g.
Proof.
  unfold move. destruct earlier as [e|]; cbn [projection variant].
  - rewrite rotate_with_scale, rotate_with_rotate. unfold D3.wrap3. cbn [snd].
    now rewrite roll_wrapped.
  - now rewrite rotate_with_scale.
Qed.

Lemma div_Fin (p q : Q) :
  ~ (q == 0)%Q -> JS.div (Fin p) (Fin q) = Fin (Qred (p / q)).
Proof.
  intros Hq. unfold JS.div.
  destruct (Qcompare q 0) eqn:E; try reflexivity.
  apply Qeq_alt in E. contradiction.
Qed.

(** X4.  Dragging turns the globe by the pointer's offset times the
    sensitivity [60 / startScale]: with finite numbers and a start scale
    other than 0, after the first [move] of a session to the pointer
    [(mx, my)] the longitude angle reads [r0 + (mx - sx) * 60 / k] and the
    latitude angle [r1 - (my - sy) * 60 / k], each modulo 360 as d3 keeps
    it; the roll is kept and the scale set. *)
Theorem move_turns_by_offset (g : Globe) (r0 r1 k sx sy mx my : Q)
    (roll scale : number) :
  D3.rotate (projection g) = (Fin r0, Fin r1, roll) ->
  ~ (k == 0)%Q ->
  let '(m, g') := manipulator (Fin sx, Fin sy) (Fin k) g in
  let g'' := move m (Some (Fin mx, Fin my)) scale g' in
  D3.rotate (projection g'')
  = (D3.wrap (Fin (Qred (r0 + (mx - sx) * (60 / k)))),
     D3.wrap (Fin (Qred (r1 - (my - sy) * (60 / k)))), roll) /\
  D3.scale (projection g'') = scale.
Proof.
  intros Hrot Hk. unfold manipulator, move. rewrite Hrot.
  cbn [fst snd projection variant startMouse sensitivity rotation].
  rewrite rotate_with_scale, rotate_with_rotate, rotate_with_precision, Hrot.
  cbn [D3.with_scale D3.scale]. split; [|reflexivity].
  destruct (rotate_finite _ _ _ _ Hrot) as (_ & _ & Hroll).
  unfold D3.wrap3. cbn [fst snd]. rewrite Hroll.
  assert (Hs : JS.div (JS.of_Z 60) (Fin k) = Fin (Qred (60 / k)))
    by (now apply div_Fin).
  rewrite Hs.
  assert (Hs0 : ~ (Qred (60 / k) == 0)%Q).
  { rewrite Qred_correct. intros H.
    assert (H' : (60 / k * k == 0 * k)%Q) by (now rewrite H).
    field_simplify in H'; [|exact Hk]. discriminate H'. }
  cbn [JS.neg]. rewrite !div_Fin by exact Hs0.
  unfold JS.sub, JS.add, JS.mul, JS.neg.
  assert (Hx : Qred ((Qred (Qred (mx + Qred (- sx)) + Qred (r0 / Qred (60 / k))))
                     * Qred (60 / k))
               = Qred (r0 + (mx - sx) * (60 / k))).
  { apply Qred_complete. rewrite !Qred_correct. field. exact Hk. }
  assert (Hy : Qred (Qred (- Qred (Qred (my + Qred (- sy))
                                   + Qred (Qred (- r1) / Qred (60 / k))))
                     * Qred (60 / k))
               = Qred (r1 - (my - sy) * (60 / k))).
  { apply Qred_complete. rewrite !Qred_correct. field. exact Hk. }
  now rewrite Hx, Hy.
Qed.

Lemma move_turns_by_offset_witness :
  D3.rotate (projection
    (move (fst (manipulator (Fin 0, Fin 0) (Fin 1) sample_globe))
          (Some (Fin 3, Fin 4)) (JS.of_Z 1)
          (snd (manipulator (Fin 0, Fin 0) (Fin 1) sample_globe))))
  = (Fin 150, Fin (-240), JS.of_Z 0).
Proof.
  assert (Hk : ~ (1 == 0)%Q) by (intros H; discriminate H).
  exact (proj1 (move_turns_by_offset sample_globe 330 0 1 0 0 3 4
                  (JS.of_Z 0) (JS.of_Z 1) eq_refl Hk)).
Defined.

(** ** The mask: writing and reading a pixel *)

Lemma data_get_set_eq (d : list Z) (i v : Z) :
  0 <= i < Z.of_nat (length d) ->
  Mask.data_get (Mask.data_set d i v) i = Some (clamp_byte v).
Proof.
  intros Hi. unfold Mask.data_get, Mask.data_set.
  destruct (Z.ltb_spec i 0); [lia|].
  apply list_lookup_insert_eq. lia.
Qed.

Lemma length_data_set (d : list Z) (i v : Z) :
  length (Mask.data_set d i v) = length d.
Proof.
  unfold Mask.data_set. destruct (i <? 0); [reflexivity|apply length_insert].
Qed.

Lemma length_set (m : Mask.t) (x y : Z) (color : Z * Z * Z * Z) :
  length (Mask.data (Mask.set x y color m)) = length (Mask.data m).
Proof.
  unfold Mask.set. destruct color as [[[r g] b] a]. cbn [Mask.data].
  now rewrite !length_data_set.
Qed.

(** X5.  After [set(x, y, rgba)] on a pixel whose bytes lie within the
    data, the pixel is visible exactly when the alpha written, brought into
    [0, 255], is positive. *)
Theorem isVisible_after_set (m : Mask.t) (x y : Z) (rgba : Z * Z * Z * Z) :
  pixel_in_data m x y ->
  Mask.isVisible (Mask.set x y rgba m) x y = (0 <? clamp_byte (alpha_of rgba)).
Proof.
  intros [Hlo Hhi]. unfold Mask.isVisible, Mask.set.
  destruct rgba as [[[r g] b] a]. cbn [Mask.width Mask.data alpha_of snd].
  rewrite data_get_set_eq; [reflexivity|].
  rewrite !length_data_set. lia.
Qed.

Lemma isVisible_after_set_witness :
  Mask.isVisible (Mask.set 1 0 (0, 0, 0, 300) corner_mask) 1 0 = true.
Proof.
  apply (isVisible_after_set corner_mask 1 0 (0, 0, 0, 300)).
  unfold pixel_in_data. cbn. lia.
Defined.

(** X6.  [set] leaves every other pixel of the row range as visible or
    invisible as it was: for columns within the width, writing one pixel
    does not change what [isVisible] says of another. *)
Theorem set_keeps_other_pixels (m : Mask.t) (a b x y : Z)
    (rgba : Z * Z * Z * Z) :
  0 <= a < Mask.width m -> 0 <= x < Mask.width m -> (a, b) <> (x, y) ->
  Mask.isVisible (Mask.set a b rgba m) x y = Mask.isVisible m x y.
Proof. apply isVisible_set_other. Qed.

Lemma set_keeps_other_pixels_witness :
  Mask.isVisible (Mask.set 1 0 (0, 0, 0, 300) corner_mask) 0 0
  = Mask.isVisible corner_mask 0 0.
Proof.
  apply (set_keeps_other_pixels corner_mask 1 0 0 0 (0, 0, 0, 300));
    cbn; try lia. discriminate.
Defined.

(** X7.  Neither [set] nor [isVisible] checks the column against the
    width: the column [x + width] of row [y] is the column [x] of row
    [y + 1]. *)
Theorem mask_column_wraps (m : Mask.t) (x y : Z) (rgba : Z * Z * Z * Z) :
  Mask.set (x + Mask.width m) y rgba m = Mask.set x (y + 1) rgba m /\
  Mask.isVisible m (x + Mask.width m) y = Mask.isVisible m x (y + 1).
Proof.
  unfold Mask.set, Mask.isVisible.
  replace ((y * Mask.width m + (x + Mask.width m)) * 4)
    with (((y + 1) * Mask.width m + x) * 4) by ring.
  split; reflexivity.
Qed.

(** ** The field: rounding of coordinates *)

Lemma round_round (a : number) : JS.round (JS.round a) = JS.round a.
Proof. destruct a; try reflexivity. cbn [JS.round]. apply round_of_Z. Qed.

(** X8.  [field(x, y)] reads the pixel nearest to [(x, y)] (a half going
    up): the lookup at any coordinates is the lookup at the rounded
    coordinates, and so are [isDefined] and [isInsideBoundary]. *)
Theorem lookup_rounds (f : Field.t) (h : Heap) (x y : number) :
  Field.lookup f x y = Field.lookup f (JS.round x) (JS.round y) /\
  Field.isDefined f h x y = Field.isDefined f h (JS.round x) (JS.round y) /\
  Field.isInsideBoundary f x y = Field.isInsideBoundary f (JS.round x) (JS.round y).
Proof.
  assert (H : Field.lookup f x y = Field.lookup f (JS.round x) (JS.round y)).
  { unfold Field.lookup. now rewrite !round_round. }
  unfold Field.isDefined, Field.isInsideBoundary. now rewrite <- H.
Qed.

(** ** The input controller: what an interaction does to the globe *)

Section InteractionFacts.

Variable distance : number * number -> number * number -> number.
Variable invert : D3.Projection -> number * number -> option (number * number).

Local Abbreviation on_zoom' := (on_zoom distance).
Local Abbreviation interaction' := (interaction distance).
Local Abbreviation complete' := (complete_interaction distance invert).

(** One [zoom] event on a running operation. *)
Lemma on_zoom_effect (mouse : number * number) (s : number) (c : Controller)
    (o : Op.t) :
  op c = Some o ->
  let d := distance mouse (Op.startMouse o) in
  let t' := next_type (Op.type o) d s (Op.startScale o) in
  on_zoom' mouse s c
  = if barely_moved (Op.type o) d s (Op.startScale o)
    then mkController (globe c) (Some (Op.with_type t' o)) (dispatched c)
    else mkController
           (move (Op.manipulator o)
                 (match t' with zoom => None | _ => Some mouse end) s (globe c))
           (Some (Op.with_type t' o))
           ((dispatched c
             ++ match Op.type o with click | spurious => [MoveStart] | _ => [] end)
            ++ [Move]).
Proof.
  intros Hop. cbv zeta. unfold on_zoom, ensure_op. rewrite Hop.
  unfold barely_moved, next_type.
  destruct o as [t sm ss mp]. cbn [Op.type Op.startMouse Op.startScale Op.manipulator].
  destruct t; cbn [Op.with_type Op.type Op.startMouse Op.startScale Op.manipulator];
    try destruct (JS.strict_eq s ss && JS.lt (distance mouse sm) MIN_MOVE);
    try reflexivity;
    destruct (JS.loose_ne s ss); cbn; rewrite ?app_nil_r; reflexivity.
Qed.

(** Events that are all ignored change the type only. *)
Lemma ignored_events (start : number * number) events :
  forall (c : Controller) (o : Op.t),
    op c = Some o -> Op.startMouse o = start -> Op.startScale o = zoomIdentity_k ->
    Op.type o = click \/ Op.type o = spurious ->
    Forall (fun e => JS.strict_eq (snd e) zoomIdentity_k = true /\
                     JS.lt (distance (fst e) start) MIN_MOVE = true) events ->
    exists t,
      (t = click \/ t = spurious) /\
      fold_left (fun c e => on_zoom' (fst e) (snd e) c) events c
      = mkController (globe c) (Some (Op.with_type t o)) (dispatched c).
Proof.
  induction events as [|e events IH]; intros c o Hop Hm Hs Ht Hall.
  - exists (Op.type o). split; [exact Ht|]. cbn.
    destruct c as [g oc l], o as [t sm ss mp]. cbn in *. now rewrite Hop.
  - inversion Hall as [|? ? [Hes Hed] Hrest]; subst.
    cbn [fold_left]. rewrite (on_zoom_effect (fst e) (snd e) c o Hop).
    assert (Hb : barely_moved (Op.type o) (distance (fst e) (Op.startMouse o))
                   (snd e) (Op.startScale o) = true).
    { unfold barely_moved. rewrite Hs, Hes, Hed. now destruct Ht as [-> | ->]. }
    rewrite Hb.
    set (t' := next_type _ _ _ _).
    assert (Ht' : t' = click \/ t' = spurious).
    { unfold t', next_type. rewrite Hs, Hes, Hed.
      destruct Ht as [-> | ->]; cbn; destruct (JS.gt _ _); auto. }
    destruct (IH (mkController (globe c) (Some (Op.with_type t' o)) (dispatched c))
                 (Op.with_type t' o) eq_refl) as (t & Ht2 & Hrun); auto.
    exists t. split; [exact Ht2|]. rewrite Hrun. now destruct o.
Qed.

Lemma session_round_trip (start : number * number) (k : number) (g : Globe) :
  manipulator_end (fst (manipulator start k g)) (snd (manipulator start k g)) = g.
Proof. destruct g as [v [r ro sc tr pr ca ce]]. reflexivity. Qed.

(** X9.  An interaction in which the pointer barely moves leaves no trace
    on the globe: when every [zoom] event has the start scale and a pointer
    nearer than 4 pixels to the start, then after pointer-up the globe is
    exactly the one before pointer-down, the controller is idle, and the
    only thing dispatched is the click at the start point (for a [click])
    or nothing (for a [spurious] interaction). *)
Theorem barely_moved_interaction (start : number * number)
    (events : list ((number * number) * number)) (c : Controller) :
  op c = None ->
  Forall (fun e => JS.strict_eq (snd e) zoomIdentity_k = true /\
                   JS.lt (distance (fst e) start) MIN_MOVE = true) events ->
  exists c',
    complete' start events c = Some c' /\
    globe c' = globe c /\ op c' = None /\
    (dispatched c' = dispatched c ++ [Click start (invert (projection (globe c)) start)]
     \/ dispatched c' = dispatched c).
Proof.
  intros Hop Hall. unfold complete_interaction, interaction, on_zoomstart, ensure_op.
  rewrite Hop. unfold newOp.
  pose proof (session_round_trip start zoomIdentity_k (globe c)) as Hround.
  destruct (manipulator start zoomIdentity_k (globe c)) as [m g1].
  cbn [fst snd] in Hround.
  destruct (ignored_events start events
              (mkController g1 (Some (Op.mk click start zoomIdentity_k m)) (dispatched c))
              (Op.mk click start zoomIdentity_k m) eq_refl eq_refl eq_refl)
    as (t & Ht & Hrun); auto.
  rewrite Hrun. unfold on_zoomend.
  cbn [op globe dispatched Op.with_type Op.type Op.manipulator Op.startMouse].
  rewrite Hround. eexists. split; [reflexivity|].
  cbn [globe op dispatched]. repeat split.
  destruct Ht as [-> | ->]; auto.
Qed.


Lemma same_but_refl (g : Globe) : same_but_angles_and_scale g g.
Proof. repeat split. Qed.

Lemma same_but_move (m : Manipulator) mouse s (g0 g : Globe) :
  same_but_angles_and_scale g0 g ->
  same_but_angles_and_scale g0 (move m mouse s g).
Proof.
  intros (Hv & Hr & Ht & Hp & Ha & He & Hg).
  destruct (move_frame m mouse s g) as (Hv1 & Hr1 & Ht1 & Hp1 & Ha1 & He1 & Hg1 & _).
  repeat split; congruence.
Qed.

(** What a run of [zoom] events keeps, and the shape of what it
    dispatches. *)
Lemma events_invariant (base : list Dispatched) events :
  forall (c : Controller) (o : Op.t) (g0 : Globe),
    op c = Some o ->
    same_but_angles_and_scale g0 (globe c) ->
    ((Op.type o = click \/ Op.type o = spurious) /\ dispatched c = base \/
     (Op.type o = drag \/ Op.type o = zoom) /\
     exists k, dispatched c = base ++ MoveStart :: replicate (S k) Move) ->
    exists o',
      let c' := fold_left (fun c e => on_zoom' (fst e) (snd e) c) events c in
      op c' = Some o' /\
      Op.manipulator o' = Op.manipulator o /\
      Op.startMouse o' = Op.startMouse o /\
      same_but_angles_and_scale g0 (globe c') /\
      ((Op.type o' = click \/ Op.type o' = spurious) /\ dispatched c' = base \/
       (Op.type o' = drag \/ Op.type o' = zoom) /\
       exists k, dispatched c' = base ++ MoveStart :: replicate (S k) Move).
Proof.
  induction events as [|e events IH]; intros c o g0 Hop Hsame Hlog.
  - exists o. cbn. auto.
  - cbn [fold_left].
    pose proof (on_zoom_effect (fst e) (snd e) c o Hop) as Hstep. cbv zeta in Hstep.
    set (d := distance (fst e) (Op.startMouse o)) in *.
    set (t' := next_type (Op.type o) d (snd e) (Op.startScale o)) in *.
    destruct (barely_moved (Op.type o) d (snd e) (Op.startScale o)) eqn:Hb.
    + (* ignored *)
      assert (Ht : Op.type o = click \/ Op.type o = spurious).
      { unfold barely_moved in Hb. destruct (Op.type o); auto; discriminate. }
      assert (Ht' : t' = click \/ t' = spurious).
      { unfold t', next_type. unfold barely_moved in Hb.
        destruct Ht as [E | E]; rewrite E in *; rewrite Hb;
          destruct (JS.gt _ _); auto. }
      destruct (IH (on_zoom' (fst e) (snd e) c) (Op.with_type t' o) g0)
        as (o' & Hop' & Hm' & Hsm' & Hsame' & Hlog'); rewrite Hstep; auto.
      * left. split; [exact Ht'|]. cbn [dispatched].
        destruct Hlog as [[_ Hl]|[[E|E] _]]; [exact Hl| |];
          destruct Ht as [E'|E']; congruence.
      * exists o'. rewrite Hstep in *. now destruct o.
    + (* the event counts *)
      assert (Ht' : t' = drag \/ t' = zoom).
      { unfold t', next_type. unfold barely_moved in Hb.
        destruct (Op.type o); rewrite ?Hb;
          try destruct (JS.loose_ne (snd e) (Op.startScale o)); auto. }
      destruct (IH (on_zoom' (fst e) (snd e) c) (Op.with_type t' o) g0)
        as (o' & Hop' & Hm' & Hsm' & Hsame' & Hlog'); rewrite Hstep; auto.
      * cbn [globe]. now apply same_but_move.
      * right. split; [exact Ht'|]. cbn [dispatched].
        destruct Hlog as [[[E|E] Hl]|[[E|E] [k Hl]]]; rewrite E, Hl.
        -- exists 0%nat. now rewrite <- !app_assoc.
        -- exists 0%nat. now rewrite <- !app_assoc.
        -- exists (S k). rewrite app_nil_r, <- app_assoc. cbn [app].
           f_equal. f_equal. change (Move :: replicate k Move) with (replicate (S k) Move).
           rewrite <- replicate_S_end. reflexivity.
        -- exists (S k). rewrite app_nil_r, <- app_assoc. cbn [app].
           f_equal. f_equal. change (Move :: replicate k Move) with (replicate (S k) Move).
           rewrite <- replicate_S_end. reflexivity.
      * exists o'. rewrite Hstep in *. now destruct o.
Qed.


Lemma interaction_invariant (start : number * number) events (c : Controller) :
  op c = None ->
  exists o',
    let c' := interaction' start events c in
    op c' = Some o' /\
    Op.manipulator o' = fst (manipulator start zoomIdentity_k (globe c)) /\
    Op.startMouse o' = start /\
    same_but_angles_and_scale (snd (manipulator start zoomIdentity_k (globe c)))
                              (globe c') /\
    ((Op.type o' = click \/ Op.type o' = spurious) /\ dispatched c' = dispatched c \/
     (Op.type o' = drag \/ Op.type o' = zoom) /\
     exists k, dispatched c' = dispatched c ++ MoveStart :: replicate (S k) Move).
Proof.
  intros Hop. unfold interaction, on_zoomstart, ensure_op. rewrite Hop. unfold newOp.
  destruct (manipulator start zoomIdentity_k (globe c)) as [m g1]. cbn [fst snd].
  apply (events_invariant (dispatched c) events
           (mkController g1 (Some (Op.mk click start zoomIdentity_k m)) (dispatched c))
           (Op.mk click start zoomIdentity_k m) g1 eq_refl (same_but_refl g1)).
  left. auto.
Qed.

(** X10.  What a whole interaction dispatches, from pointer-down to
    pointer-up on an idle controller, is one of three things: nothing; one
    [Click] at the start position; or one [MoveStart], then one or more
    [Move], then the end-of-move signal.  So "move started" comes at most
    once and before every "move", and the end signal only after a move. *)
Theorem interaction_dispatches (start : number * number)
    (events : list ((number * number) * number)) (c : Controller) :
  op c = None ->
  exists c',
    complete' start events c = Some c' /\
    (dispatched c' = dispatched c \/
     (exists coord, dispatched c' = dispatched c ++ [Click start coord]) \/
     (exists k, dispatched c'
                = dispatched c ++ MoveStart :: replicate (S k) Move ++ [SignalEnd])).
Proof.
  intros Hop. destruct (interaction_invariant start events c Hop)
    as (o' & Hop' & _ & Hstart & _ & Hlog).
  cbv zeta in *. unfold complete_interaction, on_zoomend. rewrite Hop'.
  eexists. split; [reflexivity|]. cbn [dispatched].
  destruct Hlog as [[[E|E] Hl]|[[E|E] [k Hl]]]; rewrite E, Hl.
  - right. left. rewrite Hstart. eauto.
  - now left.
  - right. right. exists k. now rewrite <- app_assoc.
  - right. right. exists k. now rewrite <- app_assoc.
Qed.

(** X11.  Every interaction that starts from the idle controller ends: the
    pointer-up handler finds its operation (it does not raise), the
    controller is idle afterwards, and the globe differs from the one before
    pointer-down at most in its two rotation angles and its scale; in
    particular the precision raised for the interaction is restored. *)
Theorem interaction_completes (start : number * number)
    (events : list ((number * number) * number)) (c : Controller) :
  op c = None ->
  exists c',
    complete' start events c = Some c' /\ op c' = None /\
    same_but_angles_and_scale (globe c) (globe c').
Proof.
  intros Hop. destruct (interaction_invariant start events c Hop)
    as (o' & Hop' & Hm & _ & Hsame & _).
  cbv zeta in *. unfold complete_interaction, on_zoomend. rewrite Hop'.
  eexists. split; [reflexivity|]. split; [reflexivity|].
  cbn [globe]. rewrite Hm.
  destruct Hsame as (Hv & Hr & Ht & Hp & Ha & He & Hg).
  unfold manipulator in *. cbn [fst snd] in *.
  unfold manipulator_end, same_but_angles_and_scale.
  cbn [variant projection original D3.with_precision D3.raw D3.translate
       D3.precision D3.clipAngle D3.clipExtent D3.rotate] in *.
  repeat split; assumption.
Qed.

(** X12.  Once an operation is a [zoom], the pointer no longer turns the
    globe: every further [zoom] event keeps the type and the three rotation
    angles, whatever the pointer does, and sets the scale of the event. *)
Theorem zoom_keeps_rotation (mouse : number * number) (s : number)
    (c : Controller) (o : Op.t) :
  op c = Some o -> Op.type o = zoom ->
  let c' := on_zoom' mouse s c in
  Op.type <$> op c' = Some zoom /\
  D3.rotate (projection (globe c')) = D3.rotate (projection (globe c)) /\
  D3.scale (projection (globe c')) = s.
Proof.
  intros Hop Ht. cbv zeta. rewrite (on_zoom_effect mouse s c o Hop).
  destruct o as [t sm ss mp]. cbn [Op.type] in Ht. subst t.
  cbn. auto.
Qed.

End InteractionFacts.

Lemma barely_moved_interaction_witness :
  exists c',
    complete_interaction sample_distance identity_invert (JS.of_Z 0, JS.of_Z 0)
      [((JS.of_Z 2, JS.of_Z 0), JS.of_Z 1)] idle_controller = Some c' /\
    globe c' = sample_globe.
Proof.
  destruct (barely_moved_interaction sample_distance identity_invert
              (JS.of_Z 0, JS.of_Z 0) [((JS.of_Z 2, JS.of_Z 0), JS.of_Z 1)]
              idle_controller eq_refl) as (c' & Hc & Hg & _).
  - repeat constructor.
  - exists c'. split; [exact Hc|exact Hg].
Defined.

Lemma interaction_dispatches_witness :
  exists c',
    complete_interaction sample_distance identity_invert (JS.of_Z 0, JS.of_Z 0)
      [((JS.of_Z 9, JS.of_Z 0), JS.of_Z 1); ((JS.of_Z 9, JS.of_Z 0), JS.of_Z 2)]
      idle_controller = Some c' /\
    dispatched c' = [MoveStart; Move; Move; SignalEnd].
Proof.
  destruct (interaction_dispatches sample_distance identity_invert
              (JS.of_Z 0, JS.of_Z 0)
              [((JS.of_Z 9, JS.of_Z 0), JS.of_Z 1); ((JS.of_Z 9, JS.of_Z 0), JS.of_Z 2)]
              idle_controller eq_refl) as (c' & Hc & _).
  exists c'. split; [exact Hc|].
  vm_compute in Hc. injection Hc as <-. reflexivity.
Defined.

Lemma interaction_completes_witness :
  exists c',
    complete_interaction sample_distance identity_invert (JS.of_Z 0, JS.of_Z 0)
      [((JS.of_Z 9, JS.of_Z 0), JS.of_Z 2)] idle_controller = Some c' /\
    D3.precision (projection (globe c')) = D3.precision (projection sample_globe).
Proof.
  destruct (interaction_completes sample_distance identity_invert
              (JS.of_Z 0, JS.of_Z 0) [((JS.of_Z 9, JS.of_Z 0), JS.of_Z 2)]
              idle_controller eq_refl) as (c' & Hc & _ & Hsame).
  exists c'. split; [exact Hc|]. exact (proj1 (proj2 (proj2 (proj2 Hsame)))).
Defined.

Lemma zoom_keeps_rotation_witness :
  D3.rotate (projection (globe (on_zoom sample_distance (JS.of_Z 50, JS.of_Z 50)
     (JS.of_Z 3)
     (interaction sample_distance (JS.of_Z 0, JS.of_Z 0)
        [((JS.of_Z 1, JS.of_Z 0), JS.of_Z 2)] idle_controller))))
  = D3.rotate (projection (globe
     (interaction sample_distance (JS.of_Z 0, JS.of_Z 0)
        [((JS.of_Z 1, JS.of_Z 0), JS.of_Z 2)] idle_controller))).
Proof.
  refine (proj1 (proj2 (zoom_keeps_rotation sample_distance (JS.of_Z 50, JS.of_Z 50)
                          (JS.of_Z 3) _ _ _ _)));
    [vm_compute; reflexivity | reflexivity].
Defined.

(** ** More on the orientation setter, and locating *)

Section OrientationMore.

Variable geo : D3.Raw -> D3.Projection.
Variable pathBounds : D3.Projection -> Box.
Variable timezoneOffset : number.
Variable floorMod : number -> number -> number.
Variable shortest_decimal : Q -> string.

Local Abbreviation orientation' :=
  (orientation geo pathBounds timezoneOffset floorMod shortest_decimal).

(** X13.  Setting the same orientation string twice is setting it once. *)
Theorem orientation_setter_idempotent (o : string) (view : View.t) (g : Globe) :
  match orientation' (Some o) view g with
  | Mutated g1 => orientation' (Some o) view g1 = Mutated g1
  | Serialized _ => False
  end.
Proof.
  destruct g as [v p]. unfold orientation. cbn [projection variant].
  rewrite rotate_with_translate, rotate_with_scale, rotate_with_rotate.
  unfold fit, center, scaleExtent. cbn [variant projection].
  destruct (JS.isFinite _ && JS.isFinite _).
  - unfold D3.wrap3. cbn [fst snd]. rewrite roll_wrapped.
    destruct p; reflexivity.
  - destruct p; reflexivity.
Qed.

(** X14.  The setter's result does not depend on how the globe was turned,
    scaled or placed before: two globes that agree in the variant, the raw
    projection, the precision, the clipping and the roll are the same
    globe after the same orientation string is set. *)
Theorem orientation_setter_forgets (o : string) (view : View.t) (g g' : Globe) :
  same_fixed_parts g g' ->
  orientation' (Some o) view g' = orientation' (Some o) view g.
Proof.
  destruct g as [v p], g' as [v' p'].
  intros (Hv & Hr & Hp & Ha & He & Hc). cbn [variant projection] in *. subst v'.
  unfold orientation. cbn [projection variant]. rewrite Hc.
  unfold fit, center, scaleExtent. cbn [variant projection].
  destruct p, p'. cbn [D3.raw D3.precision D3.clipAngle D3.clipExtent] in *.
  subst. reflexivity.
Qed.

(** X15.  What the setter leaves alone: the variant, the raw projection,
    the precision and the clipping always, and the roll whenever both angle
    parts are finite numbers. *)
Theorem orientation_setter_frame (o : string) (view : View.t) (g : Globe) :
  match orientation' (Some o) view g with
  | Mutated g1 =>
      variant g1 = variant g /\
      D3.raw (projection g1) = D3.raw (projection g) /\
      D3.precision (projection g1) = D3.precision (projection g) /\
      D3.clipAngle (projection g1) = D3.clipAngle (projection g) /\
      D3.clipExtent (projection g1) = D3.clipExtent (projection g) /\
      (JS.isFinite (JSString.unary_plus (JSString.split "," o !! 0%nat)) = true ->
       JS.isFinite (JSString.unary_plus (JSString.split "," o !! 1%nat)) = true ->
       snd (D3.rotate (projection g1)) = snd (D3.rotate (projection g)))
  | Serialized _ => False
  end.
Proof.
  unfold orientation. cbn [projection variant].
  rewrite rotate_with_translate, rotate_with_scale, rotate_with_rotate.
  repeat split. intros -> ->. cbn [andb]. unfold D3.wrap3. cbn [snd].
  apply roll_wrapped.
Qed.

Lemma located_angle (q : Q) :
  (Qabs q < 360)%Q ->
  JS.neg (D3.wrap (JS.neg (Fin (Qred q)))) = Fin (Qred q).
Proof.
  intros H. cbn [JS.neg]. rewrite wrap_small.
  - cbn [JS.neg]. f_equal. apply Qred_complete. rewrite !Qred_correct. ring.
  - now rewrite Qred_correct, Qabs_opp, Qred_correct.
Qed.

(** X16.  Locating turns only the orthographic globe.  There, once the
    projection is turned to [locate(coord)], for coordinates short of a
    full turn (as longitudes and latitudes are), the orientation getter
    names the coordinates themselves (to two decimals) with the scale
    unchanged, and the roll is the one before; on every other variant the
    globe stays as it is. *)
Theorem located_orientation (lon lat : Q) (view : View.t) (g : Globe) :
  (Qabs lon < 360)%Q -> (Qabs lat < 360)%Q ->
  let coord := (Fin (Qred lon), Fin (Qred lat)) in
  match variant g with
  | orthographic =>
      orientation' None view (located coord g)
      = Serialized
          (JSString.join ","
             [JSString.toFixed2 shortest_decimal (fst coord);
              JSString.toFixed2 shortest_decimal (snd coord);
              JSString.toString shortest_decimal
                (JS.round (D3.scale (projection g)))]) /\
      snd (D3.rotate (projection (located coord g)))
      = snd (D3.rotate (projection g))
  | _ => located coord g = g
  end.
Proof.
  intros Hlon Hlat. cbv zeta. unfold located, locate.
  destruct g as [v p]. cbn [variant projection fst snd].
  destruct v; try reflexivity.
  unfold orientation. cbn [variant projection].
  rewrite rotate_with_rotate. unfold D3.wrap3. cbn [fst snd D3.with_rotate D3.scale].
  rewrite roll_wrapped, (located_angle lon Hlon), (located_angle lat Hlat).
  split; reflexivity.
Qed.

End OrientationMore.

Lemma orientation_setter_forgets_witness :
  orientation sample_geo disc_bounds sample_timezoneOffset sample_floorMod
    sample_shortest_decimal (Some "10,20,300") sample_view zoomed_out_globe
  = orientation sample_geo disc_bounds sample_timezoneOffset sample_floorMod
      sample_shortest_decimal (Some "10,20,300") sample_view sample_globe.
Proof.
  apply (orientation_setter_forgets sample_geo disc_bounds sample_timezoneOffset
           sample_floorMod sample_shortest_decimal "10,20,300" sample_view
           sample_globe zoomed_out_globe).
  vm_compute. repeat split.
Defined.

Lemma located_orientation_witness :
  orientation sample_geo disc_bounds sample_timezoneOffset sample_floorMod
    sample_shortest_decimal None sample_view
    (located (Fin (Qred 13), Fin (Qred 52)) sample_globe)
  = Serialized "13.00,52.00,250".
Proof.
  assert (Hlon : (Qabs 13 < 360)%Q) by reflexivity.
  assert (Hlat : (Qabs 52 < 360)%Q) by reflexivity.
  pose proof (proj1 (located_orientation sample_geo disc_bounds
                       sample_timezoneOffset sample_floorMod
                       sample_shortest_decimal 13 52 sample_view sample_globe
                       Hlon Hlat)) as H.
  rewrite H. vm_compute. reflexivity.
Defined.

(** ** More on the sweep: batches and the store *)

Section SweepMore.

Variable distortion : D3.Projection -> number -> number -> number -> number -> Distortion.
Variable invert : D3.Projection -> number * number -> option (number * number).
Variable projection : D3.Projection.
Variable grids : Grids.
Variable bounds : IBounds.t.

Local Abbreviation interpolatePixel' :=
  (interpolatePixel distortion invert projection grids bounds).
Local Abbreviation interpolateColumn' :=
  (interpolateColumn distortion invert projection grids bounds).
Local Abbreviation interpolateField' :=
  (interpolateField distortion invert projection grids bounds).
Local Abbreviation batchInterpolate' :=
  (batchInterpolate distortion invert projection grids bounds).

(** X17.  Time slicing does not show in the result as long as nothing
    changes the projection between the batches: then, however the clock
    cuts the sweep into batches, the batches end, and the promise is
    resolved with the field (and the store) of the sweep run in one
    piece. *)
Theorem batches_resolve_with_sweep (live : nat -> D3.Projection)
    (clock : nat -> Z -> bool) (mask : Mask.t) (fuel : nat) :
  (forall n, live n = projection) ->
  (stride2_steps (IBounds.x bounds) (IBounds.xMax bounds - 1) + 1 < fuel)%nat ->
  run_batches distortion invert live grids bounds fuel clock 0 (IBounds.x bounds)
    (mkSweepState ∅ mask initial_heap)
  = Some (interpolateField' mask).
Proof.
  intros Hlive Hfuel.
  now rewrite (run_batches_from distortion invert projection grids bounds live
                 clock fuel Hlive).
Qed.

(** X18.  A batch yields only after progress: when [batchInterpolate]
    yields, it has swept at least one more pair of columns, every pair it
    swept began left of [bounds.xMax], the clock was over budget at the
    cursor it yields with and at no cursor before, and the state it leaves
    is that of those sweeps and nothing else. *)
Theorem batch_yields_after_progress (over_budget : Z -> bool) (fuel : nat) :
  forall (x : Z) (s : SweepState) (x' : Z) (s' : SweepState),
    batchInterpolate' fuel over_budget x s = Some (Yielded x' s') ->
    exists k : nat,
      x' = x + 2 * Z.of_nat (S k) /\
      x' - 2 < IBounds.xMax bounds /\
      over_budget x' = true /\
      (forall j : nat, (0 < j <= k)%nat -> over_budget (x + 2 * Z.of_nat j) = false) /\
      s' = stride2_loop (S k) interpolateColumn' x s.
Proof.
  induction fuel as [|fuel IH]; intros x s x' s' H; [discriminate H|].
  cbn [batchInterpolate] in H.
  destruct (Z.ltb_spec x (IBounds.xMax bounds)) as [Hlt|Hge]; [|discriminate H].
  destruct (over_budget (x + 2)) eqn:Hob.
  - injection H as <- <-. exists 0%nat.
    replace (x + 2 * Z.of_nat 1) with (x + 2) by lia.
    split; [reflexivity|]. split; [lia|]. split; [exact Hob|].
    split; [intros j Hj; lia|reflexivity].
  - destruct (IH _ _ _ _ H) as (k & Hx' & Hlast & Hover & Hbefore & Hs').
    exists (S k).
    split; [lia|]. split; [exact Hlast|]. split; [exact Hover|].
    split; [|exact Hs'].
    intros j Hj. destruct j as [|[|j]]; [lia| |].
    + replace (x + 2 * Z.of_nat 1) with (x + 2) by lia. exact Hob.
    + replace (x + 2 * Z.of_nat (S (S j))) with (x + 2 + 2 * Z.of_nat (S j)) by lia.
      apply Hbefore. lia.
Qed.

Lemma column_loop_store (x : Z) (n : nat) :
  forall (y : Z) (s : ColumnState),
    heap_extends (column_heap s) (column_heap (stride2_loop n (interpolatePixel' x) y s)).
Proof.
  induction n as [|n IH]; intros y s; cbn [stride2_loop].
  - apply heap_extends_refl.
  - eapply heap_extends_trans; [|apply IH].
    apply (interpolatePixel_frame distortion invert projection grids bounds x y s).
Qed.

Lemma sweep_store (n : nat) :
  forall (x : Z) (s : SweepState),
    heap_extends (sweep_heap s) (sweep_heap (stride2_loop n interpolateColumn' x s)).
Proof.
  induction n as [|n IH]; intros x s; cbn [stride2_loop].
  - apply heap_extends_refl.
  - eapply heap_extends_trans; [|apply IH].
    unfold interpolateColumn. cbn [sweep_heap].
    apply (column_loop_store x _ _ (mkColumnState ∅ (sweep_mask s) (sweep_heap s))).
Qed.

(** X20.  In the field of a sweep a defined point is inside the boundary,
    at any coordinates, whole or not. *)
Theorem swept_defined_is_inside (mask : Mask.t) (x y : number) :
  let f := fst (interpolateField' mask) in
  let h := snd (interpolateField' mask) in
  Field.isDefined f h x y = true -> Field.isInsideBoundary f x y = true.
Proof.
  cbv zeta. apply isDefined_inside.
  unfold interpolateField. cbn [snd].
  pose proof (sweep_store (stride2_steps (IBounds.x bounds) (IBounds.xMax bounds - 1))
                (IBounds.x bounds) (mkSweepState ∅ mask initial_heap)) as Hext.
  cbn [sweep_heap] in Hext.
  destruct (sentinels_intact_extends _ _ Hext initial_heap_sentinels) as [Hn _].
  unfold deref. now rewrite Hn.
Qed.

End SweepMore.

Lemma batches_resolve_with_sweep_witness :
  run_batches no_distortion identity_invert (fun _ => sample_geo D3.geoOrthographic)
    constant_grids corner_bounds 4 (fun _ _ => true) 0 0
    (mkSweepState ∅ corner_mask initial_heap)
  = Some (interpolateField no_distortion identity_invert
            (sample_geo D3.geoOrthographic) constant_grids corner_bounds corner_mask).
Proof.
  apply (batches_resolve_with_sweep no_distortion identity_invert
           (sample_geo D3.geoOrthographic) constant_grids corner_bounds
           (fun _ => sample_geo D3.geoOrthographic) (fun _ _ => true) corner_mask 4).
  - reflexivity.
  - vm_compute. lia.
Defined.

(** When the globe is turned between two batches, the field mixes the two
    projections: the vector at the pixel (2, 0), swept in the second batch,
    holds the longitude 12 of the turned projection (scaled by the height
    2 of the bounds), where the sweep in one piece finds the longitude 2. *)
Example turned_between_batches :
  match run_batches no_distortion turning_invert turned_after_first longitude_grids
          corner_bounds 4 (fun _ _ => true) 0 0
          (mkSweepState ∅ two_samples_mask initial_heap) with
  | Some (f, h) =>
      array_get (deref h (Field.lookup f (JS.of_Z 0) (JS.of_Z 0))) 0 = VNum (JS.of_Z 0) /\
      array_get (deref h (Field.lookup f (JS.of_Z 2) (JS.of_Z 0))) 0 = VNum (JS.of_Z 24)
  | None => False
  end /\
  let (f, h) := interpolateField no_distortion turning_invert (turned_after_first 0)
                  longitude_grids corner_bounds two_samples_mask in
  array_get (deref h (Field.lookup f (JS.of_Z 2) (JS.of_Z 0))) 0 = VNum (JS.of_Z 4).
Proof. vm_compute. repeat split. Qed.

Lemma batch_yields_after_progress_witness :
  exists k : nat,
    2 = 0 + 2 * Z.of_nat (S k) /\
    2 - 2 < IBounds.xMax corner_bounds.
Proof.
  destruct (batch_yields_after_progress no_distortion identity_invert
              (sample_geo D3.geoOrthographic) constant_grids corner_bounds
              (fun _ => true) 3 0 (mkSweepState ∅ corner_mask initial_heap) 2
              (interpolateColumn no_distortion identity_invert
                 (sample_geo D3.geoOrthographic) constant_grids corner_bounds 0
                 (mkSweepState ∅ corner_mask initial_heap)) eq_refl)
    as (k & Hx & Hlast & _).
  exists k. split; [exact Hx|exact Hlast].
Defined.

Lemma swept_defined_is_inside_witness :
  Field.isInsideBoundary
    (fst (interpolateField no_distortion identity_invert
            (sample_geo D3.geoOrthographic) constant_grids corner_bounds corner_mask))
    (JS.of_Z 1) (JS.of_Z 0) = true.
Proof.
  apply (swept_defined_is_inside no_distortion identity_invert
           (sample_geo D3.geoOrthographic) constant_grids corner_bounds corner_mask
           (JS.of_Z 1) (JS.of_Z 0)).
  vm_compute. reflexivity.
Defined.

(** ** The overlay the sweep paints *)

Lemma pixel_in_data_same (m m' : Mask.t) (x y : Z) :
  Mask.width m' = Mask.width m -> length (Mask.data m') = length (Mask.data m) ->
  pixel_in_data m x y -> pixel_in_data m' x y.
Proof. unfold pixel_in_data. intros -> ->. exact id. Qed.

Lemma pixel_bytes_set_eq (m : Mask.t) (x y : Z) (color : Z * Z * Z * Z) :
  pixel_in_data m x y -> pixel_bytes (Mask.set x y color m) x y = stored_color color.
Proof.
  intros [Hlo Hhi]. unfold pixel_bytes, Mask.set, stored_color.
  destruct color as [[[r g] b] a]. cbn [Mask.width Mask.data].
  set (i := (y * Mask.width m + x) * 4) in *.
  repeat f_equal;
    rewrite ?data_get_set_ne by lia;
    (rewrite data_get_set_eq by (rewrite ?length_data_set; lia)); reflexivity.
Qed.

Lemma pixel_bytes_set_other (m : Mask.t) (a b x y : Z) (color : Z * Z * Z * Z) :
  0 <= a < Mask.width m -> 0 <= x < Mask.width m -> (a, b) <> (x, y) ->
  pixel_bytes (Mask.set a b color m) x y = pixel_bytes m x y.
Proof.
  intros Ha Hx Hne. unfold pixel_bytes, Mask.set.
  destruct color as [[[r g] bl] al]. cbn [Mask.width Mask.data].
  assert (Hidx : b * Mask.width m + a <> y * Mask.width m + x).
  { intros H. apply pixel_index_inj in H as [? ?]; [congruence|lia|lia]. }
  now rewrite !data_get_set_ne by lia.
Qed.

Lemma isVisible_bytes (m m' : Mask.t) (x y x' y' : Z) :
  pixel_bytes m' x' y' = pixel_bytes m x y ->
  Mask.isVisible m' x' y' = Mask.isVisible m x y.
Proof.
  unfold pixel_bytes, Mask.isVisible. intros H. injection H as _ _ _ ->. reflexivity.
Qed.

Lemma width_paint_block (bx by_ : Z) (color : Z * Z * Z * Z) (m : Mask.t) :
  Mask.width (paint_block bx by_ color m) = Mask.width m.
Proof. unfold paint_block. now rewrite !width_set. Qed.

Lemma length_paint_block (bx by_ : Z) (color : Z * Z * Z * Z) (m : Mask.t) :
  length (Mask.data (paint_block bx by_ color m)) = length (Mask.data m).
Proof. unfold paint_block. now rewrite !length_set. Qed.

Lemma pixel_bytes_block_out (m : Mask.t) (bx by_ x y : Z) (color : Z * Z * Z * Z) :
  0 <= bx -> bx + 1 < Mask.width m -> 0 <= x < Mask.width m ->
  ~ (bx <= x <= bx + 1 /\ by_ <= y <= by_ + 1) ->
  pixel_bytes (paint_block bx by_ color m) x y = pixel_bytes m x y.
Proof.
  intros H0 H1 Hx Hout. unfold paint_block.
  rewrite !pixel_bytes_set_other; rewrite ?width_set; try lia; try reflexivity;
    intros H; inversion H; lia.
Qed.

Lemma pixel_bytes_block_in (m : Mask.t) (bx by_ a c : Z) (color : Z * Z * Z * Z) :
  0 <= bx -> bx + 1 < Mask.width m -> 0 <= a <= 1 -> 0 <= c <= 1 ->
  pixel_in_data m (bx + a) (by_ + c) ->
  pixel_bytes (paint_block bx by_ color m) (bx + a) (by_ + c) = stored_color color.
Proof.
  intros H0 H1 Ha Hc Hin. unfold paint_block.
  assert (a = 0 \/ a = 1) as [-> | ->] by lia;
    assert (c = 0 \/ c = 1) as [-> | ->] by lia;
    rewrite ?Z.add_0_r in *;
    repeat (rewrite pixel_bytes_set_other
              by (rewrite ?width_set; try lia; intros H; inversion H; lia));
    apply pixel_bytes_set_eq;
    unfold pixel_in_data in *; rewrite ?width_set, ?length_set; exact Hin.
Qed.

Section OverlayFacts.

Variable distortion : D3.Projection -> number -> number -> number -> number -> Distortion.
Variable invert : D3.Projection -> number * number -> option (number * number).
Variable projection : D3.Projection.
Variable grids : Grids.
Variable bounds : IBounds.t.

Local Abbreviation interpolatePixel' :=
  (interpolatePixel distortion invert projection grids bounds).
Local Abbreviation interpolateColumn' :=
  (interpolateColumn distortion invert projection grids bounds).
Local Abbreviation interpolateField' :=
  (interpolateField distortion invert projection grids bounds).
Local Abbreviation sample_color' := (sample_color invert projection grids).

(** The mask after one visible sample pixel: its block painted in the
    sample's colour. *)
Lemma interpolatePixel_paints (x y : Z) (s : ColumnState) :
  Mask.isVisible (column_mask s) x y = true ->
  column_mask (interpolatePixel' x y s)
  = paint_block x y (sample_color' x y) (column_mask s).
Proof.
  intros Hvis. unfold interpolatePixel, sample_color, paint_block. rewrite Hvis.
  destruct (invert projection (JS.of_Z x, JS.of_Z y)) as [[lambda phi]|];
    [destruct (JS.isFinite lambda);
       [destruct (interpolate grids lambda phi) as [arr|]|]|];
    try reflexivity.
  unfold alloc, distort.
  destruct (distortion projection lambda phi (JS.of_Z x) (JS.of_Z y))
    as [[[d0 d1] d2] d3].
  set (w := fresh (dom (column_heap s))).
  assert (Hd : deref (<[w := arr]> (column_heap s)) w = arr).
  { unfold deref. now rewrite lookup_insert_eq. }
  rewrite Hd.
  match goal with
  | |- context [array_get (deref (<[w := ?arr']> ?h) w) 2] =>
      assert (Hm : array_get (deref (<[w := arr']> h) w) 2 = array_get arr 2)
  end.
  { unfold deref. rewrite lookup_insert_eq. cbn [default from_option id].
    unfold array_get. now rewrite !array_set_lookup_gt by lia. }
  rewrite Hm. reflexivity.
Qed.

Lemma interpolatePixel_mask (x y : Z) (s : ColumnState) :
  let s' := interpolatePixel' x y s in
  Mask.width (column_mask s') = Mask.width (column_mask s) /\
  length (Mask.data (column_mask s')) = length (Mask.data (column_mask s)) /\
  (0 <= x -> x + 1 < Mask.width (column_mask s) ->
   forall x' y', 0 <= x' < Mask.width (column_mask s) ->
     ~ (Mask.isVisible (column_mask s) x y = true /\
        x <= x' <= x + 1 /\ y <= y' <= y + 1) ->
     pixel_bytes (column_mask s') x' y' = pixel_bytes (column_mask s) x' y') /\
  (0 <= x -> x + 1 < Mask.width (column_mask s) ->
   Mask.isVisible (column_mask s) x y = true ->
   forall a c, 0 <= a <= 1 -> 0 <= c <= 1 ->
     pixel_in_data (column_mask s) (x + a) (y + c) ->
     pixel_bytes (column_mask s') (x + a) (y + c) = stored_color (sample_color' x y)).
Proof.
  cbv zeta. destruct (Mask.isVisible (column_mask s) x y) eqn:Hvis.
  - rewrite (interpolatePixel_paints x y s Hvis).
    split; [apply width_paint_block|]. split; [apply length_paint_block|]. split.
    + intros Hx0 Hx1 x' y' Hx' Hout. apply pixel_bytes_block_out; auto.
    + intros Hx0 Hx1 _ a c Ha Hc Hin. now apply pixel_bytes_block_in.
  - rewrite (interpolatePixel_invisible distortion invert projection grids bounds
               x y s Hvis).
    repeat split. intros _ _ H. discriminate H.
Qed.

(** The overlay under the loop over [y] of one column. *)
Lemma column_loop_overlay (x W : Z) (L : nat) (visible : Z -> bool) :
  0 <= x -> x + 1 < W ->
  forall (n : nat) (y : Z) (s : ColumnState),
    Mask.width (column_mask s) = W ->
    length (Mask.data (column_mask s)) = L ->
    (forall y', y <= y' -> Mask.isVisible (column_mask s) x y' = visible y') ->
    let s' := stride2_loop n (interpolatePixel' x) y s in
    Mask.width (column_mask s') = W /\
    length (Mask.data (column_mask s')) = L /\
    (forall j a c, 0 <= j < Z.of_nat n -> 0 <= a <= 1 -> 0 <= c <= 1 ->
       visible (y + 2 * j) = true ->
       pixel_in_data (column_mask s) (x + a) (y + 2 * j + c) ->
       pixel_bytes (column_mask s') (x + a) (y + 2 * j + c)
       = stored_color (sample_color' x (y + 2 * j))) /\
    (forall x' y', 0 <= x' < W ->
       (forall j, 0 <= j < Z.of_nat n -> visible (y + 2 * j) = true ->
          ~ (x <= x' <= x + 1 /\ y + 2 * j <= y' <= y + 2 * j + 1)) ->
       pixel_bytes (column_mask s') x' y' = pixel_bytes (column_mask s) x' y').
Proof.
  intros Hx0 Hx1. induction n as [|n IH]; intros y s HW HL Hvis.
  - cbn [stride2_loop]. split; [exact HW|]. split; [exact HL|].
    split; [intros j a c Hj; lia|reflexivity].
  - cbn [stride2_loop].
    destruct (interpolatePixel_mask x y s) as (HW1 & HL1 & Hout1 & Hin1).
    set (s1 := interpolatePixel' x y s) in *.
    rewrite HW in HW1, Hout1, Hin1. rewrite HL in HL1.
    specialize (Hout1 Hx0 Hx1). specialize (Hin1 Hx0 Hx1).
    assert (Hvis1 : forall y', y + 2 <= y' ->
              Mask.isVisible (column_mask s1) x y' = visible y').
    { intros y' Hy'. rewrite <- (Hvis y') by lia.
      apply isVisible_bytes. apply Hout1; lia. }
    destruct (IH (y + 2) s1 HW1 HL1 Hvis1) as (HW' & HL' & Hin & Hout).
    set (s' := stride2_loop n (interpolatePixel' x) (y + 2) s1) in *.
    split; [exact HW'|]. split; [exact HL'|]. split.
    + intros j a c Hj Ha Hc Hv Hdata. destruct (Z.eq_dec j 0) as [->|Hj0].
      * rewrite Z.mul_0_r, Z.add_0_r in *.
        rewrite Hout by (try lia; intros j Hj' _; lia).
        apply Hin1; auto. now rewrite Hvis by lia.
      * replace (y + 2 * j) with (y + 2 + 2 * (j - 1)) in * by lia.
        apply Hin; try lia; auto.
        apply (pixel_in_data_same (column_mask s)); congruence.
    + intros x' y' Hx' Hfree. rewrite Hout.
      * apply Hout1; [exact Hx'|]. intros (Hv & Hblock).
        apply (Hfree 0); [lia| |lia].
        rewrite Z.mul_0_r, Z.add_0_r. now rewrite <- (Hvis y) by lia.
      * exact Hx'.
      * intros j Hj Hv Hblock.
        apply (Hfree (j + 1)); [lia| |lia].
        now replace (y + 2 * (j + 1)) with (y + 2 + 2 * j) by lia.
Qed.

Local Abbreviation ny := (stride2_steps (IBounds.y bounds) (IBounds.yMax bounds)).

(** The overlay under the sweep of the columns. *)
Lemma sweep_overlay (W : Z) (L : nat) (visible : Z -> Z -> bool) :
  forall (n : nat) (x : Z) (s : SweepState),
    0 <= x -> (n <> 0%nat -> x + 2 * Z.of_nat n <= W) ->
    Mask.width (sweep_mask s) = W ->
    length (Mask.data (sweep_mask s)) = L ->
    (forall x' y', x <= x' < W ->
       Mask.isVisible (sweep_mask s) x' y' = visible x' y') ->
    let s' := stride2_loop n interpolateColumn' x s in
    Mask.width (sweep_mask s') = W /\
    length (Mask.data (sweep_mask s')) = L /\
    (forall i j a c, 0 <= i < Z.of_nat n -> 0 <= j < Z.of_nat ny ->
       0 <= a <= 1 -> 0 <= c <= 1 ->
       visible (x + 2 * i) (IBounds.y bounds + 2 * j) = true ->
       pixel_in_data (sweep_mask s) (x + 2 * i + a) (IBounds.y bounds + 2 * j + c) ->
       pixel_bytes (sweep_mask s') (x + 2 * i + a) (IBounds.y bounds + 2 * j + c)
       = stored_color (sample_color' (x + 2 * i) (IBounds.y bounds + 2 * j))) /\
    (forall x' y', 0 <= x' < W ->
       (forall i j, 0 <= i < Z.of_nat n -> 0 <= j < Z.of_nat ny ->
          visible (x + 2 * i) (IBounds.y bounds + 2 * j) = true ->
          ~ (x + 2 * i <= x' <= x + 2 * i + 1 /\
             IBounds.y bounds + 2 * j <= y' <= IBounds.y bounds + 2 * j + 1)) ->
       pixel_bytes (sweep_mask s') x' y' = pixel_bytes (sweep_mask s) x' y').
Proof.
  induction n as [|n IH]; intros x s Hx0 Hx1 HW HL Hvis.
  - cbn [stride2_loop]. split; [exact HW|]. split; [exact HL|].
    split; [intros i j a c Hi; lia|reflexivity].
  - cbn [stride2_loop]. specialize (Hx1 (Nat.neq_succ_0 n)).
    destruct (column_loop_overlay x W L (visible x) Hx0 ltac:(lia) ny
                (IBounds.y bounds) (mkColumnState ∅ (sweep_mask s) (sweep_heap s))
                HW HL) as (HW1 & HL1 & Hin1 & Hout1).
    { intros y' _. apply Hvis. lia. }
    cbn [column_mask] in Hin1, Hout1.
    assert (Hmask1 : sweep_mask (interpolateColumn' x s)
                     = column_mask
                         (stride2_loop ny (interpolatePixel' x) (IBounds.y bounds)
                            (mkColumnState ∅ (sweep_mask s) (sweep_heap s))))
      by reflexivity.
    rewrite <- Hmask1 in HW1, HL1, Hin1, Hout1. clear Hmask1.
    set (s1 := interpolateColumn' x s) in *.
    assert (Hvis1 : forall x' y', x + 2 <= x' < W ->
              Mask.isVisible (sweep_mask s1) x' y' = visible x' y').
    { intros x' y' Hx'. rewrite <- (Hvis x' y') by lia.
      apply isVisible_bytes. apply Hout1; [lia|]. intros j _ _. lia. }
    destruct (IH (x + 2) s1 ltac:(lia) ltac:(lia) HW1 HL1 Hvis1)
      as (HW' & HL' & Hin & Hout).
    set (s' := stride2_loop n interpolateColumn' (x + 2) s1) in *.
    split; [exact HW'|]. split; [exact HL'|]. split.
    + intros i j a c Hi Hj Ha Hc Hv Hdata. destruct (Z.eq_dec i 0) as [->|Hi0].
      * rewrite Z.mul_0_r, Z.add_0_r in *.
        rewrite Hout by (try lia; intros i' j' Hi' _ _; lia).
        now apply Hin1.
      * replace (x + 2 * i) with (x + 2 + 2 * (i - 1)) in * by lia.
        apply Hin; try lia; auto.
        apply (pixel_in_data_same (sweep_mask s)); congruence.
    + intros x' y' Hx' Hfree. rewrite Hout.
      * apply Hout1; [exact Hx'|]. intros j Hj Hv Hblock.
        apply (Hfree 0 j); [lia|exact Hj| |lia].
        now rewrite Z.mul_0_r, Z.add_0_r.
      * exact Hx'.
      * intros i j Hi Hj Hv Hblock.
        apply (Hfree (i + 1) j); [lia|exact Hj| |lia].
        now replace (x + 2 * (i + 1)) with (x + 2 + 2 * i) by lia.
Qed.

(** X21.  The overlay of the completed field, for a sweep whose bounds are
    clamped to the mask's width, at a pixel whose bytes lie within the data:
    a pixel in a swept block whose sample pixel was visible holds the
    colour chosen at the sample pixel (each component brought into
    [0, 255]); every other pixel holds what the mask held.  The sweep does
    not change the size of the image data. *)
Theorem overlay_follows_blocks (mask : Mask.t) (px py : Z) :
  0 <= IBounds.x bounds ->
  IBounds.xMax bounds <= Mask.width mask - 1 ->
  0 <= px < Mask.width mask ->
  pixel_in_data mask px py ->
  let f := fst (interpolateField' mask) in
  length (Field.overlay f) = length (Mask.data mask) /\
  pixel_bytes (Mask.mk (Mask.width mask) (Field.overlay f)) px py
  = match block_sample bounds px py with
    | Some (sx, sy) =>
        if Mask.isVisible mask sx sy then stored_color (sample_color' sx sy)
        else pixel_bytes mask px py
    | None => pixel_bytes mask px py
    end.
Proof.
  intros Hx0 HxM Hpx Hdata. cbv zeta. unfold interpolateField. cbn [fst].
  set (nx := stride2_steps (IBounds.x bounds) (IBounds.xMax bounds - 1)).
  destruct (sweep_overlay (Mask.width mask) (length (Mask.data mask))
              (Mask.isVisible mask) nx (IBounds.x bounds)
              (mkSweepState ∅ mask initial_heap))
    as (HW & HL & Hin & Hout); cbn [sweep_mask]; auto.
  { intros Hn. unfold nx in *. rewrite stride2_steps_spec.
    assert (0 < Z.of_nat (stride2_steps (IBounds.x bounds) (IBounds.xMax bounds - 1)))
      by lia.
    rewrite stride2_steps_spec in *. Z.div_mod_to_equations. lia. }
  set (s := stride2_loop nx interpolateColumn' (IBounds.x bounds) _) in *.
  cbn [sweep_mask] in Hin, Hout.
  unfold createField. cbn [Field.overlay].
  split; [exact HL|].
  assert (Hbytes : pixel_bytes (Mask.mk (Mask.width mask) (Mask.data (sweep_mask s)))
                     px py = pixel_bytes (sweep_mask s) px py).
  { unfold pixel_bytes. cbn [Mask.width Mask.data]. now rewrite HW. }
  rewrite Hbytes.
  destruct (block_sample bounds px py) as [[sx sy]|] eqn:Hblock.
  - destruct (block_sample_some distortion invert projection bounds px py sx sy Hblock)
      as (i & a & j & c & Hi & Ha & Hj & Hc & -> & -> & -> & ->).
    destruct (Mask.isVisible mask _ _) eqn:Hvis.
    + apply Hin; auto.
    + apply Hout; [exact Hpx|]. intros i' j' Hi' Hj' Hv Hb.
      assert (i' = i) by lia. assert (j' = j) by lia. subst. congruence.
  - apply Hout; [exact Hpx|]. intros i' j' Hi' Hj' Hv Hb.
    destruct (block_sample_none distortion invert projection bounds px py Hblock) as [H|H]; fold nx in H; lia.
Qed.

End OverlayFacts.

Lemma overlay_follows_blocks_witness :
  pixel_bytes
    (Mask.mk (Mask.width corner_mask)
       (Field.overlay
          (fst (interpolateField no_distortion identity_invert
                  (sample_geo D3.geoOrthographic) constant_grids corner_bounds
                  corner_mask))))
    1 1
  = [Some 0; Some 0; Some 0; Some 102].
Proof.
  assert (H0 : 0 <= IBounds.x corner_bounds) by (cbn; lia).
  assert (HM : IBounds.xMax corner_bounds <= Mask.width corner_mask - 1)
    by (cbn; lia).
  assert (Hp : 0 <= 1 < Mask.width corner_mask) by (cbn; lia).
  assert (Hd : pixel_in_data corner_mask 1 1) by (unfold pixel_in_data; cbn; lia).
  exact (proj2 (overlay_follows_blocks no_distortion identity_invert
                  (sample_geo D3.geoOrthographic) constant_grids corner_bounds
                  corner_mask 1 1 H0 HM Hp Hd)).
Defined.

(** ** Clamped bounds in whole pixels *)

(** X22.  The clamped bounds of a box with finite corners are whole
    numbers: the lower corner rounded down and the upper corner rounded up,
    then clamped.  They satisfy what the sweep asks of its bounds: the left
    edge is not negative and the right edge is within the view's width; and
    the height the sweep scales velocities with is the height of these
    bounds. *)
Theorem clampedBounds_whole (x0 y0 x1 y1 : Q) (view : View.t) :
  let b := whole_bounds x0 y0 x1 y1 view in
  clampedBounds ((Fin x0, Fin y0), (Fin x1, Fin y1)) view
  = Bounds.mk (JS.of_Z (IBounds.x b)) (JS.of_Z (IBounds.y b))
              (JS.of_Z (IBounds.xMax b)) (JS.of_Z (IBounds.yMax b))
              (JS.of_Z (IBounds.xMax b - IBounds.x b + 1)) (IBounds.height b) /\
  0 <= IBounds.x b /\ 0 <= IBounds.y b /\
  IBounds.xMax b <= View.width view - 1 /\
  IBounds.yMax b <= View.height view - 1.
Proof.
  cbv zeta. unfold clampedBounds, whole_bounds, IBounds.height.
  cbn [fst snd IBounds.x IBounds.y IBounds.xMax IBounds.yMax].
  rewrite !ensureNumber_cases. cbn [JS.floor JS.ceil].
  rewrite !max_of_Z, !min_of_Z, !sub_of_Z, !add_of_Z.
  split; [reflexivity|]. lia.
Qed.

(** ** The registry: which names are rejected *)

Section RegistryMore.

Variable geo : D3.Raw -> D3.Projection.
Variable timezoneOffset : number.
Variable floorMod : number -> number -> number.
Variable view : View.t.

Local Abbreviation buildGlobe' := (buildGlobe geo timezoneOffset floorMod view).

(** X23.  [buildGlobe] returns the rejected promise "Unknown projection:
    <name>", having built no globe, for exactly the names that are not keys
    of the registry. *)
Theorem buildGlobe_rejects_exactly (key : string) :
  buildGlobe' key = (Normal (Rejected ("Unknown projection: " +:+ key)), [])
  <-> forall name, key <> registry_key name.
Proof.
  split.
  - intros H name ->. unfold buildGlobe in H.
    rewrite (globes_registered geo timezoneOffset floorMod name) in H.
    discriminate H.
  - apply buildGlobe_unknown.
Qed.

End RegistryMore.

(** ** A [zoom] event that comes before [zoomstart] *)

Section OutOfOrder.

Variable distance : number * number -> number * number -> number.
Variable invert : D3.Projection -> number * number -> option (number * number).

(** X24.  A [zoom] event that finds no operation starts one at the
    pointer's own position.  When a point is at distance 0 from itself and
    the event's scale is 1, that operation is [spurious]: nothing is
    dispatched, and a [zoomend] after it leaves the globe exactly as it
    was, the controller idle, and still nothing dispatched. *)
Theorem zoom_before_zoomstart (mouse : number * number) (s : number)
    (c : Controller) :
  op c = None ->
  distance mouse mouse = JS.of_Z 0 ->
  JS.strict_eq s (JS.of_Z 1) = true ->
  Op.type <$> op (on_zoom distance mouse s c) = Some spurious /\
  dispatched (on_zoom distance mouse s c) = dispatched c /\
  on_zoomend invert (on_zoom distance mouse s c)
  = Some (mkController (globe c) None (dispatched c)).
Proof.
  intros Hop Hd Hs. unfold on_zoom, ensure_op. rewrite Hop. unfold newOp.
  pose proof (session_round_trip mouse (JS.of_Z 1) (globe c)) as Hround.
  destruct (manipulator mouse (JS.of_Z 1) (globe c)) as [m g1].
  cbn [fst snd] in Hround.
  cbn [Op.type Op.startMouse Op.startScale]. rewrite Hd, Hs.
  change (JS.lt (JS.of_Z 0) MIN_MOVE) with true.
  change (JS.gt (JS.of_Z 0) (JS.of_Z 0)) with false.
  cbn [andb]. unfold on_zoomend.
  cbn [op globe dispatched Op.with_type Op.type Op.manipulator fmap option_fmap
       option_map].
  now rewrite Hround.
Qed.

End OutOfOrder.

Lemma zoom_before_zoomstart_witness :
  on_zoomend identity_invert
    (on_zoom sample_distance (JS.of_Z 7, JS.of_Z 7) (JS.of_Z 1) idle_controller)
  = Some idle_controller.
Proof.
  exact (proj2 (proj2 (zoom_before_zoomstart sample_distance identity_invert
                         (JS.of_Z 7, JS.of_Z 7) (JS.of_Z 1) idle_controller
                         eq_refl eq_refl eq_refl))).
Defined.
